(** * Interactive archive: the rain particle field and the growth network

    A shallow embedding of the two simulation engines of the repository:

    - [Rain]: [RainApp] of [src/projects/rain/RainApp.ts] (particles under
      gravity, the umbrella obstacle, recycling, the lightning bolt);
    - [Network]: [AvatarNetworkApp] (the branching neon network: growth,
      spawning, population cap, tube meshes);
    - [RainSetup]: the constructor of [RainApp] and its frame loop;
    - [Dodge]: [DodgeApp] (the player, the falling enemies, score and
      game over).

    Conventions of the embedding.

    - JavaScript numbers are idealised as real numbers ([R]): no rounding,
      no overflow.  In the rain field the one place where the source can
      produce a non-number is the division by the distance in the collision
      test; it is made visible by [Rain.contact] (see there).  Values at
      concrete inputs are obtained by proof, the reals do not compute.
    - [Math.random()] is a stream [random : nat -> R]; the state counts the
      calls made so far, so the k-th call returns [random k].
    - A [Float32Array] is a [list R]; writing is stdpp's list insert, which
      like a typed array ignores an index out of range.
    - three.js values ([Vector3], [Color], meshes) are records of the data
      the source reads and writes. *)

From Stdlib Require Import Reals Lra Psatz ZArith Lia.
From stdpp Require Import base list gmap strings.

#[local] Open Scope R_scope.

#[global] Instance R_inhabited : Inhabited R := populate 0.

(** ** Vector3 (three.js), as far as the source uses it *)

Module Vec3.

Record t : Type := mk { x : R; y : R; z : R }.

Definition add (a b : t) : t := mk (x a + x b) (y a + y b) (z a + z b).

Definition multiplyScalar (a : t) (s : R) : t := mk (x a * s) (y a * s) (z a * s).

Definition length (a : t) : R := sqrt (x a * x a + y a * y a + z a * z a).

(** [normalize] divides by [length() || 1]: the zero vector stays as it is. *)
Definition normalize (a : t) : t :=
  if Req_dec_T (length a) 0 then a
  else mk (x a / length a) (y a / length a) (z a / length a).

(** [applyAxisAngle((0,0,1), angle)]: the rotation about the z axis. *)
Definition applyAxisAngleZ (a : t) (angle : R) : t :=
  mk (x a * cos angle - y a * sin angle) (x a * sin angle + y a * cos angle) (z a).

Definition setZ (a : t) (v : R) : t := mk (x a) (y a) v.

End Vec3.

(** ** RainApp *)

Module Rain.

(** [PARTICLE_COUNT = 10000].  The constant is sealed: its value is known
    through [PARTICLE_COUNT_eq] only, which keeps the proof checker from
    unrolling the ten thousand iterations of the particle loop whenever it
    compares two states. *)
Definition PARTICLE_COUNT_def : nat := N.to_nat 10000.
Definition PARTICLE_COUNT_aux : seal PARTICLE_COUNT_def.
Proof. by eexists. Qed.
Definition PARTICLE_COUNT : nat := unseal PARTICLE_COUNT_aux.
Definition PARTICLE_COUNT_eq : PARTICLE_COUNT = PARTICLE_COUNT_def :=
  seal_eq PARTICLE_COUNT_aux.
Definition RAIN_RANGE_X : R := 40.
Definition RAIN_RANGE_Y : R := 30.
Definition RAIN_RANGE_Z : R := 10.
Definition GRAVITY : R := 5.
Definition UMBRELLA_RADIUS : R := 3.
Definition BOUNCE_FORCE : R := 5 / 10.

(** The fields of [RainApp] that [update] reads or writes.  [particles],
    [geometry], [lightningBolt] and [lightningMaterial] are set once by the
    constructor and never cleared, so the null tests of the source always
    pass and the objects are represented by their data. *)
Record RainApp : Type := mkRainApp {
  positions : list R;          (* geometry.attributes.position.array *)
  velocities : list R;         (* this.velocities *)
  mouseWorldPos : Vec3.t;
  lightningTimer : R;
  lightningIntensity : R;
  boltPositions : list R;      (* lightningBolt.geometry position array *)
  boltDrawCount : R;           (* count of lightningBolt.geometry.drawRange *)
  boltOpacity : R;             (* lightningMaterial.opacity *)
  randomCalls : nat            (* calls of Math.random() so far *)
}.

Definition set_positions (v : list R) (st : RainApp) : RainApp :=
  mkRainApp v (velocities st) (mouseWorldPos st) (lightningTimer st)
    (lightningIntensity st) (boltPositions st) (boltDrawCount st)
    (boltOpacity st) (randomCalls st).

Definition set_velocities (v : list R) (st : RainApp) : RainApp :=
  mkRainApp (positions st) v (mouseWorldPos st) (lightningTimer st)
    (lightningIntensity st) (boltPositions st) (boltDrawCount st)
    (boltOpacity st) (randomCalls st).

Definition set_lightningTimer (v : R) (st : RainApp) : RainApp :=
  mkRainApp (positions st) (velocities st) (mouseWorldPos st) v
    (lightningIntensity st) (boltPositions st) (boltDrawCount st)
    (boltOpacity st) (randomCalls st).

Definition set_lightningIntensity (v : R) (st : RainApp) : RainApp :=
  mkRainApp (positions st) (velocities st) (mouseWorldPos st)
    (lightningTimer st) v (boltPositions st) (boltDrawCount st)
    (boltOpacity st) (randomCalls st).

Definition set_boltPositions (v : list R) (st : RainApp) : RainApp :=
  mkRainApp (positions st) (velocities st) (mouseWorldPos st)
    (lightningTimer st) (lightningIntensity st) v (boltDrawCount st)
    (boltOpacity st) (randomCalls st).

Definition set_boltDrawCount (v : R) (st : RainApp) : RainApp :=
  mkRainApp (positions st) (velocities st) (mouseWorldPos st)
    (lightningTimer st) (lightningIntensity st) (boltPositions st) v
    (boltOpacity st) (randomCalls st).

Definition set_boltOpacity (v : R) (st : RainApp) : RainApp :=
  mkRainApp (positions st) (velocities st) (mouseWorldPos st)
    (lightningTimer st) (lightningIntensity st) (boltPositions st)
    (boltDrawCount st) v (randomCalls st).

Definition set_randomCalls (v : nat) (st : RainApp) : RainApp :=
  mkRainApp (positions st) (velocities st) (mouseWorldPos st)
    (lightningTimer st) (lightningIntensity st) (boltPositions st)
    (boltDrawCount st) (boltOpacity st) v.

(** The local variables [x y z vx vy vz] of one iteration of the particle
    loop of [update]. *)
Record Particle : Type := mkParticle {
  px : R; py : R; pz : R;
  pvx : R; pvy : R; pvz : R
}.

(** What the collision test computes once [distSq < radiusSq] holds:
    the distance and the offset divided by it. *)
Record Contact : Type := mkContact {
  c_dist : R; c_nx : R; c_ny : R; c_nz : R
}.

Section WithRandom.

Variable random : nat -> R.

(** [Math.random()]. *)
Definition nextRandom (st : RainApp) : R * RainApp :=
  (random (randomCalls st), set_randomCalls (S (randomCalls st)) st).

(** [resetParticle(positions, index, initial)], where [positions] is the
    array of the geometry. *)
Definition resetParticle (index : nat) (initial : bool) (st : RainApp) : RainApp :=
  let i3 := (index * 3)%nat in
  let '(r, st) := nextRandom st in
  let st := set_positions (<[i3 := (r - 5 / 10) * RAIN_RANGE_X]> (positions st)) st in
  let st :=
    if initial then
      let '(r, st) := nextRandom st in
      set_positions (<[(i3 + 1)%nat := (r - 5 / 10) * RAIN_RANGE_Y]> (positions st)) st
    else
      set_positions (<[(i3 + 1)%nat := RAIN_RANGE_Y / 2]> (positions st)) st in
  let '(r, st) := nextRandom st in
  let st := set_positions (<[(i3 + 2)%nat := (r - 5 / 10) * RAIN_RANGE_Z]> (positions st)) st in
  let st := set_velocities (<[i3 := 0]> (velocities st)) st in
  let '(r, st) := nextRandom st in
  let st := set_velocities (<[(i3 + 1)%nat := - (r * 5 + 5)]> (velocities st)) st in
  set_velocities (<[(i3 + 2)%nat := 0]> (velocities st)) st.

(** *** The physics of one particle *)

(** [vy -= GRAVITY * delta]. *)
Definition gravity (delta : R) (p : Particle) : Particle :=
  mkParticle (px p) (py p) (pz p) (pvx p) (pvy p - GRAVITY * delta) (pvz p).

Definition offset (m : Vec3.t) (p : Particle) : Vec3.t :=
  Vec3.mk (px p - Vec3.x m) (py p - Vec3.y m) (pz p - Vec3.z m).

Definition distSq (m : Vec3.t) (p : Particle) : R :=
  let d := offset m p in
  Vec3.x d * Vec3.x d + Vec3.y d * Vec3.y d + Vec3.z d * Vec3.z d.

Definition radiusSq : R := UMBRELLA_RADIUS * UMBRELLA_RADIUS.

(** The test [distSq < radiusSq] and, inside it, [dist] and the normal
    [(dx / dist, dy / dist, dz / dist)].  The source divides without looking
    at [dist]: [Some c] with [c_dist c = 0] is a division of the zero offset
    by zero, which in JavaScript gives NaN in all three components; the
    following test [ny > 0] is then false.  In [R] the quotient [0 / 0] is
    [0], for which [0 < ny] is false as well, so the two agree on the branch
    taken. *)
Definition contact (m : Vec3.t) (p : Particle) : option Contact :=
  let d := offset m p in
  if Rlt_dec (distSq m p) radiusSq then
    let dist := sqrt (distSq m p) in
    Some (mkContact dist (Vec3.x d / dist) (Vec3.y d / dist) (Vec3.z d / dist))
  else None.

Definition dotN (c : Contact) (p : Particle) : R :=
  pvx p * c_nx c + pvy p * c_ny c + pvz p * c_nz c.

(** The reflection itself: velocity mirrored about the normal, the extra
    push added, the position moved out by [pushOut]. *)
Definition reflect (c : Contact) (p : Particle) : Particle :=
  let dot := dotN c p in
  let pushOut := UMBRELLA_RADIUS - c_dist c + 5 / 100 in
  mkParticle
    (px p + c_nx c * pushOut)
    (py p + c_ny c * pushOut)
    (pz p + c_nz c * pushOut)
    (pvx p - 2 * dot * c_nx c + c_nx c * BOUNCE_FORCE)
    (pvy p - 2 * dot * c_ny c + c_ny c * BOUNCE_FORCE)
    (pvz p - 2 * dot * c_nz c + c_nz c * BOUNCE_FORCE).

(** The umbrella block of [update] (from [const dx] to the end of
    [if (distSq < radiusSq)]). *)
Definition collide (m : Vec3.t) (p : Particle) : Particle :=
  match contact m p with
  | Some c =>
      if Rlt_dec 0 (c_ny c) then
        if Rlt_dec (dotN c p) 0 then reflect c p else p
      else p
  | None => p
  end.

(** Drag on [vx] and [vz], then [x += vx * delta] and so on. *)
Definition integrate (delta : R) (p : Particle) : Particle :=
  let vx := pvx p * (99 / 100) in
  let vz := pvz p * (99 / 100) in
  mkParticle (px p + vx * delta) (py p + pvy p * delta) (pz p + vz * delta)
    vx (pvy p) vz.

(** The particle as it stands just before the out-of-bounds test. *)
Definition advance (delta : R) (m : Vec3.t) (p : Particle) : Particle :=
  integrate delta (collide m (gravity delta p)).

(** *** The particle loop *)

Definition particleAt (st : RainApp) (i : nat) : Particle :=
  let i3 := (i * 3)%nat in
  mkParticle
    (positions st !!! i3) (positions st !!! (i3 + 1)%nat) (positions st !!! (i3 + 2)%nat)
    (velocities st !!! i3) (velocities st !!! (i3 + 1)%nat) (velocities st !!! (i3 + 2)%nat).

Definition storeParticle (i : nat) (p : Particle) (st : RainApp) : RainApp :=
  let i3 := (i * 3)%nat in
  let st :=
    set_positions
      (<[(i3 + 2)%nat := pz p]> (<[(i3 + 1)%nat := py p]> (<[i3 := px p]> (positions st)))) st in
  set_velocities
    (<[(i3 + 2)%nat := pvz p]> (<[(i3 + 1)%nat := pvy p]> (<[i3 := pvx p]> (velocities st)))) st.

(** One iteration of [for (let i = 0; i < PARTICLE_COUNT; i++)]. *)
Definition updateParticle (delta : R) (st : RainApp) (i : nat) : RainApp :=
  let p := advance delta (mouseWorldPos st) (particleAt st i) in
  if Rlt_dec (py p) (- RAIN_RANGE_Y / 2) then
    let st := resetParticle i false st in
    storeParticle i (particleAt st i) st
  else storeParticle i p st.

(** *** Lightning *)

(** The loop over the 20 segments of [triggerLightning]; [points] is kept
    in push order. *)
Fixpoint boltSegments (n : nat) (startX currentX currentY : R)
    (points : list R) (st : RainApp) : list R * RainApp :=
  match n with
  | O => (points, st)
  | S n' =>
      let stepY := (15 - (-15)) / 20 in
      let currentY := currentY - stepY in
      let '(r, st) := nextRandom st in
      let xOffset := (r - 5 / 10) * 2 in
      let currentX := currentX + xOffset in
      let currentX :=
        if Rlt_dec 5 (Rabs (currentX - startX))
        then currentX + (startX - currentX) * (5 / 10)
        else currentX in
      boltSegments n' startX currentX currentY
        (points ++ [currentX; currentY; 0]) st
  end.

(** [positions[i] = points[i]] for [i] from [k] on. *)
Fixpoint copyPoints (k : nat) (points : list R) (arr : list R) : list R :=
  match points with
  | [] => arr
  | v :: rest => copyPoints (S k) rest (<[k := v]> arr)
  end.

Definition triggerLightning (st : RainApp) : RainApp :=
  let rangeX := 20 in
  let '(r, st) := nextRandom st in
  let startX := (r - 5 / 10) * rangeX in
  let startY := 15 in
  let '(points, st) := boltSegments 20 startX startX startY [startX; startY; 0] st in
  let validPoints := List.length points in
  let st := set_boltPositions (copyPoints 0 points (boltPositions st)) st in
  set_boltDrawCount (INR validPoints / 3) st.

(** The lightning block at the head of [update]. *)
Definition updateLightning (delta : R) (st : RainApp) : RainApp :=
  let st := set_lightningTimer (lightningTimer st - delta) st in
  let st :=
    if Rle_dec (lightningTimer st) 0 then
      let st := set_lightningIntensity 1 st in
      let '(r, st) := nextRandom st in
      let st := set_lightningTimer (r * 5 + 2) st in
      triggerLightning st
    else st in
  if Rlt_dec 0 (lightningIntensity st) then
    let st := set_lightningIntensity (lightningIntensity st - delta * 3) st in
    let st :=
      if Rlt_dec (lightningIntensity st) 0 then set_lightningIntensity 0 st else st in
    set_boltOpacity (lightningIntensity st) st
  else set_boltDrawCount 0 st.

(** [update(delta)]. *)
Definition update (delta : R) (st : RainApp) : RainApp :=
  fold_left (updateParticle delta) (seq 0 PARTICLE_COUNT) (updateLightning delta st).

(** Successive frames, one [update] per delta. *)
Fixpoint run (deltas : list R) (st : RainApp) : RainApp :=
  match deltas with
  | [] => st
  | d :: rest => run rest (update d st)
  end.

End WithRandom.

End Rain.

(** ** AvatarNetworkApp *)

Module Network.

Definition MAX_BRANCHES : nat := 3000.
Definition BRANCH_LENGTH : R := 6.
Definition GROWTH_SPEED : R := 12.
Definition BRANCH_ANGLE : R := PI / 2.
Definition BRANCH_PROBABILITY : R := 95 / 100.
Definition TUBE_RADIUS : R := 12 / 100.
(** The literal [25] of [branchOut]. *)
Definition MAX_GENERATION : nat := 25.

(** [Math.floor]. *)
Definition floor (r : R) : Z := Int_part r.

(** The remainder operator [%] of JavaScript: the quotient is truncated
    towards zero. *)
Definition jsRem (a b : R) : R :=
  let q := a / b in
  let t := if Rle_dec 0 q then Int_part q else (- Int_part (- q))%Z in
  a - b * IZR t.

(** [new THREE.Color().setHSL(h, s, l)], kept as its three arguments. *)
Record Color : Type := setHSL { hue : R; saturation : R; lightness : R }.

Record Branch : Type := mkBranch {
  start : Vec3.t;
  end_ : Vec3.t;
  direction : Vec3.t;
  age : R;
  generation : nat;
  isGrowing : bool;
  length : R;
  targetLength : R;
  color : Color
}.

(** [new THREE.TubeGeometry(new CatmullRomCurve3(points), tubularSegments,
    radius, 8, false)]. *)
Record TubeGeometry : Type := mkTube {
  points : list Vec3.t;
  tubularSegments : Z;
  radius : R
}.

(** A [MeshBasicMaterial]; [transparent] and [blending] never change. *)
Record Material : Type := mkMaterial { m_color : Color; opacity : R }.

Record Mesh : Type := mkMesh { geometry : TubeGeometry; material : Material }.

(** [branchOutCalls] is a history variable, absent from the source: the
    indices of the branches [branchOut] has been called for, latest first.
    Nothing reads it. *)
Record App : Type := mkApp {
  branches : list Branch;
  branchLines : list Mesh;         (* this.branchLines.children *)
  elapsedTime : R;
  randomCalls : nat;               (* calls of Math.random() so far *)
  branchOutCalls : list nat
}.

Definition set_length (v : R) (b : Branch) : Branch :=
  mkBranch (start b) (end_ b) (direction b) (age b) (generation b)
    (isGrowing b) v (targetLength b) (color b).

Definition set_isGrowing (v : bool) (b : Branch) : Branch :=
  mkBranch (start b) (end_ b) (direction b) (age b) (generation b)
    v (length b) (targetLength b) (color b).

Definition set_end (v : Vec3.t) (b : Branch) : Branch :=
  mkBranch (start b) v (direction b) (age b) (generation b)
    (isGrowing b) (length b) (targetLength b) (color b).

Definition set_age (v : R) (b : Branch) : Branch :=
  mkBranch (start b) (end_ b) (direction b) v (generation b)
    (isGrowing b) (length b) (targetLength b) (color b).

Definition set_branches (v : list Branch) (st : App) : App :=
  mkApp v (branchLines st) (elapsedTime st) (randomCalls st) (branchOutCalls st).

Definition set_branchLines (v : list Mesh) (st : App) : App :=
  mkApp (branches st) v (elapsedTime st) (randomCalls st) (branchOutCalls st).

Definition set_elapsedTime (v : R) (st : App) : App :=
  mkApp (branches st) (branchLines st) v (randomCalls st) (branchOutCalls st).

Definition set_randomCalls (v : nat) (st : App) : App :=
  mkApp (branches st) (branchLines st) (elapsedTime st) v (branchOutCalls st).

Definition set_branchOutCalls (v : list nat) (st : App) : App :=
  mkApp (branches st) (branchLines st) (elapsedTime st) (randomCalls st) v.

Definition set_geometry (g : TubeGeometry) (m : Mesh) : Mesh := mkMesh g (material m).

Definition set_opacity (v : R) (m : Mesh) : Mesh :=
  mkMesh (geometry m) (mkMaterial (m_color (material m)) v).

Section WithRandom.

Variable random : nat -> R.

Definition nextRandom (st : App) : R * App :=
  (random (randomCalls st), set_randomCalls (S (randomCalls st)) st).

(** [createBranch(start, direction, generation)].  [direction.normalize()]
    changes the argument in place, so the first tube is built from the
    normalised direction too. *)
Definition createBranch (start0 direction0 : Vec3.t) (generation0 : nat)
    (st : App) : App :=
  if decide (MAX_BRANCHES <= List.length (branches st))%nat then st
  else
    let hue0 := 5 / 10 + jsRem (INR generation0 * (5 / 100)) (3 / 10) in
    let color0 := setHSL hue0 1 (5 / 10) in
    let targetLength0 := BRANCH_LENGTH * (1 - INR generation0 * (5 / 100)) in
    let direction1 := Vec3.normalize direction0 in
    let branch :=
      mkBranch start0 start0 direction1 0 generation0 true 0
        (Rmax targetLength0 (5 / 10)) color0 in
    let st := set_branches (branches st ++ [branch]) st in
    let points0 := [start0; Vec3.add start0 (Vec3.multiplyScalar direction1 (1 / 100))] in
    let tubeGeometry := mkTube points0 2 TUBE_RADIUS in
    let material0 := mkMaterial color0 (9 / 10) in
    set_branchLines (branchLines st ++ [mkMesh tubeGeometry material0]) st.

(** The [for] loop of [branchOut]. *)
Fixpoint spawnChildren (n : nat) (branch : Branch) (st : App) : App :=
  match n with
  | O => st
  | S n' =>
      let angleRange := BRANCH_ANGLE in
      let '(r, st) := nextRandom st in
      let angle := (r - 5 / 10) * angleRange * 2 in
      let newDirection := Vec3.applyAxisAngleZ (direction branch) angle in
      let newDirection := Vec3.normalize (Vec3.setZ newDirection 0) in
      let st := createBranch (end_ branch) newDirection (S (generation branch)) st in
      spawnChildren n' branch st
  end.

(** [branchOut(branch)]. *)
Definition branchOut (branch : Branch) (st : App) : App :=
  if decide (MAX_GENERATION <= generation branch)%nat then st
  else
    let '(r, st) := nextRandom st in
    if Rlt_dec BRANCH_PROBABILITY r then st
    else
      let '(r, st) := nextRandom st in
      let numNewBranches := (2 + floor (r * 4))%Z in
      spawnChildren (Z.to_nat numNewBranches) branch st.

(** The tube a growing branch gets in [updateBranches]. *)
Definition grownTube (b : Branch) : TubeGeometry :=
  mkTube [start b; end_ b] (Z.max 2 (floor (length b * 4)))
    (TUBE_RADIUS * (1 - INR (generation b) * (6 / 100))).

(** The callback of [this.branches.forEach((branch, index) => ...)].  The
    branch is an object of the array, changed in place; [branchOut] only
    appends to the array, so the changed branch is written back at [index]
    once, at the end. *)
Definition updateBranch (delta : R) (st : App) (index : nat) : App :=
  match branches st !! index with
  | None => st
  | Some branch =>
      let '(branch, st) :=
        if isGrowing branch then
          let branch := set_length (length branch + GROWTH_SPEED * delta) branch in
          let '(branch, st) :=
            if Rle_dec (targetLength branch) (length branch) then
              let branch := set_length (targetLength branch) branch in
              let branch := set_isGrowing false branch in
              let st := set_branchOutCalls (index :: branchOutCalls st) st in
              (branch, branchOut branch st)
            else (branch, st) in
          let branch :=
            set_end (Vec3.add (start branch)
                       (Vec3.multiplyScalar (direction branch) (length branch))) branch in
          let st :=
            match branchLines st !! index with
            | Some mesh =>
                set_branchLines
                  (<[index := set_geometry (grownTube branch) mesh]> (branchLines st)) st
            | None => st
            end in
          (branch, st)
        else (branch, st) in
      let branch := set_age (age branch + delta) branch in
      let st :=
        match branchLines st !! index with
        | Some mesh =>
            let pulse := 7 / 10 + sin (elapsedTime st * 3 + age branch) * (3 / 10) in
            set_branchLines (<[index := set_opacity pulse mesh]> (branchLines st)) st
        | None => st
        end in
      set_branches (<[index := branch]> (branches st)) st
  end.

(** [updateBranches(delta)]: [forEach] visits the indices below the length
    the array has when the call starts. *)
Definition updateBranches (delta : R) (st : App) : App :=
  fold_left (updateBranch delta) (seq 0 (List.length (branches st))) st.

(** [update(delta)]; the camera is not part of the model. *)
Definition update (delta : R) (st : App) : App :=
  updateBranches delta (set_elapsedTime (elapsedTime st + delta) st).

(** *** Construction *)

Definition startPoints : list Vec3.t :=
  [ Vec3.mk 0 0 0; Vec3.mk (-15) 10 0; Vec3.mk 15 10 0;
    Vec3.mk (-15) (-10) 0; Vec3.mk 15 (-10) 0; Vec3.mk 0 15 0;
    Vec3.mk 0 (-15) 0; Vec3.mk (-20) 0 0; Vec3.mk 20 0 0 ].

(** The inner loop of [setupScene], for [i] from [i] up to
    [numBranchesPerPoint]; [n] iterations remain. *)
Fixpoint seedBranches (n i : nat) (numBranchesPerPoint : Z)
    (startPoint : Vec3.t) (st : App) : App :=
  match n with
  | O => st
  | S n' =>
      let '(r, st) := nextRandom st in
      let angle := (INR i / IZR numBranchesPerPoint) * PI * 2 + r * (5 / 10) in
      let direction0 := Vec3.normalize (Vec3.mk (cos angle) (sin angle) 0) in
      let st := createBranch startPoint direction0 0 st in
      seedBranches n' (S i) numBranchesPerPoint startPoint st
  end.

Definition seedPoint (st : App) (startPoint : Vec3.t) : App :=
  let '(r, st) := nextRandom st in
  let numBranchesPerPoint := (4 + floor (r * 4))%Z in
  seedBranches (Z.to_nat numBranchesPerPoint) 0 numBranchesPerPoint startPoint st.

(** The state the constructor leaves: empty lists, then [setupScene]. *)
Definition create : App :=
  fold_left seedPoint startPoints (mkApp [] [] 0 0 []).

(** The states of a running app: what the constructor built, advanced by
    any number of frames. *)
Inductive reachable : App -> Prop :=
  | reachable_create : reachable create
  | reachable_update (delta : R) (st : App) :
      reachable st -> reachable (update delta st).

(** Successive frames, one [update] per delta. *)
Fixpoint run (deltas : list R) (st : App) : App :=
  match deltas with
  | [] => st
  | d :: rest => run rest (update d st)
  end.

End WithRandom.

End Network.

(** ** RainApp: the constructor and the frame loop *)

Module RainSetup.

Import Rain.

Definition set_mouseWorldPos (v : Vec3.t) (st : RainApp) : RainApp :=
  mkRainApp (positions st) (velocities st) v (lightningTimer st)
    (lightningIntensity st) (boltPositions st) (boltDrawCount st)
    (boltOpacity st) (randomCalls st).

Section WithRandom.

Variable random : nat -> R.

(** The loop of [setupScene]: [resetParticle(positions, i, true)] for every
    particle. *)
Definition setupParticles (st : RainApp) : RainApp :=
  fold_left (fun st i => resetParticle random i true st) (seq 0 PARTICLE_COUNT) st.

(** The state the constructor leaves.  The arrays are created filled with
    zeros, the first call of [Math.random()] sets the lightning timer, then
    [setupScene] places the particles; [setupLightning] creates the buffer
    of 50 points with an empty draw range and a transparent material. *)
Definition create : RainApp :=
  let zeros := replicate (PARTICLE_COUNT * 3) 0 in
  setupParticles
    (mkRainApp zeros zeros (Vec3.mk 9999 9999 0) (random 0%nat * 3 + 1) 0
       (replicate (50 * 3) 0) 0 0 1).

(** [animate()]: one frame, [clockDelta] being what [clock.getDelta()]
    returns; rendering and the request of the next frame are not part of the
    model. *)
Definition animate (clockDelta : R) (st : RainApp) : RainApp :=
  update random (Rmin clockDelta (1 / 10)) st.

(** The states of a running rain app: the constructor's, then frames (the
    clock never runs backwards) and pointer events, which set
    [mouseWorldPos]. *)
Inductive reachable : RainApp -> Prop :=
  | reachable_create : reachable create
  | reachable_animate (clockDelta : R) (st : RainApp) :
      0 <= clockDelta -> reachable st -> reachable (animate clockDelta st)
  | reachable_pointer (p : Vec3.t) (st : RainApp) :
      reachable st -> reachable (set_mouseWorldPos p st).

End WithRandom.

End RainSetup.

(** ** DodgeApp *)

Module Dodge.

Definition PLAYER_SPEED : R := 15.
Definition FIELD_SIZE : R := 20.

(** An enemy mesh: its position, the two rotation angles the game changes
    and its [userData]. *)
Record Enemy : Type := mkEnemy {
  position : Vec3.t;
  rotationX : R;
  rotationY : R;
  rotSpeedX : R;               (* userData.rotSpeed.x *)
  rotSpeedY : R;               (* userData.rotSpeed.y *)
  fallSpeed : R                (* userData.fallSpeed *)
}.

(** The game state.  [player] is the position of the player mesh, which the
    constructor creates and nothing removes.  The score display and the
    game-over screen are elements of the page and not part of the model. *)
Record DodgeApp : Type := mkDodgeApp {
  isPlaying : bool;
  score : R;
  timeElapsed : R;
  spawnRate : R;
  lastSpawnTime : R;
  player : Vec3.t;
  enemies : list Enemy;
  keys : gmap string bool;
  randomCalls : nat            (* calls of Math.random() so far *)
}.

Definition set_isPlaying (v : bool) (st : DodgeApp) : DodgeApp :=
  mkDodgeApp v (score st) (timeElapsed st) (spawnRate st) (lastSpawnTime st)
    (player st) (enemies st) (keys st) (randomCalls st).

Definition set_score (v : R) (st : DodgeApp) : DodgeApp :=
  mkDodgeApp (isPlaying st) v (timeElapsed st) (spawnRate st) (lastSpawnTime st)
    (player st) (enemies st) (keys st) (randomCalls st).

Definition set_timeElapsed (v : R) (st : DodgeApp) : DodgeApp :=
  mkDodgeApp (isPlaying st) (score st) v (spawnRate st) (lastSpawnTime st)
    (player st) (enemies st) (keys st) (randomCalls st).

Definition set_spawnRate (v : R) (st : DodgeApp) : DodgeApp :=
  mkDodgeApp (isPlaying st) (score st) (timeElapsed st) v (lastSpawnTime st)
    (player st) (enemies st) (keys st) (randomCalls st).

Definition set_lastSpawnTime (v : R) (st : DodgeApp) : DodgeApp :=
  mkDodgeApp (isPlaying st) (score st) (timeElapsed st) (spawnRate st) v
    (player st) (enemies st) (keys st) (randomCalls st).

Definition set_player (v : Vec3.t) (st : DodgeApp) : DodgeApp :=
  mkDodgeApp (isPlaying st) (score st) (timeElapsed st) (spawnRate st)
    (lastSpawnTime st) v (enemies st) (keys st) (randomCalls st).

Definition set_enemies (v : list Enemy) (st : DodgeApp) : DodgeApp :=
  mkDodgeApp (isPlaying st) (score st) (timeElapsed st) (spawnRate st)
    (lastSpawnTime st) (player st) v (keys st) (randomCalls st).

Definition set_keys (v : gmap string bool) (st : DodgeApp) : DodgeApp :=
  mkDodgeApp (isPlaying st) (score st) (timeElapsed st) (spawnRate st)
    (lastSpawnTime st) (player st) (enemies st) v (randomCalls st).

Definition set_randomCalls (v : nat) (st : DodgeApp) : DodgeApp :=
  mkDodgeApp (isPlaying st) (score st) (timeElapsed st) (spawnRate st)
    (lastSpawnTime st) (player st) (enemies st) (keys st) v.

(** [THREE.MathUtils.clamp]. *)
Definition clamp (value lo hi : R) : R := Rmax lo (Rmin hi value).

(** [a.distanceTo(b)]. *)
Definition distanceTo (a b : Vec3.t) : R :=
  let dx := Vec3.x a - Vec3.x b in
  let dy := Vec3.y a - Vec3.y b in
  let dz := Vec3.z a - Vec3.z b in
  sqrt (dx * dx + dy * dy + dz * dz).

(** [this.keys[code]] as a condition: a key never seen is not pressed. *)
Definition pressed (code : string) (st : DodgeApp) : bool :=
  default false (keys st !! code).

(** The handlers of [keydown] and [keyup]. *)
Definition keydown (code : string) (st : DodgeApp) : DodgeApp :=
  set_keys (<[code := true]> (keys st)) st.

Definition keyup (code : string) (st : DodgeApp) : DodgeApp :=
  set_keys (<[code := false]> (keys st)) st.

(** The vector [move] of [update], built from the keys held. *)
Definition moveVector (st : DodgeApp) : Vec3.t :=
  let move := Vec3.mk 0 0 0 in
  let move :=
    if pressed "ArrowUp" st || pressed "KeyW" st
    then Vec3.mk (Vec3.x move) (Vec3.y move) (Vec3.z move - 1) else move in
  let move :=
    if pressed "ArrowDown" st || pressed "KeyS" st
    then Vec3.mk (Vec3.x move) (Vec3.y move) (Vec3.z move + 1) else move in
  let move :=
    if pressed "ArrowLeft" st || pressed "KeyA" st
    then Vec3.mk (Vec3.x move - 1) (Vec3.y move) (Vec3.z move) else move in
  if pressed "ArrowRight" st || pressed "KeyD" st
  then Vec3.mk (Vec3.x move + 1) (Vec3.y move) (Vec3.z move) else move.

(** The player movement block of [update]. *)
Definition movePlayer (delta : R) (st : DodgeApp) : DodgeApp :=
  let move := moveVector st in
  if Rlt_dec 0 (Vec3.length move) then
    let move := Vec3.multiplyScalar (Vec3.normalize move) (PLAYER_SPEED * delta) in
    let p := Vec3.add (player st) move in
    let limit := FIELD_SIZE / 2 in
    let p := Vec3.mk (clamp (Vec3.x p) (- limit) limit) (Vec3.y p) (Vec3.z p) in
    let p := Vec3.mk (Vec3.x p) (Vec3.y p) (clamp (Vec3.z p) (- limit) limit) in
    set_player p st
  else st.

(** [gameOver()], without the page. *)
Definition gameOver (st : DodgeApp) : DodgeApp := set_isPlaying false st.

Section WithRandom.

Variable random : nat -> R.

Definition nextRandom (st : DodgeApp) : R * DodgeApp :=
  (random (randomCalls st), set_randomCalls (S (randomCalls st)) st).

(** [spawnEnemy()]. *)
Definition spawnEnemy (st : DodgeApp) : DodgeApp :=
  let range := FIELD_SIZE in
  let '(r, st) := nextRandom st in
  let x := (r - 5 / 10) * range in
  let '(r, st) := nextRandom st in
  let z := (r - 5 / 10) * range in
  let '(r, st) := nextRandom st in
  let rsx := r * 2 in
  let '(r, st) := nextRandom st in
  let rsy := r * 2 in
  let '(r, st) := nextRandom st in
  let fall := 5 + r * 5 + score st * (1 / 10) in
  let enemy := mkEnemy (Vec3.mk x 20 z) 0 0 rsx rsy fall in
  set_enemies (enemies st ++ [enemy]) st.

(** The spawning block of [update]. *)
Definition spawning (delta : R) (st : DodgeApp) : DodgeApp :=
  let st := set_timeElapsed (timeElapsed st + delta) st in
  if Rlt_dec (spawnRate st) (timeElapsed st - lastSpawnTime st) then
    let st := spawnEnemy st in
    let st := set_lastSpawnTime (timeElapsed st) st in
    set_spawnRate (Rmax (1 / 10) (5 / 10 - score st * (5 / 1000))) st
  else st.

End WithRandom.

(** What a frame does to an enemy before the tests: it falls and turns. *)
Definition fallen (delta : R) (e : Enemy) : Enemy :=
  let p := position e in
  mkEnemy (Vec3.mk (Vec3.x p) (Vec3.y p - fallSpeed e * delta) (Vec3.z p))
    (rotationX e + rotSpeedX e * delta) (rotationY e + rotSpeedY e * delta)
    (rotSpeedX e) (rotSpeedY e) (fallSpeed e).

(** The body of the enemy loop for index [i]; the enemy is an object of the
    array, changed in place; [splice(i, 1)] is the deletion of index [i]. *)
Definition enemyStep (delta : R) (i : nat) (st : DodgeApp) : DodgeApp :=
  match enemies st !! i with
  | None => st
  | Some e =>
      let e := fallen delta e in
      let st := set_enemies (<[i := e]> (enemies st)) st in
      let dist := distanceTo (position e) (player st) in
      let st := if Rlt_dec dist 1 then gameOver st else st in
      if Rlt_dec (Vec3.y (position e)) 0 then
        let st := set_enemies (delete i (enemies st)) st in
        set_score (score st + 10) st
      else st
  end.

(** [for (let i = n - 1; i >= 0; i--)]. *)
Fixpoint enemyLoop (n : nat) (delta : R) (st : DodgeApp) : DodgeApp :=
  match n with
  | O => st
  | S i => enemyLoop i delta (enemyStep delta i st)
  end.

Section WithRandom.

Variable random : nat -> R.

(** [update(delta)]. *)
Definition update (delta : R) (st : DodgeApp) : DodgeApp :=
  if negb (isPlaying st) then st
  else
    let st := movePlayer delta st in
    let st := spawning random delta st in
    enemyLoop (List.length (enemies st)) delta st.

(** [animate()], [delta] capped. *)
Definition animate (clockDelta : R) (st : DodgeApp) : DodgeApp :=
  update (Rmin clockDelta (1 / 10)) st.

End WithRandom.

(** [restart()]. *)
Definition restart (st : DodgeApp) : DodgeApp :=
  let st := set_enemies [] st in
  let st := set_isPlaying true st in
  let st := set_score 0 st in
  let st := set_timeElapsed 0 st in
  let st := set_lastSpawnTime 0 st in
  set_player (Vec3.mk 0 1 0) st.

(** The state the constructor leaves: the field initialisers, the player
    placed by [setupScene]. *)
Definition create : DodgeApp :=
  mkDodgeApp true 0 0 (5 / 10) 0 (Vec3.mk 0 1 0) [] ∅ 0.

(** The states of a running game: frames (the clock never runs backwards),
    key events and the restart button. *)
Inductive reachable (random : nat -> R) : DodgeApp -> Prop :=
  | reachable_create : reachable random create
  | reachable_animate (clockDelta : R) (st : DodgeApp) :
      0 <= clockDelta -> reachable random st ->
      reachable random (animate random clockDelta st)
  | reachable_keydown (code : string) (st : DodgeApp) :
      reachable random st -> reachable random (keydown code st)
  | reachable_keyup (code : string) (st : DodgeApp) :
      reachable random st -> reachable random (keyup code st)
  | reachable_restart (st : DodgeApp) :
      reachable random st -> reachable random (restart st).

End Dodge.

(** * Vocabulary of the properties

    The notions the statements below are written in.  Nothing here is part
    of the programs. *)

(** A stream for [Math.random()] that always answers one half. *)
Definition half : nat -> R := fun _ => 1 / 2.

Module RainSpec.

Import Rain.

(** The outward unit normal at the particle, as the source computes it. *)
Definition normal (m : Vec3.t) (p : Particle) : Vec3.t :=
  let d := offset m p in
  let dist := sqrt (distSq m p) in
  Vec3.mk (Vec3.x d / dist) (Vec3.y d / dist) (Vec3.z d / dist).

(** Velocity times outward normal. *)
Definition inwardDot (m : Vec3.t) (p : Particle) : R :=
  let n := normal m p in
  pvx p * Vec3.x n + pvy p * Vec3.y n + pvz p * Vec3.z n.

(** The three conditions of the reflection: inside the sphere, in the upper
    half, moving inward. *)
Definition reflects (m : Vec3.t) (p : Particle) : Prop :=
  distSq m p < radiusSq /\ 0 < Vec3.y (offset m p) /\ inwardDot m p < 0.

(** The velocity of a particle as a vector. *)
Definition velocity (p : Particle) : Vec3.t := Vec3.mk (pvx p) (pvy p) (pvz p).

(** The arrays have the size the constructor gives them. *)
Definition sized (st : RainApp) : Prop :=
  List.length (positions st) = (PARTICLE_COUNT * 3)%nat /\
  List.length (velocities st) = (PARTICLE_COUNT * 3)%nat.

(** The lightning fields and the pointer position: what the particle loop
    does not touch. *)
Definition sameScene (st st' : RainApp) : Prop :=
  mouseWorldPos st' = mouseWorldPos st /\
  lightningTimer st' = lightningTimer st /\
  lightningIntensity st' = lightningIntensity st /\
  boltPositions st' = boltPositions st /\
  boltDrawCount st' = boltDrawCount st /\
  boltOpacity st' = boltOpacity st.

(** A particle fresh from [resetParticle(_, _, false)], the [k]-th call of
    [Math.random()] being the first of its three. *)
Definition recycled (random : nat -> R) (k : nat) : Particle :=
  mkParticle
    ((random k - 5 / 10) * RAIN_RANGE_X)
    (RAIN_RANGE_Y / 2)
    ((random (S k) - 5 / 10) * RAIN_RANGE_Z)
    0 (- (random (S (S k)) * 5 + 5)) 0.

(** What one iteration leaves in slot [i]. *)
Definition outcome (random : nat -> R) (delta : R) (m : Vec3.t) (k : nat)
    (p : Particle) : Particle :=
  let q := advance delta m p in
  if Rlt_dec (py q) (- RAIN_RANGE_Y / 2) then recycled random k else q.

(** The pointer at the origin and a drop two units above it, falling. *)
Definition originMouse : Vec3.t := Vec3.mk 0 0 0.

Definition dropAbove : Particle := mkParticle 0 2 0 0 (-5) 0.

(** A drop exactly at the centre of the umbrella. *)
Definition dropAtCentre : Particle := mkParticle 0 0 0 0 (-5) 0.

(** A drop exactly on the umbrella sphere. *)
Definition dropOnSphere : Particle := mkParticle 0 3 0 0 (-5) 0.

(** A field of drops at rest at the origin, the pointer where the
    constructor puts it, no lightning pending for one second. *)
Definition calmField : RainApp :=
  mkRainApp (replicate (PARTICLE_COUNT * 3) 0) (replicate (PARTICLE_COUNT * 3) 0)
    (Vec3.mk 9999 9999 0) 1 0 (replicate 150 0) 0 0 0.



End RainSpec.

Module NetworkSpec.

Import Network.

(** The first tube of a branch, built by [createBranch]. *)
Definition seedTube (b : Branch) : TubeGeometry :=
  mkTube [start b; Vec3.add (start b) (Vec3.multiplyScalar (direction b) (1 / 100))]
    2 TUBE_RADIUS.

(** A mesh shows a branch: the branch's colour, and the tube of the branch,
    either the first one or the one rebuilt from its current end. *)
Definition meshMatches (b : Branch) (m : Mesh) : Prop :=
  m_color (material m) = color b /\
  (geometry m = seedTube b \/ geometry m = grownTube b).

(** A branch and its mesh as [createBranch] makes them for generation [g]. *)
Definition child (g : nat) (b : Branch) (m : Mesh) : Prop :=
  generation b = g /\ isGrowing b = true /\ length b = 0 /\
  targetLength b = Rmax (BRANCH_LENGTH * (1 - INR g * (5 / 100))) (5 / 10) /\
  age b = 0 /\ end_ b = start b /\
  geometry m = seedTube b /\ m_color (material m) = color b.

(** [st'] is [st] with branches of generation [g] appended, each with its
    mesh; only the count of [Math.random()] calls may differ besides. *)
Definition appended (g : nat) (st st' : App) : Prop :=
  exists (bs : list Branch) (ms : list Mesh),
    branches st' = branches st ++ bs /\
    branchLines st' = branchLines st ++ ms /\
    Forall2 (child g) bs ms /\
    elapsedTime st' = elapsedTime st /\
    branchOutCalls st' = branchOutCalls st /\
    (bs = [] \/ (List.length (branches st') <= MAX_BRANCHES)%nat).

(** What a frame of [delta] seconds does to a branch: a function of the
    branch alone. *)
Definition grow (delta : R) (b : Branch) : Branch :=
  if isGrowing b then
    let b := set_length (length b + GROWTH_SPEED * delta) b in
    let b :=
      if Rle_dec (targetLength b) (length b)
      then set_isGrowing false (set_length (targetLength b) b)
      else b in
    let b :=
      set_end (Vec3.add (start b) (Vec3.multiplyScalar (direction b) (length b))) b in
    set_age (age b + delta) b
  else set_age (age b + delta) b.

(** Whether the frame calls [branchOut] for the branch. *)
Definition spawns (delta : R) (b : Branch) : bool :=
  if isGrowing b then
    if Rle_dec (targetLength b) (length b + GROWTH_SPEED * delta) then true else false
  else false.

(** What the frame does to the mesh of the branch; [t] is [elapsedTime]. *)
Definition remesh (t delta : R) (b : Branch) (m : Mesh) : Mesh :=
  let b' := grow delta b in
  let m := if isGrowing b then set_geometry (grownTube b') m else m in
  set_opacity (7 / 10 + sin (t * 3 + age b') * (3 / 10)) m.

(** How often [branchOut] has been called for the branch at index [i]. *)
Definition callsFor (st : App) (i : nat) : nat :=
  count_occ Nat.eq_dec (branchOutCalls st) i.

Definition aligned (st : App) : Prop :=
  List.length (branchLines st) = List.length (branches st).

(** The effect on [st] of the callback run once for every index of [l]. *)
Record stepped (delta : R) (l : list nat) (st st' : App) : Prop := mkStepped {
  stepped_aligned : aligned st';
  stepped_time : elapsedTime st' = elapsedTime st;
  stepped_size :
    (List.length (branches st) <= List.length (branches st'))%nat /\
    (List.length (branches st') = List.length (branches st) \/
     (List.length (branches st') <= MAX_BRANCHES)%nat);
  stepped_branch :
    forall i b, branches st !! i = Some b ->
      branches st' !! i = Some (if decide (i ∈ l) then grow delta b else b);
  stepped_mesh :
    forall i b m, branches st !! i = Some b -> branchLines st !! i = Some m ->
      branchLines st' !! i
      = Some (if decide (i ∈ l) then remesh (elapsedTime st) delta b m else m);
  stepped_new :
    forall i b, (List.length (branches st) <= i)%nat -> branches st' !! i = Some b ->
      exists m g, branchLines st' !! i = Some m /\ child g b m /\
                  (g <= MAX_GENERATION)%nat;
  stepped_calls :
    forall i b, branches st !! i = Some b ->
      callsFor st' i
      = (callsFor st i + (if decide (i ∈ l) then (if spawns delta b then 1 else 0) else 0))%nat;
  stepped_calls_new :
    forall i, (List.length (branches st) <= i)%nat -> callsFor st' i = callsFor st i
}.

(** One frame, for a state whose meshes are aligned with its branches. *)
Record framed (delta : R) (st st' : App) : Prop := mkFramed {
  framed_aligned : aligned st';
  framed_time : elapsedTime st' = elapsedTime st + delta;
  framed_size :
    (List.length (branches st) <= List.length (branches st'))%nat /\
    (List.length (branches st') = List.length (branches st) \/
     (List.length (branches st') <= MAX_BRANCHES)%nat);
  framed_branch :
    forall i b, branches st !! i = Some b ->
      branches st' !! i = Some (grow delta b);
  framed_mesh :
    forall i b m, branches st !! i = Some b -> branchLines st !! i = Some m ->
      branchLines st' !! i = Some (remesh (elapsedTime st + delta) delta b m);
  framed_new :
    forall i b, (List.length (branches st) <= i)%nat -> branches st' !! i = Some b ->
      exists m g, branchLines st' !! i = Some m /\ child g b m /\
                  (g <= MAX_GENERATION)%nat;
  framed_calls :
    forall i b, branches st !! i = Some b ->
      callsFor st' i = (callsFor st i + (if spawns delta b then 1 else 0))%nat;
  framed_calls_new :
    forall i, (List.length (branches st) <= i)%nat -> callsFor st' i = callsFor st i
}.

(** While it grows a branch is shorter than its target; afterwards it has
    exactly the target length. *)
Definition lengthOk (b : Branch) : Prop :=
  if isGrowing b then length b < targetLength b else length b = targetLength b.

Record branchOk (st : App) (i : nat) (b : Branch) : Prop := mkBranchOk {
  ok_generation : (generation b <= MAX_GENERATION)%nat;
  ok_length : lengthOk b;
  ok_calls : callsFor st i = if isGrowing b then 0%nat else 1%nat;
  ok_mesh : exists m, branchLines st !! i = Some m /\ meshMatches b m
}.

Record invariant (st : App) : Prop := mkInvariant {
  inv_aligned : aligned st;
  inv_cap : (List.length (branches st) <= MAX_BRANCHES)%nat;
  inv_branch : forall i b, branches st !! i = Some b -> branchOk st i b;
  inv_outside : forall i, (List.length (branches st) <= i)%nat -> callsFor st i = 0%nat
}.

(** A branch that has stopped growing, with its mesh. *)
Definition frozenBranch : Branch :=
  mkBranch (Vec3.mk 0 0 0) (Vec3.mk 6 0 0) (Vec3.mk 1 0 0) 1 0 false 6 6
    (setHSL (1 / 2) 1 (1 / 2)).

(** Its mesh, as the last growing frame rebuilt it. *)
Definition frozenMesh : Mesh :=
  mkMesh (grownTube frozenBranch) (mkMaterial (setHSL (1 / 2) 1 (1 / 2)) (9 / 10)).

(** An app holding just that branch, one second old. *)
Definition frozenApp : App := mkApp [frozenBranch] [frozenMesh] 1 0 [0%nat].

(** The time a list of frames takes. *)
Definition totalTime (ds : list R) : R := fold_right Rplus 0 ds.

End NetworkSpec.

Module DodgeSpec.

Import Dodge.

(** An enemy below the floor: the frame removes it. *)
Definition landed (e : Enemy) : Prop := Vec3.y (position e) < 0.

(** An enemy closer than 1 to the point [p]: the frame ends the game. *)
Definition hits (p : Vec3.t) (e : Enemy) : Prop := distanceTo (position e) p < 1.

#[global] Instance landed_dec (e : Enemy) : Decision (landed e) := Rlt_dec _ _.

#[global] Instance hits_dec (p : Vec3.t) (e : Enemy) : Decision (hits p e) :=
  Rlt_dec _ _.

(** The fields the enemy loop never writes. *)
Definition sameGame (st st' : DodgeApp) : Prop :=
  player st' = player st /\ timeElapsed st' = timeElapsed st /\
  spawnRate st' = spawnRate st /\ lastSpawnTime st' = lastSpawnTime st /\
  keys st' = keys st /\ randomCalls st' = randomCalls st.

(** A point of the playing field: x and z within half the field size. *)
Definition inField (p : Vec3.t) : Prop :=
  - (FIELD_SIZE / 2) <= Vec3.x p <= FIELD_SIZE / 2 /\
  - (FIELD_SIZE / 2) <= Vec3.z p <= FIELD_SIZE / 2.

(** An enemy as the game makes them: above the field, not higher than where
    it was dropped, falling at 5 units per second or faster. *)
Definition enemyOk (e : Enemy) : Prop :=
  inField (position e) /\ Vec3.y (position e) <= 20 /\ 5 <= fallSpeed e /\
  0 <= rotSpeedX e < 2 /\ 0 <= rotSpeedY e < 2.

(** The enemy [spawnEnemy] makes when [k] calls of [Math.random()] have
    been made and the score is [s]. *)
Definition spawnedEnemy (random : nat -> R) (k : nat) (s : R) : Enemy :=
  mkEnemy
    (Vec3.mk ((random k - 5 / 10) * FIELD_SIZE) 20
       ((random (S k) - 5 / 10) * FIELD_SIZE))
    0 0 (random (S (S k)) * 2) (random (S (S (S k))) * 2)
    (5 + random (S (S (S (S k)))) * 5 + s * (1 / 10)).

(** The condition of the spawning block, for a frame of [delta] seconds. *)
Definition spawnDue (delta : R) (st : DodgeApp) : Prop :=
  spawnRate st < timeElapsed st + delta - lastSpawnTime st.

(** The enemies a frame of [delta] seconds adds before the enemy loop: one
    if a spawn is due, none otherwise. *)
Definition spawnedNow (random : nat -> R) (delta : R) (st : DodgeApp) : list Enemy :=
  if Rlt_dec (spawnRate st) (timeElapsed st + delta - lastSpawnTime st)
  then [spawnedEnemy random (randomCalls st) (score st)] else [].

(** The enemies of a frame as the loop tests them: the old ones and the new
    one, each after its fall. *)
Definition tested (random : nat -> R) (delta : R) (st : DodgeApp) : list Enemy :=
  fallen delta <$> (enemies st ++ spawnedNow random delta st).

(** What holds in every state of a running game. *)
Definition gameOk (st : DodgeApp) : Prop :=
  (exists k : nat, score st = 10 * INR k) /\
  (1 / 10 <= spawnRate st <= 5 / 10) /\
  (0 <= lastSpawnTime st <= timeElapsed st) /\
  inField (player st) /\ Vec3.y (player st) = 1 /\
  Forall enemyOk (enemies st) /\
  Forall (fun e => ~ landed e) (enemies st).

(** What the user can do to a running game. *)
Inductive Event : Type :=
  | Frame (clockDelta : R)
  | KeyDown (code : string)
  | KeyUp (code : string).

Definition handle (random : nat -> R) (st : DodgeApp) (ev : Event) : DodgeApp :=
  match ev with
  | Frame d => animate random d st
  | KeyDown code => keydown code st
  | KeyUp code => keyup code st
  end.

(** The events of a session one after the other. *)
Definition play (random : nat -> R) (evs : list Event) (st : DodgeApp) : DodgeApp :=
  fold_left (handle random) evs st.

(** A running game with one enemy in the air, away from the player. *)
Definition oneEnemy : DodgeApp :=
  mkDodgeApp true 0 0 (5 / 10) 0 (Vec3.mk 0 1 0)
    [mkEnemy (Vec3.mk 5 10 5) 0 0 1 1 5] ∅ 0.

(** The same game after it was lost. *)
Definition lostGame : DodgeApp := gameOver oneEnemy.

End DodgeSpec.

Module RainMoreSpec.

Import Rain RainSpec RainSetup.

(** A particle fresh from [resetParticle(_, _, true)], the [k]-th call of
    [Math.random()] being the first of its four. *)
Definition seeded (random : nat -> R) (k : nat) : Particle :=
  mkParticle
    ((random k - 5 / 10) * RAIN_RANGE_X)
    ((random (S k) - 5 / 10) * RAIN_RANGE_Y)
    ((random (S (S k)) - 5 / 10) * RAIN_RANGE_Z)
    0 (- (random (S (S (S k))) * 5 + 5)) 0.

(** The box the rain is created in, its upper face included. *)
Definition inVolume (p : Particle) : Prop :=
  (- (RAIN_RANGE_X / 2) <= px p < RAIN_RANGE_X / 2) /\
  (- (RAIN_RANGE_Y / 2) <= py p <= RAIN_RANGE_Y / 2) /\
  (- (RAIN_RANGE_Z / 2) <= pz p < RAIN_RANGE_Z / 2).

(** The rain volume with all its faces. *)
Definition inBox (p : Particle) : Prop :=
  (- (RAIN_RANGE_X / 2) <= px p <= RAIN_RANGE_X / 2) /\
  (- (RAIN_RANGE_Y / 2) <= py p <= RAIN_RANGE_Y / 2) /\
  (- (RAIN_RANGE_Z / 2) <= pz p <= RAIN_RANGE_Z / 2).

(** A drop that falls straight down, at its initial speed or faster. *)
Definition fallsStraight (p : Particle) : Prop :=
  pvx p = 0 /\ pvz p = 0 /\ pvy p <= -5.

(** What holds of the lightning in every state of a running app. *)
Definition lightningOk (st : RainApp) : Prop :=
  (0 <= lightningIntensity st <= 1) /\
  boltOpacity st = lightningIntensity st /\
  (boltDrawCount st = 0 \/ boltDrawCount st = 21) /\
  (0 < lightningIntensity st -> boltDrawCount st = 21) /\
  0 < lightningTimer st /\
  List.length (boltPositions st) = 150%nat.

(** The states of a rain app whose pointer has never moved. *)
Inductive reachableCalm (random : nat -> R) : RainApp -> Prop :=
  | calm_create : reachableCalm random (create random)
  | calm_animate (clockDelta : R) (st : RainApp) :
      0 <= clockDelta -> reachableCalm random st ->
      reachableCalm random (animate random clockDelta st).

(** A state whose lightning timer has 1/20 s left. *)
Definition aboutToFire : RainApp := set_lightningTimer (1 / 20) calmField.

End RainMoreSpec.

Module NetworkMoreSpec.

Import Network NetworkSpec.

(** A vector of the plane [z = 0]. *)
Definition planar (v : Vec3.t) : Prop := Vec3.z v = 0.

Definition dot (a b : Vec3.t) : R :=
  Vec3.x a * Vec3.x b + Vec3.y a * Vec3.y b + Vec3.z a * Vec3.z b.

Definition unitLength (v : Vec3.t) : Prop := dot v v = 1.

(** Where the growing end of a branch is by its [start], [direction] and
    [length]. *)
Definition tip (b : Branch) : Vec3.t :=
  Vec3.add (start b) (Vec3.multiplyScalar (direction b) (length b)).

(** The geometry of a branch of the network. *)
Definition shaped (b : Branch) : Prop :=
  planar (start b) /\ planar (end_ b) /\ planar (direction b) /\
  unitLength (direction b) /\ end_ b = tip b /\
  targetLength b = Rmax (BRANCH_LENGTH * (1 - INR (generation b) * (5 / 100))) (5 / 10).

(** The angle [branchOut] turns by when [Math.random()] answers [r]. *)
Definition turn (r : R) : R := (r - 5 / 10) * BRANCH_ANGLE * 2.

(** [c] is a branch that [branchOut(parent)] creates. *)
Definition sprout (random : nat -> R) (parent c : Branch) : Prop :=
  start c = end_ parent /\ generation c = S (generation parent) /\
  isGrowing c = true /\ length c = 0 /\ end_ c = start c /\ age c = 0 /\
  targetLength c
  = Rmax (BRANCH_LENGTH * (1 - INR (S (generation parent)) * (5 / 100))) (5 / 10) /\
  exists k : nat,
    direction c
    = Vec3.normalize (Vec3.normalize
        (Vec3.setZ (Vec3.applyAxisAngleZ (direction parent) (turn (random k))) 0)).

(** [b] is a branch that [setupScene] creates. *)
Definition seed (b : Branch) : Prop :=
  generation b = 0%nat /\ isGrowing b = true /\ length b = 0 /\ age b = 0 /\
  targetLength b = BRANCH_LENGTH /\ end_ b = start b /\ start b ∈ startPoints /\
  exists angle : R,
    direction b
    = Vec3.normalize (Vec3.normalize (Vec3.mk (cos angle) (sin angle) 0)).

(** The number of branches the list grew by. *)
Definition added (st st' : App) : nat :=
  (List.length (branches st') - List.length (branches st))%nat.

(** A branch half grown, with its mesh, in an app of its own. *)
Definition youngBranch : Branch :=
  mkBranch (Vec3.mk 0 0 0) (Vec3.mk 3 0 0) (Vec3.mk 1 0 0) (1 / 4) 0 true 3 6
    (setHSL (1 / 2) 1 (1 / 2)).

Definition youngApp : App :=
  mkApp [youngBranch]
    [mkMesh (grownTube youngBranch) (mkMaterial (setHSL (1 / 2) 1 (1 / 2)) (9 / 10))]
    (1 / 4) 0 [].

End NetworkMoreSpec.

(** Rewriting of reads from an array after writes to it. *)
Ltac arr :=
  repeat first
    [ rewrite length_insert
    | rewrite list_lookup_total_insert_eq by (rewrite ?length_insert; lia)
    | rewrite list_lookup_total_insert_ne by lia ].

(** Case analysis on membership tests in lists of indices. *)
Ltac mem_cases :=
  repeat case_decide;
  repeat match goal with
    | H : _ ∈ [_] |- _ => apply list_elem_of_singleton in H
    | H : _ ∉ [_] |- _ => rewrite list_elem_of_singleton in H
    | H : _ ∈ _ :: _ |- _ => apply elem_of_cons in H
    | H : _ ∉ _ :: _ |- _ => apply not_elem_of_cons in H
    end;
  subst; try reflexivity; try lia; try tauto; try (exfalso; intuition congruence).

(** * Properties of the rain particle field *)

Module RainFacts.

Import Rain RainSpec.

(** ** The collision test *)

Lemma sq3_nonneg (a b c : R) : 0 <= a * a + b * b + c * c.
Proof. nra. Qed.

Lemma sq3_zero (a b c : R) : a * a + b * b + c * c = 0 -> a = 0 /\ b = 0 /\ c = 0.
Proof. intros H. repeat split; nra. Qed.

Lemma distSq_nonneg (m : Vec3.t) (p : Particle) : 0 <= distSq m p.
Proof. unfold distSq. apply sq3_nonneg. Qed.

Lemma distSq_zero_offset (m : Vec3.t) (p : Particle) :
  distSq m p = 0 -> offset m p = Vec3.mk 0 0 0.
Proof.
  unfold distSq. cbv zeta. intros H.
  destruct (sq3_zero _ _ _ H) as (Hx & Hy & Hz).
  destruct (offset m p) as [a b c]; simpl in *. congruence.
Qed.

Lemma dist_pos (m : Vec3.t) (p : Particle) :
  Vec3.y (offset m p) <> 0 -> 0 < sqrt (distSq m p).
Proof.
  intros H. apply sqrt_lt_R0.
  unfold distSq. cbv zeta. set (d := offset m p) in *.
  assert (0 < Vec3.y d * Vec3.y d) by nra.
  pose proof (Rle_0_sqr (Vec3.x d)). pose proof (Rle_0_sqr (Vec3.z d)).
  unfold Rsqr in *. lra.
Qed.

Lemma normal_y_sign (m : Vec3.t) (p : Particle) :
  0 < Vec3.y (normal m p) <-> 0 < Vec3.y (offset m p).
Proof.
  unfold normal. cbv zeta. cbn [Vec3.y].
  destruct (Req_dec_T (Vec3.y (offset m p)) 0) as [E | N].
  - rewrite E. unfold Rdiv. rewrite Rmult_0_l. split; lra.
  - pose proof (dist_pos m p N) as Hd. split; intros H.
    + destruct (Rlt_le_dec 0 (Vec3.y (offset m p))) as [? | Hle]; [assumption |].
      exfalso. assert (Vec3.y (offset m p) / sqrt (distSq m p) <= 0); [| lra].
      unfold Rdiv. pose proof (Rinv_0_lt_compat _ Hd). nra.
    + apply Rdiv_lt_0_compat; assumption.
Qed.

Lemma normal_unit (m : Vec3.t) (p : Particle) :
  0 < sqrt (distSq m p) ->
  let n := normal m p in
  Vec3.x n * Vec3.x n + Vec3.y n * Vec3.y n + Vec3.z n * Vec3.z n = 1.
Proof.
  intros Hd. unfold normal. cbv zeta. cbn [Vec3.x Vec3.y Vec3.z].
  pose proof (sqrt_sqrt _ (distSq_nonneg m p)) as Hs.
  unfold distSq in Hs at 3. cbv zeta in Hs.
  set (s := sqrt (distSq m p)) in *. set (d := offset m p) in *.
  transitivity
    ((Vec3.x d * Vec3.x d + Vec3.y d * Vec3.y d + Vec3.z d * Vec3.z d) / (s * s)).
  - field. lra.
  - rewrite <- Hs. field. lra.
Qed.

(** [collide] spelled out with the three conditions. *)
Lemma collide_cases (m : Vec3.t) (p : Particle) :
  (reflects m p /\
   collide m p =
     reflect (mkContact (sqrt (distSq m p)) (Vec3.x (normal m p))
                (Vec3.y (normal m p)) (Vec3.z (normal m p))) p) \/
  (~ reflects m p /\ collide m p = p).
Proof.
  unfold collide, contact, reflects.
  destruct (Rlt_dec (distSq m p) radiusSq) as [Hin | Hout]; [| right; tauto].
  cbv zeta. cbn [c_ny].
  destruct (Rlt_dec 0 _) as [Hup | Hdown].
  - destruct (Rlt_dec _ 0) as [Hdot | Hdot].
    + left. split; [| reflexivity].
      split; [assumption |]. split; [apply normal_y_sign; exact Hup | exact Hdot].
    + right. split; [| reflexivity]. intros (_ & _ & H). apply Hdot. exact H.
  - right. split; [| reflexivity]. intros (_ & H & _). apply Hdown.
    apply (proj2 (normal_y_sign m p)). exact H.
Qed.

(** ** Non-penetration *)

(** The arithmetic behind the push-out: a point at distance [3.05] along a
    unit normal [n], moved by [delta] times a velocity [w] damped in x and z
    and with [w . n >= 1/2], stays at distance at least [3]. *)
Lemma pushed_out_stays_out (nx ny nz wx wy wz delta d : R) :
  nx * nx + ny * ny + nz * nz = 1 ->
  0 < ny -> d < 0 -> 0 <= delta ->
  wx * nx + wy * ny + wz * nz = - d + 5 / 10 ->
  let L := 3 + 5 / 100 in
  let X := L * nx + wx * (99 / 100) * delta in
  let Y := L * ny + wy * delta in
  let Z := L * nz + wz * (99 / 100) * delta in
  3 * 3 <= X * X + Y * Y + Z * Z.
Proof.
  intros Hn Hny Hd Hdelta Hw L X Y Z.
  set (a := wx * (99 / 100) * delta) in *.
  set (b := wz * (99 / 100) * delta) in *.
  set (t := wy * delta) in *.
  set (q := a * nx + t * ny + b * nz).
  assert (Hexp : X * X + Y * Y + Z * Z
                 = L * L * (nx * nx + ny * ny + nz * nz) + 2 * L * q
                   + (a * a + t * t + b * b)).
  { unfold X, Y, Z, q. field. }
  rewrite Hexp, Hn. clear Hexp.
  assert (Hq : q = 99 / 100 * delta * (- d + 5 / 10) + 1 / 100 * (t * ny)).
  { unfold q, a, b, t. rewrite <- Hw. field. }
  assert (Hny1 : ny <= 1).
  { pose proof (Rle_0_sqr nx). pose proof (Rle_0_sqr nz). unfold Rsqr in *.
    destruct (Rle_lt_dec ny 1) as [? | Hgt]; [assumption |].
    assert (1 < ny * ny) by nra. lra. }
  assert (Hpos : 0 <= 99 / 100 * delta * (- d + 5 / 10)).
  { apply Rmult_le_pos; lra. }
  pose proof (Rle_0_sqr a) as Ha. pose proof (Rle_0_sqr b) as Hb.
  pose proof (Rle_0_sqr t) as Ht. unfold Rsqr in Ha, Hb, Ht.
  unfold L in *.
  destruct (Rle_lt_dec 0 t) as [Ht0 | Ht0].
  - assert (0 <= t * ny) by (apply Rmult_le_pos; lra). lra.
  - assert (t <= t * ny) by nra.
    pose proof (Rle_0_sqr (t + 305 / 10000)) as Hsq. unfold Rsqr in Hsq.
    lra.
Qed.

Lemma advance_outside (delta : R) (m : Vec3.t) (p0 : Particle) :
  0 <= delta ->
  reflects m (gravity delta p0) ->
  radiusSq <= distSq m (advance delta m p0).
Proof.
  intros Hdelta Hr. unfold advance.
  set (p := gravity delta p0) in *.
  destruct (collide_cases m p) as [[_ E] | [N _]]; [| contradiction].
  rewrite E. clear E.
  destruct Hr as (_ & Hup & Hdot).
  assert (Hs : 0 < sqrt (distSq m p)) by (apply dist_pos; lra).
  pose proof (normal_unit m p Hs) as Hn. cbv zeta in Hn.
  pose proof (proj2 (normal_y_sign m p) Hup) as Hny.
  unfold inwardDot in Hdot. cbv zeta in Hdot.
  assert (Hoff : offset m p =
            Vec3.mk (Vec3.x (normal m p) * sqrt (distSq m p))
                    (Vec3.y (normal m p) * sqrt (distSq m p))
                    (Vec3.z (normal m p) * sqrt (distSq m p))).
  { unfold normal. cbv zeta. cbn [Vec3.x Vec3.y Vec3.z].
    destruct (offset m p) as [a b c]. cbn [Vec3.x Vec3.y Vec3.z].
    f_equal; field; lra. }
  revert Hn Hny Hdot Hoff.
  generalize (normal m p) (sqrt (distSq m p)). intros [nx ny nz] s.
  cbn [Vec3.x Vec3.y Vec3.z]. intros Hn Hny Hdot Hoff.
  unfold offset in Hoff. injection Hoff as Hx Hy Hz.
  change (px p0) with (px p) in Hx. change (py p0) with (py p) in Hy.
  change (pz p0) with (pz p) in Hz.
  set (d := pvx p * nx + pvy p * ny + pvz p * nz) in *.
  pose proof (pushed_out_stays_out nx ny nz
                (pvx p - 2 * d * nx + nx * BOUNCE_FORCE)
                (pvy p - 2 * d * ny + ny * BOUNCE_FORCE)
                (pvz p - 2 * d * nz + nz * BOUNCE_FORCE)
                delta d Hn Hny Hdot Hdelta) as Hmain.
  cbv zeta in Hmain.
  unfold radiusSq, distSq, offset, integrate, reflect, dotN, UMBRELLA_RADIUS.
  cbn [px py pz pvx pvy pvz c_dist c_nx c_ny c_nz Vec3.x Vec3.y Vec3.z].
  fold d.
  match goal with
  | |- _ <= ?a * ?a + ?b * ?b + ?c * ?c =>
      replace a with
        ((3 + 5 / 100) * nx + (pvx p - 2 * d * nx + nx * BOUNCE_FORCE) * (99 / 100) * delta)
        by (unfold UMBRELLA_RADIUS; lra);
      replace b with
        ((3 + 5 / 100) * ny + (pvy p - 2 * d * ny + ny * BOUNCE_FORCE) * delta)
        by (unfold UMBRELLA_RADIUS; lra);
      replace c with
        ((3 + 5 / 100) * nz + (pvz p - 2 * d * nz + nz * BOUNCE_FORCE) * (99 / 100) * delta)
        by (unfold UMBRELLA_RADIUS; lra)
  end.
  apply Hmain.
  unfold BOUNCE_FORCE.
  transitivity (d - 2 * d * (nx * nx + ny * ny + nz * nz)
                + 5 / 10 * (nx * nx + ny * ny + nz * nz)).
  - unfold d. field.
  - rewrite Hn. field.
Qed.

(** ** The particle loop *)

Section Loop.

Variable random : nat -> R.

#[local] Abbreviation updateParticle := (Rain.updateParticle random).
#[local] Abbreviation resetParticle := (Rain.resetParticle random).
#[local] Abbreviation updateLightning := (Rain.updateLightning random).
#[local] Abbreviation update := (Rain.update random).

Lemma sameScene_refl (st : RainApp) : sameScene st st.
Proof. repeat split. Qed.

Lemma sameScene_trans (a b c : RainApp) :
  sameScene a b -> sameScene b c -> sameScene a c.
Proof. unfold sameScene. intuition congruence. Qed.

Lemma updateParticle_sized (delta : R) (st : RainApp) (i : nat) :
  sized st -> sized (updateParticle delta st i).
Proof.
  unfold sized, Rain.updateParticle. intros [Hp Hv].
  destruct (Rlt_dec _ _); cbn; rewrite ?length_insert; auto.
Qed.

Lemma updateParticle_scene (delta : R) (st : RainApp) (i : nat) :
  sameScene st (updateParticle delta st i).
Proof.
  unfold Rain.updateParticle. destruct (Rlt_dec _ _); repeat split.
Qed.

Lemma updateParticle_other (delta : R) (st : RainApp) (i j : nat) :
  i <> j -> particleAt (updateParticle delta st i) j = particleAt st j.
Proof.
  intros Hij. unfold Rain.updateParticle.
  destruct (Rlt_dec _ _); unfold particleAt; cbn; arr; reflexivity.
Qed.

Lemma updateParticle_self (delta : R) (st : RainApp) (i : nat) :
  sized st -> (i < PARTICLE_COUNT)%nat ->
  particleAt (updateParticle delta st i) i
  = outcome random delta (mouseWorldPos st) (randomCalls st) (particleAt st i).
Proof.
  intros [Hp Hv] Hi. unfold Rain.updateParticle, outcome. cbv zeta.
  generalize (advance delta (mouseWorldPos st) (particleAt st i)). intros q.
  destruct (Rlt_dec _ _); unfold particleAt, recycled; cbn; arr.
  - reflexivity.
  - destruct q; reflexivity.
Qed.

Lemma loop_spec (delta : R) (l : list nat) :
  forall st : RainApp,
    sized st -> NoDup l -> (forall i, i ∈ l -> (i < PARTICLE_COUNT)%nat) ->
    let st' := fold_left (updateParticle delta) l st in
    sized st' /\ sameScene st st' /\
    forall i,
      (i ∈ l ->
       exists k, particleAt st' i = outcome random delta (mouseWorldPos st) k (particleAt st i)) /\
      (i ∉ l -> particleAt st' i = particleAt st i).
Proof.
  induction l as [| a l IH]; intros st Hsz Hnd Hlt; cbn [fold_left].
  - split; [assumption |]. split; [apply sameScene_refl |].
    intros i. split; [intros H; inversion H | reflexivity].
  - apply NoDup_cons in Hnd as [Ha Hnd].
    destruct (IH (updateParticle delta st a)) as (Hsz' & Hsc & Hpart).
    + apply updateParticle_sized; assumption.
    + assumption.
    + intros i Hi. apply Hlt. right. exact Hi.
    + split; [assumption |].
      pose proof (updateParticle_scene delta st a) as Hsc1.
      split; [eapply sameScene_trans; eassumption |].
      intros i. destruct (Hpart i) as [Hin Hout]. split.
      * intros Hi. apply elem_of_cons in Hi as [-> | Hi].
        -- exists (randomCalls st). rewrite (Hout Ha).
           apply updateParticle_self; [assumption |]. apply Hlt. left.
        -- destruct (Hin Hi) as [k Hk]. exists k. rewrite Hk.
           destruct Hsc1 as [-> _].
           rewrite updateParticle_other; [reflexivity |].
           intros ->. contradiction.
      * intros Hi. apply not_elem_of_cons in Hi as [Hne Hi].
        rewrite (Hout Hi). apply updateParticle_other. congruence.
Qed.

Lemma loop_scene (delta : R) (l : list nat) :
  forall st : RainApp, sameScene st (fold_left (updateParticle delta) l st).
Proof.
  induction l as [| a l IH]; intros st; cbn [fold_left].
  - apply sameScene_refl.
  - eapply sameScene_trans; [apply updateParticle_scene | apply IH].
Qed.

(** *** The lightning block *)

Lemma boltSegments_spec (n : nat) :
  forall (startX currentX currentY : R) (pts : list R) (st : RainApp),
    let res := Rain.boltSegments random n startX currentX currentY pts st in
    List.length (fst res) = (List.length pts + 3 * n)%nat /\
    lightningTimer (snd res) = lightningTimer st /\
    lightningIntensity (snd res) = lightningIntensity st /\
    positions (snd res) = positions st /\
    velocities (snd res) = velocities st /\
    mouseWorldPos (snd res) = mouseWorldPos st.
Proof.
  induction n as [| n IH]; intros startX currentX currentY pts st.
  - cbn. repeat split; lia.
  - cbn [Rain.boltSegments]. cbv zeta. unfold Rain.nextRandom.
    match goal with
    | |- context [Rain.boltSegments _ n ?a ?b ?c ?d ?e] =>
        destruct (IH a b c d e) as (Hl & Ht & Hi & Hp & Hv & Hm)
    end.
    cbv zeta in *. rewrite Hl, Ht, Hi, Hp, Hv, Hm.
    rewrite length_app. cbn. repeat split; lia.
Qed.

Lemma triggerLightning_spec (st : RainApp) :
  let st' := Rain.triggerLightning random st in
  boltDrawCount st' = 21 /\
  lightningTimer st' = lightningTimer st /\
  lightningIntensity st' = lightningIntensity st /\
  positions st' = positions st /\
  velocities st' = velocities st /\
  mouseWorldPos st' = mouseWorldPos st.
Proof.
  unfold Rain.triggerLightning. cbv zeta. unfold Rain.nextRandom.
  match goal with
  | |- context [Rain.boltSegments _ ?n ?a ?b ?c ?d ?e] =>
      pose proof (boltSegments_spec n a b c d e) as H;
      destruct (Rain.boltSegments random n a b c d e) as [pts st1]
  end.
  cbv zeta in H. cbn [fst snd] in H. destruct H as (Hl & Ht & Hi & Hp & Hv & Hm).
  cbn. rewrite Hl, Ht, Hi, Hp, Hv, Hm. cbn [List.length].
  repeat split.
  change (3 + 3 * 20)%nat with 63%nat. rewrite INR_IZR_INZ.
  change (Z.of_nat 63) with 63%Z. lra.
Qed.

(** The frame in which the timer runs out. *)
Lemma updateLightning_fire (delta : R) (st : RainApp) :
  lightningTimer st - delta <= 0 ->
  let st' := updateLightning delta st in
  lightningTimer st' = random (randomCalls st) * 5 + 2 /\
  lightningIntensity st' = Rmax 0 (1 - delta * 3) /\
  boltDrawCount st' = 21.
Proof.
  intros Hfire. unfold Rain.updateLightning. cbv zeta.
  cbn [lightningTimer set_lightningTimer].
  destruct (Rle_dec _ 0) as [_ | N]; [| contradiction].
  unfold Rain.nextRandom.
  match goal with
  | |- context [Rain.triggerLightning _ ?s] =>
      destruct (triggerLightning_spec s) as (Hc & Ht & Hi & _);
      generalize dependent (Rain.triggerLightning random s)
  end.
  cbn. intros st1 Hc Ht Hi. rewrite Hi.
  destruct (Rlt_dec 0 1) as [_ | N]; [| lra].
  cbn. destruct (Rlt_dec (1 - delta * 3) 0) as [Hneg | Hpos]; cbn;
    rewrite Ht, Hc; repeat split; try reflexivity.
  - rewrite Rmax_left; lra.
  - rewrite Rmax_right; lra.
Qed.

(** A frame in which the timer keeps running. *)
Lemma updateLightning_idle (delta : R) (st : RainApp) :
  0 < lightningTimer st - delta ->
  let st' := updateLightning delta st in
  lightningTimer st' = lightningTimer st - delta /\
  (0 < lightningIntensity st ->
   lightningIntensity st' = Rmax 0 (lightningIntensity st - delta * 3) /\
   boltDrawCount st' = boltDrawCount st) /\
  (lightningIntensity st <= 0 ->
   lightningIntensity st' = lightningIntensity st /\ boltDrawCount st' = 0).
Proof.
  intros Hidle. unfold Rain.updateLightning. cbv zeta.
  cbn [lightningTimer set_lightningTimer].
  destruct (Rle_dec _ 0) as [N | _]; [lra |].
  cbn [lightningIntensity set_lightningTimer].
  destruct (Rlt_dec 0 (lightningIntensity st)) as [Hon | Hoff].
  - cbn. destruct (Rlt_dec _ 0); cbn;
      (split; [reflexivity |]; split; [| lra]; intros _; split; [| reflexivity]).
    + rewrite Rmax_left; lra.
    + rewrite Rmax_right; lra.
  - cbn. split; [reflexivity |]. split; [lra |]. intros _. split; reflexivity.
Qed.

Lemma updateLightning_arrays (delta : R) (st : RainApp) :
  let st' := updateLightning delta st in
  positions st' = positions st /\ velocities st' = velocities st /\
  mouseWorldPos st' = mouseWorldPos st.
Proof.
  unfold Rain.updateLightning. cbv zeta.
  cbn [lightningTimer set_lightningTimer].
  destruct (Rle_dec _ 0).
  - unfold Rain.nextRandom.
    match goal with
    | |- context [Rain.triggerLightning _ ?s] =>
        destruct (triggerLightning_spec s) as (_ & _ & _ & Hp & Hv & Hm);
        generalize dependent (Rain.triggerLightning random s)
    end.
    cbn. intros st1 Hp Hv Hm.
    destruct (Rlt_dec 0 _); [destruct (Rlt_dec _ 0) |]; cbn; auto.
  - destruct (Rlt_dec 0 _); [destruct (Rlt_dec _ 0) |]; cbn; auto.
Qed.

(** *** [update] as a whole *)

Lemma update_lightning (delta : R) (st : RainApp) :
  sameScene (updateLightning delta st) (update delta st).
Proof. unfold Rain.update. apply loop_scene. Qed.

Lemma update_particle (delta : R) (st : RainApp) (i : nat) :
  sized st -> (i < PARTICLE_COUNT)%nat ->
  sized (update delta st) /\
  mouseWorldPos (update delta st) = mouseWorldPos st /\
  exists k,
    particleAt (update delta st) i
    = outcome random delta (mouseWorldPos st) k (particleAt st i).
Proof.
  intros Hsz Hi.
  destruct (updateLightning_arrays delta st) as (Hp & Hv & Hm).
  cbv zeta in Hp, Hv, Hm.
  assert (Hsz0 : sized (updateLightning delta st)).
  { destruct Hsz. split; congruence. }
  unfold Rain.update.
  destruct (loop_spec delta (seq 0 PARTICLE_COUNT) _ Hsz0 (NoDup_seq _ _))
    as (Hsz' & Hsc & Hpart).
  { intros j Hj. apply elem_of_seq in Hj. lia. }
  split; [exact Hsz' |]. destruct Hsc as [Hm' _].
  split; [congruence |].
  destruct (Hpart i) as [Hin _].
  destruct Hin as [k Hk]; [apply elem_of_seq; lia |].
  exists k. rewrite Hk, Hm. f_equal.
  unfold particleAt. rewrite Hp, Hv. reflexivity.
Qed.

End Loop.

(** ** Sample inputs *)

Lemma calmField_sized : sized calmField.
Proof. split; apply length_replicate. Qed.

Lemma PARTICLE_COUNT_pos : (0 < PARTICLE_COUNT)%nat.
Proof. rewrite PARTICLE_COUNT_eq. unfold PARTICLE_COUNT_def. lia. Qed.

Lemma half_range : forall k : nat, 0 <= half k < 1.
Proof. intros k. unfold half. lra. Qed.

Lemma dropAbove_reflects (delta : R) :
  0 <= delta -> reflects originMouse (gravity delta dropAbove).
Proof.
  intros Hd.
  assert (Hoff : Vec3.y (offset originMouse (gravity delta dropAbove)) = 2).
  { cbn. lra. }
  assert (Hs : 0 < sqrt (distSq originMouse (gravity delta dropAbove))).
  { apply dist_pos. rewrite Hoff. lra. }
  unfold reflects. rewrite Hoff. split; [| split; [lra |]].
  - unfold distSq, radiusSq, UMBRELLA_RADIUS. cbn. lra.
  - unfold inwardDot, normal. cbv zeta. cbn [Vec3.x Vec3.y Vec3.z]. rewrite Hoff.
    set (s := sqrt _) in *. cbn [gravity pvx pvy pvz offset Vec3.x Vec3.z px pz].
    unfold originMouse, dropAbove, GRAVITY. cbn [px pz pvy Vec3.x Vec3.z].
    assert (0 < 2 / s) by (apply Rdiv_lt_0_compat; lra).
    assert (Hz : (0 - 0) / s = 0) by (unfold Rdiv; ring). rewrite Hz.
    assert (0 <= 5 * delta) by lra.
    nra.
Qed.

(** ** The claims on the rain field *)

(** C1. Recycling invariant: after [update] returns, the y of every particle
    is at least [-RAIN_RANGE_Y / 2].  A particle whose integrated y is below
    that bound is replaced, in the same call, by one at [y = RAIN_RANGE_Y / 2]
    (x and z inside the rain range) with zero x and z velocity and a fresh
    y velocity [-(random * 5 + 5)], between -10 and -5; any other particle
    is stored as integrated. *)
Theorem recycling_invariant (random : nat -> R) (delta : R) (st : RainApp) (i : nat) :
  sized st -> (i < PARTICLE_COUNT)%nat -> (forall k, 0 <= random k < 1) ->
  let st' := Rain.update random delta st in
  let q := advance delta (mouseWorldPos st) (particleAt st i) in
  let p' := particleAt st' i in
  (exists y, positions st' !! (i * 3 + 1)%nat = Some y /\ - RAIN_RANGE_Y / 2 <= y) /\
  (py q < - RAIN_RANGE_Y / 2 ->
   py p' = RAIN_RANGE_Y / 2 /\ pvx p' = 0 /\ pvz p' = 0 /\
   (exists k, pvy p' = - (random k * 5 + 5)) /\ -10 < pvy p' <= -5 /\
   - RAIN_RANGE_X / 2 <= px p' < RAIN_RANGE_X / 2 /\
   - RAIN_RANGE_Z / 2 <= pz p' < RAIN_RANGE_Z / 2) /\
  (- RAIN_RANGE_Y / 2 <= py q -> p' = q).
Proof.
  intros Hsz Hi Hrand st' q p'.
  destruct (update_particle random delta st i Hsz Hi) as (Hsz' & _ & k & Hk).
  assert (Hy : positions st' !! (i * 3 + 1)%nat = Some (py p')).
  { apply list_lookup_lookup_total_lt. destruct Hsz' as [Hl _].
    unfold st'. rewrite Hl. lia. }
  assert (Hp' : p' = if Rlt_dec (py q) (- RAIN_RANGE_Y / 2)
                     then recycled random k else q) by exact Hk.
  clearbody p' q st'. clear Hk Hsz'.
  unfold RAIN_RANGE_X, RAIN_RANGE_Y, RAIN_RANGE_Z in *.
  split; [exists (py p'); split; [exact Hy |] |].
  - destruct (Rlt_dec (py q) _); subst p';
      [unfold recycled, RAIN_RANGE_Y; cbn [py] |]; lra.
  - destruct (Rlt_dec (py q) _) as [Hlow | Hok]; subst p'.
    + split; [| intros H; lra]. intros _.
      pose proof (Hrand k). pose proof (Hrand (S k)). pose proof (Hrand (S (S k))).
      unfold recycled, RAIN_RANGE_X, RAIN_RANGE_Y, RAIN_RANGE_Z.
      cbn [px py pz pvx pvy pvz].
      repeat split; try lra. exists (S (S k)). reflexivity.
    + split; [intros H; lra | reflexivity].
Qed.

Lemma recycling_invariant_witness :
  sized calmField /\ (0 < PARTICLE_COUNT)%nat /\ (forall k, 0 <= half k < 1) /\
  exists y,
    positions (Rain.update half (1 / 60) calmField) !! (0 * 3 + 1)%nat = Some y /\
    - RAIN_RANGE_Y / 2 <= y.
Proof.
  split; [exact calmField_sized |]. split; [exact PARTICLE_COUNT_pos |].
  split; [exact half_range |].
  exact (proj1 (recycling_invariant half (1 / 60) calmField 0
                  calmField_sized PARTICLE_COUNT_pos half_range)).
Defined.

(** C2. Non-penetration: when the reflection fires in a step (the particle,
    gravity applied, is inside the sphere, in the upper half and moving
    inward), the position after the push-out and the integration is at
    distance at least [UMBRELLA_RADIUS] from the pointer; unless the same
    step recycles the particle, that position is what [update] stores. *)
Theorem reflection_non_penetration (delta : R) (m : Vec3.t) (p0 : Particle) :
  0 <= delta ->
  reflects m (gravity delta p0) ->
  let q := advance delta m p0 in
  UMBRELLA_RADIUS <= sqrt (distSq m q) /\
  forall (random : nat -> R) (st : RainApp) (i : nat),
    sized st -> (i < PARTICLE_COUNT)%nat ->
    mouseWorldPos st = m -> particleAt st i = p0 ->
    - RAIN_RANGE_Y / 2 <= py q ->
    let st' := Rain.update random delta st in
    UMBRELLA_RADIUS <= sqrt (distSq (mouseWorldPos st') (particleAt st' i)).
Proof.
  intros Hdelta Hr q.
  assert (Hout : UMBRELLA_RADIUS <= sqrt (distSq m q)).
  { pose proof (advance_outside delta m p0 Hdelta Hr) as H. fold q in H.
    replace UMBRELLA_RADIUS with (sqrt radiusSq).
    - apply sqrt_le_1_alt. exact H.
    - unfold radiusSq. apply sqrt_square. unfold UMBRELLA_RADIUS. lra. }
  split; [exact Hout |].
  intros random st i Hsz Hi Hm Hp Hy st'.
  destruct (update_particle random delta st i Hsz Hi) as (_ & Hm' & k & Hk).
  unfold st'. rewrite Hm', Hk, Hm, Hp.
  unfold outcome. cbv zeta.
  change (advance delta m p0) with q.
  destruct (Rlt_dec (py q) (- RAIN_RANGE_Y / 2)); [lra | exact Hout].
Qed.

Lemma reflection_non_penetration_witness :
  0 <= 1 / 10 /\ reflects originMouse (gravity (1 / 10) dropAbove) /\
  UMBRELLA_RADIUS <= sqrt (distSq originMouse (advance (1 / 10) originMouse dropAbove)).
Proof.
  assert (H : 0 <= 1 / 10) by lra.
  split; [exact H |]. split; [exact (dropAbove_reflects (1 / 10) H) |].
  exact (proj1 (reflection_non_penetration (1 / 10) originMouse dropAbove H
                  (dropAbove_reflects (1 / 10) H))).
Defined.

(** C3. The collision block changes the velocity exactly when the particle
    is strictly inside the sphere, its offset has a positive y and its
    velocity times the outward normal is negative; the new velocity is then
    [v - 2 (v.n) n + BOUNCE_FORCE n]; in every other case the block leaves
    the particle, velocity and position, as it was. *)
Theorem collision_reflects_iff (m : Vec3.t) (p : Particle) :
  let n := normal m p in
  let dot := inwardDot m p in
  (velocity (collide m p) <> velocity p <-> reflects m p) /\
  (reflects m p ->
   velocity (collide m p) =
     Vec3.mk (pvx p - 2 * dot * Vec3.x n + Vec3.x n * BOUNCE_FORCE)
             (pvy p - 2 * dot * Vec3.y n + Vec3.y n * BOUNCE_FORCE)
             (pvz p - 2 * dot * Vec3.z n + Vec3.z n * BOUNCE_FORCE)) /\
  (~ reflects m p -> collide m p = p).
Proof.
  intros n dot.
  destruct (collide_cases m p) as [[Hr E] | [Hn E]].
  - assert (Hv : velocity (collide m p) =
       Vec3.mk (pvx p - 2 * dot * Vec3.x n + Vec3.x n * BOUNCE_FORCE)
               (pvy p - 2 * dot * Vec3.y n + Vec3.y n * BOUNCE_FORCE)
               (pvz p - 2 * dot * Vec3.z n + Vec3.z n * BOUNCE_FORCE)).
    { rewrite E. reflexivity. }
    split; [| split; [intros _; exact Hv | intros H; contradiction]].
    split; [intros _; exact Hr | intros _].
    destruct Hr as (_ & Hup & Hdot).
    apply (proj2 (normal_y_sign m p)) in Hup.
    change (0 < Vec3.y n) in Hup. change (dot < 0) in Hdot.
    rewrite Hv. clearbody n dot. clear Hv E.
    unfold velocity. intros Heq. apply (f_equal Vec3.y) in Heq.
    cbn [Vec3.y] in Heq. unfold BOUNCE_FORCE in Heq.
    assert (0 < (- 2 * dot + 5 / 10) * Vec3.y n) by (apply Rmult_lt_0_compat; lra).
    lra.
  - rewrite E. split; [| split; [intros H; contradiction | intros _; reflexivity]].
    split; [intros H; exfalso; apply H; reflexivity | intros H; contradiction].
Qed.

Lemma collision_reflects_iff_witness :
  reflects originMouse (gravity (1 / 10) dropAbove) /\
  velocity (collide originMouse (gravity (1 / 10) dropAbove))
  <> velocity (gravity (1 / 10) dropAbove).
Proof.
  assert (H : 0 <= 1 / 10) by lra.
  split; [exact (dropAbove_reflects (1 / 10) H) |].
  exact (proj2 (proj1 (collision_reflects_iff originMouse (gravity (1 / 10) dropAbove)))
           (dropAbove_reflects (1 / 10) H)).
Defined.

(** C4. A particle exactly on the sphere fails the strict test and is left
    as it is, and no normal is computed for it.  A particle exactly at the
    centre is left as it is too, but not through a guard: the test passes,
    the offset is divided by the distance [0], and the reflection is skipped
    because the test on the normal's y fails. *)
Theorem boundary_and_centre_untouched (m : Vec3.t) (p : Particle) :
  distSq m p = radiusSq \/ distSq m p = 0 ->
  collide m p = p /\
  match contact m p with
  | None => distSq m p = radiusSq
  | Some c => distSq m p = 0 /\ c_dist c = 0
  end.
Proof.
  intros [Hb | Hc].
  - unfold collide, contact.
    destruct (Rlt_dec (distSq m p) radiusSq) as [Hlt | _]; [lra |].
    split; [reflexivity | exact Hb].
  - split.
    + destruct (collide_cases m p) as [[(_ & Hup & _) _] | [_ E]]; [| exact E].
      rewrite (distSq_zero_offset m p Hc) in Hup. cbn in Hup. lra.
    + unfold contact.
      destruct (Rlt_dec (distSq m p) radiusSq) as [_ | Hge].
      * cbn [c_dist]. split; [exact Hc |]. rewrite Hc. apply sqrt_0.
      * exfalso. apply Hge. rewrite Hc. unfold radiusSq, UMBRELLA_RADIUS. lra.
Qed.

Lemma dropOnSphere_distSq : distSq originMouse dropOnSphere = radiusSq.
Proof. unfold distSq, radiusSq, UMBRELLA_RADIUS. cbn. lra. Qed.

Lemma dropAtCentre_distSq : distSq originMouse dropAtCentre = 0.
Proof. unfold distSq. cbn. lra. Qed.

Lemma boundary_and_centre_untouched_witness :
  (distSq originMouse dropOnSphere = radiusSq \/ distSq originMouse dropOnSphere = 0) /\
  collide originMouse dropOnSphere = dropOnSphere.
Proof.
  split; [left; exact dropOnSphere_distSq |].
  exact (proj1 (boundary_and_centre_untouched originMouse dropOnSphere
                  (or_introl dropOnSphere_distSq))).
Defined.

(** C4, as stated, fails at the centre of the umbrella: there the source
    does compute the normal, dividing by a distance of zero. *)
Lemma zero_distance_is_divided :
  distSq originMouse dropAtCentre = 0 /\
  exists c, contact originMouse dropAtCentre = Some c /\ c_dist c = 0.
Proof.
  split; [exact dropAtCentre_distSq |].
  unfold contact.
  destruct (Rlt_dec (distSq originMouse dropAtCentre) radiusSq) as [_ | Hge].
  - eexists. split; [reflexivity |]. cbn [c_dist].
    rewrite dropAtCentre_distSq. apply sqrt_0.
  - exfalso. apply Hge. rewrite dropAtCentre_distSq.
    unfold radiusSq, UMBRELLA_RADIUS. lra.
Qed.

(** ** Lightning over several frames *)


Lemma update_fire (random : nat -> R) (delta : R) (st : RainApp) :
  lightningTimer st - delta <= 0 ->
  let st' := Rain.update random delta st in
  lightningTimer st' = random (randomCalls st) * 5 + 2 /\
  lightningIntensity st' = Rmax 0 (1 - delta * 3) /\
  boltDrawCount st' = 21.
Proof.
  intros Hfire st'.
  destruct (update_lightning random delta st) as (_ & Ht & Hi & _ & Hc & _).
  destruct (updateLightning_fire random delta st Hfire) as (Ht' & Hi' & Hc').
  unfold st'. rewrite Ht, Hi, Hc. auto.
Qed.

Lemma update_idle (random : nat -> R) (delta : R) (st : RainApp) :
  0 < lightningTimer st - delta ->
  let st' := Rain.update random delta st in
  lightningTimer st' = lightningTimer st - delta /\
  (0 < lightningIntensity st ->
   lightningIntensity st' = Rmax 0 (lightningIntensity st - delta * 3) /\
   boltDrawCount st' = boltDrawCount st) /\
  (lightningIntensity st <= 0 ->
   lightningIntensity st' = lightningIntensity st /\ boltDrawCount st' = 0).
Proof.
  intros Hidle st'.
  destruct (update_lightning random delta st) as (_ & Ht & Hi & _ & Hc & _).
  destruct (updateLightning_idle random delta st Hidle) as (Ht' & Hon & Hoff).
  unfold st'. rewrite Ht, Hi, Hc. auto.
Qed.





Lemma run_cons (random : nat -> R) (d : R) (ds : list R) (st : RainApp) :
  Rain.run random (d :: ds) st = Rain.run random ds (Rain.update random d st).
Proof. reflexivity. Qed.

Lemma run_snoc (random : nat -> R) (ds : list R) (d : R) (st : RainApp) :
  Rain.run random (ds ++ [d]) st = Rain.update random d (Rain.run random ds st).
Proof.
  revert st. induction ds as [| a ds IH]; intros st.
  - reflexivity.
  - cbn [app]. rewrite !run_cons. apply IH.
Qed.










End RainFacts.

(** * Properties of the growth network *)

Module NetworkFacts.

Import Network NetworkSpec.

Lemma child_target_pos (g : nat) (b : Branch) (m : Mesh) :
  child g b m -> length b < targetLength b.
Proof.
  intros (_ & _ & Hl & Ht & _). rewrite Hl, Ht.
  pose proof (Rmax_r (BRANCH_LENGTH * (1 - INR g * (5 / 100))) (5 / 10)). lra.
Qed.

Lemma child_meshMatches (g : nat) (b : Branch) (m : Mesh) :
  child g b m -> meshMatches b m.
Proof.
  intros (_ & _ & _ & _ & _ & _ & Hg & Hc). split; [exact Hc | left; exact Hg].
Qed.

Lemma appended_refl (g : nat) (st : App) : appended g st st.
Proof.
  exists [], []. rewrite !app_nil_r. repeat split; auto.
Qed.

Lemma appended_trans (g : nat) (a b c : App) :
  appended g a b -> appended g b c -> appended g a c.
Proof.
  intros (bs1 & ms1 & Hb1 & Hm1 & Hc1 & He1 & Hl1 & Hn1)
         (bs2 & ms2 & Hb2 & Hm2 & Hc2 & He2 & Hl2 & Hn2).
  exists (bs1 ++ bs2), (ms1 ++ ms2).
  split; [rewrite Hb2, Hb1, app_assoc; reflexivity |].
  split; [rewrite Hm2, Hm1, app_assoc; reflexivity |].
  split; [apply Forall2_app; assumption |].
  split; [congruence |]. split; [congruence |].
  destruct Hn2 as [E2 | Hn2]; [| right; exact Hn2]. subst bs2.
  rewrite app_nil_r in Hb2.
  destruct Hn1 as [E1 | Hn1]; [subst bs1; left; reflexivity |].
  right. rewrite Hb2. exact Hn1.
Qed.

Section WithRandom.

Variable random : nat -> R.

#[local] Abbreviation nextRandom := (Network.nextRandom random).
#[local] Abbreviation spawnChildren := (Network.spawnChildren random).
#[local] Abbreviation branchOut := (Network.branchOut random).
#[local] Abbreviation updateBranch := (Network.updateBranch random).
#[local] Abbreviation updateBranches := (Network.updateBranches random).
#[local] Abbreviation update := (Network.update random).
#[local] Abbreviation create := (Network.create random).
#[local] Abbreviation reachable := (Network.reachable random).

Lemma appended_randomCalls (g n : nat) (st : App) :
  appended g st (set_randomCalls n st).
Proof.
  exists [], []. cbn. rewrite !app_nil_r. repeat split; auto.
Qed.

(** [createBranch] either returns at once, at the cap, or appends one
    branch and one mesh. *)
Lemma createBranch_cases (s d : Vec3.t) (g : nat) (st : App) :
  ((MAX_BRANCHES <= List.length (branches st))%nat /\ createBranch s d g st = st) \/
  ((List.length (branches st) < MAX_BRANCHES)%nat /\
   exists b m,
     child g b m /\ start b = s /\ direction b = Vec3.normalize d /\
     createBranch s d g st
     = set_branchLines (branchLines st ++ [m]) (set_branches (branches st ++ [b]) st)).
Proof.
  unfold createBranch.
  destruct (decide (MAX_BRANCHES <= List.length (branches st))%nat) as [Hcap | Hroom].
  - left. split; [exact Hcap | reflexivity].
  - right. split; [lia |]. eexists. eexists.
    split; [| split; [| split; [| reflexivity]]]; cbn; try reflexivity.
    repeat split.
Qed.

Lemma createBranch_appended (s d : Vec3.t) (g : nat) (st : App) :
  appended g st (createBranch s d g st).
Proof.
  destruct (createBranch_cases s d g st) as [[_ ->] | (Hlt & b & m & Hc & _ & _ & ->)].
  - apply appended_refl.
  - exists [b], [m]. cbn. repeat split; auto.
    right. rewrite length_app. cbn. lia.
Qed.

Lemma spawnChildren_appended (n : nat) (branch : Branch) :
  forall st : App, appended (S (generation branch)) st (spawnChildren n branch st).
Proof.
  induction n as [| n IH]; intros st; cbn [Network.spawnChildren].
  - apply appended_refl.
  - cbv zeta. unfold Network.nextRandom.
    eapply appended_trans; [| apply IH].
    eapply appended_trans; [| apply createBranch_appended].
    apply appended_randomCalls.
Qed.

(** [branchOut]: nothing is appended unless the generation is below the
    maximum and the random number drawn is at most [BRANCH_PROBABILITY]. *)
Lemma branchOut_appended (branch : Branch) (st : App) :
  appended (S (generation branch)) st (branchOut branch st) /\
  (branches (branchOut branch st) <> branches st ->
   (generation branch < MAX_GENERATION)%nat /\
   random (randomCalls st) <= BRANCH_PROBABILITY).
Proof.
  unfold Network.branchOut.
  destruct (decide (MAX_GENERATION <= generation branch)%nat) as [Hmax | Hlt].
  - split; [apply appended_refl | intros H; congruence].
  - unfold Network.nextRandom. cbn [randomCalls set_randomCalls].
    destruct (Rlt_dec BRANCH_PROBABILITY (random (randomCalls st))) as [Hfail | Hpass].
    + split; [apply appended_randomCalls | intros H; exfalso; apply H; reflexivity].
    + split.
      * eapply appended_trans; [| apply spawnChildren_appended].
        eapply appended_trans; apply appended_randomCalls.
      * intros _. split; [lia | lra].
Qed.

(** *** One branch in one frame *)

Lemma insert_as_alter {A : Type} (f : A -> A) (k : nat) (l : list A) :
  match l !! k with Some a => <[k := f a]> l | None => l end = alter f k l.
Proof.
  revert k. induction l as [| a l IH]; intros [| k]; cbn; try reflexivity.
  specialize (IH k). destruct (l !! k); cbn in *; f_equal; exact IH.
Qed.

Lemma mesh_pass (f : Mesh -> Mesh) (k : nat) (st : App) :
  match branchLines st !! k with
  | Some mesh => set_branchLines (<[k := f mesh]> (branchLines st)) st
  | None => st
  end = set_branchLines (alter f k (branchLines st)) st.
Proof.
  rewrite <- (insert_as_alter f k (branchLines st)).
  destruct (branchLines st !! k); [reflexivity |]. destruct st; reflexivity.
Qed.

Lemma updateBranch_spec (delta : R) (st : App) (k : nat) (b : Branch) :
  branches st !! k = Some b ->
  exists (bs : list Branch) (ms : list Mesh),
    branches (updateBranch delta st k) = <[k := grow delta b]> (branches st) ++ bs /\
    branchLines (updateBranch delta st k)
    = alter (remesh (elapsedTime st) delta b) k (branchLines st ++ ms) /\
    Forall2 (child (S (generation b))) bs ms /\
    elapsedTime (updateBranch delta st k) = elapsedTime st /\
    branchOutCalls (updateBranch delta st k)
    = (if spawns delta b then [k] else []) ++ branchOutCalls st /\
    (bs = [] \/
     (spawns delta b = true /\ (generation b < MAX_GENERATION)%nat /\
      (List.length (branches (updateBranch delta st k)) <= MAX_BRANCHES)%nat)).
Proof.
  intros Hb. pose proof (lookup_lt_Some _ _ _ Hb) as Hk.
  unfold Network.updateBranch, remesh, spawns, grow. rewrite Hb.
  destruct (isGrowing b) eqn:Hg.
  - cbv zeta. cbn [length targetLength set_length].
    destruct (Rle_dec (targetLength b) (length b + GROWTH_SPEED * delta)) as [Hdone | Hmore].
    + match goal with
      | |- context [Network.branchOut random ?bb ?ss] =>
          destruct (branchOut_appended bb ss) as [Happ Hwhy];
          set (st1 := Network.branchOut random bb ss) in *; clearbody st1
      end.
      destruct Happ as (bs & ms & Hbs & Hms & Hch & Het & Hcalls & Hcap).
      cbn in Hbs, Hms, Hch, Het, Hcalls, Hwhy.
      cbv beta iota. rewrite !mesh_pass.
      exists bs, ms. cbn. rewrite list_alter_alter_eq, Hbs, Hms, Het, Hcalls.
      split; [apply insert_app_l; exact Hk |].
      split; [reflexivity |]. split; [exact Hch |].
      split; [reflexivity |]. split; [reflexivity |].
      destruct bs as [| c bs]; [left; reflexivity | right].
      split; [reflexivity |]. split.
      * apply Hwhy. rewrite Hbs. intros E.
        apply (f_equal List.length) in E. rewrite length_app in E. cbn in E. lia.
      * destruct Hcap as [E | Hcap]; [discriminate |].
        rewrite length_insert, <- Hbs. exact Hcap.
    + cbv beta iota. rewrite !mesh_pass.
      exists [], []. cbn. rewrite list_alter_alter_eq, !app_nil_r.
      repeat split; auto.
  - cbv beta iota zeta. rewrite !mesh_pass.
    exists [], []. cbn. rewrite !app_nil_r. repeat split; auto.
Qed.

(** *** The pass over all branches *)

Lemma stepped_nil (delta : R) (st : App) : aligned st -> stepped delta [] st st.
Proof.
  intros Hal. split.
  - exact Hal.
  - reflexivity.
  - split; [lia | left; reflexivity].
  - intros i b Hb. rewrite decide_False by apply not_elem_of_nil. exact Hb.
  - intros i b m _ Hm. rewrite decide_False by apply not_elem_of_nil. exact Hm.
  - intros i b Hi Hb. apply lookup_lt_Some in Hb. lia.
  - intros i b _. rewrite decide_False by apply not_elem_of_nil. lia.
  - reflexivity.
Qed.

(** One call of the callback, at an index in range. *)
Lemma stepped_one (delta : R) (st : App) (k : nat) :
  aligned st -> (k < List.length (branches st))%nat ->
  stepped delta [k] st (updateBranch delta st k).
Proof.
  intros Hal Hk.
  destruct (lookup_lt_is_Some_2 _ _ Hk) as [bk Hbk].
  destruct (updateBranch_spec delta st k bk Hbk)
    as (bs & ms & Hbs & Hms & Hch & Het & Hcalls & Hcap).
  pose proof (Forall2_length _ _ _ Hch) as Hlen.
  unfold aligned in Hal.
  rewrite alter_app_l in Hms by lia.
  set (st' := updateBranch delta st k) in *. clearbody st'.
  split.
  - unfold aligned. rewrite Hbs, Hms, !length_app, length_alter, length_insert. lia.
  - exact Het.
  - rewrite Hbs, length_app, length_insert. split; [lia |].
    destruct Hcap as [-> | (_ & _ & Hcap)]; [left; cbn; lia | right].
    rewrite Hbs, length_app, length_insert in Hcap. exact Hcap.
  - intros i b Hb. pose proof (lookup_lt_Some _ _ _ Hb) as Hi.
    rewrite Hbs, lookup_app_l by (rewrite length_insert; lia).
    destruct (decide (i = k)) as [-> | Hne].
    + rewrite decide_True by (apply list_elem_of_singleton; reflexivity).
      rewrite list_lookup_insert_eq by lia. congruence.
    + rewrite decide_False by (rewrite list_elem_of_singleton; exact Hne).
      rewrite list_lookup_insert_ne by congruence. exact Hb.
  - intros i b m Hb Hm. pose proof (lookup_lt_Some _ _ _ Hm) as Hi.
    rewrite Hms, lookup_app_l by (rewrite length_alter; lia).
    destruct (decide (i = k)) as [-> | Hne].
    + rewrite decide_True by (apply list_elem_of_singleton; reflexivity).
      rewrite list_lookup_alter_eq, Hm. cbn. congruence.
    + rewrite decide_False by (rewrite list_elem_of_singleton; exact Hne).
      rewrite list_lookup_alter_ne by congruence. exact Hm.
  - intros i b Hi Hb.
    rewrite Hbs, lookup_app_r in Hb by (rewrite length_insert; lia).
    rewrite length_insert in Hb.
    destruct (Forall2_lookup_l _ _ _ _ _ Hch Hb) as (m & Hm & Hc).
    exists m, (S (generation bk)). split; [| split; [exact Hc |]].
    + rewrite Hms, lookup_app_r by (rewrite length_alter; lia).
      rewrite length_alter, Hal. exact Hm.
    + destruct Hcap as [-> | (_ & Hgen & _)]; [| exact Hgen].
      rewrite lookup_nil in Hb. discriminate.
  - intros i b Hb. unfold callsFor. rewrite Hcalls, count_occ_app.
    destruct (decide (i = k)) as [-> | Hne].
    + rewrite decide_True by (apply list_elem_of_singleton; reflexivity).
      assert (b = bk) as -> by congruence.
      destruct (spawns delta bk); cbn; [| lia].
      destruct (Nat.eq_dec k k); [lia | contradiction].
    + rewrite decide_False by (rewrite list_elem_of_singleton; exact Hne).
      destruct (spawns delta bk); cbn; [| lia].
      destruct (Nat.eq_dec k i); [congruence | lia].
  - intros i Hi. unfold callsFor. rewrite Hcalls, count_occ_app.
    destruct (spawns delta bk); cbn; [| lia].
    destruct (Nat.eq_dec k i); [lia | lia].
Qed.

Lemma stepped_cons (delta : R) (k : nat) (l : list nat) (st st1 st' : App) :
  k ∉ l -> (forall i, i ∈ l -> (i < List.length (branches st))%nat) ->
  stepped delta [k] st st1 -> stepped delta l st1 st' ->
  stepped delta (k :: l) st st'.
Proof.
  intros Hk Hl [A1 T1 [S1 S1'] B1 M1 N1 C1 D1] [A2 T2 [S2 S2'] B2 M2 N2 C2 D2].
  assert (Hfresh : forall i, (List.length (branches st) <= i)%nat -> i ∉ l).
  { intros i Hi Hin. apply Hl in Hin. lia. }
  split.
  - exact A2.
  - congruence.
  - split; [lia |]. destruct S2' as [E | ?]; [| right; assumption].
    destruct S1' as [E1 | ?]; [left; congruence | right; rewrite E; assumption].
  - intros i b Hb. specialize (B1 i b Hb).
    rewrite (B2 _ _ B1). f_equal. mem_cases.
  - intros i b m Hb Hm. specialize (B1 i b Hb). specialize (M1 i b m Hb Hm).
    rewrite (M2 _ _ _ B1 M1), T1. f_equal. mem_cases.
  - intros i b Hi Hb.
    destruct (decide (List.length (branches st1) <= i)%nat) as [Hge | Hlt].
    + apply N2; assumption.
    + destruct (lookup_lt_is_Some_2 (branches st1) i) as [b1 Hb1]; [lia |].
      pose proof (B2 _ _ Hb1) as Hb'.
      rewrite decide_False in Hb' by (apply Hfresh; exact Hi).
      assert (b1 = b) as -> by congruence.
      destruct (N1 i b Hi Hb1) as (m & g & Hm & Hc & Hg).
      exists m, g. split; [| split; assumption].
      rewrite (M2 _ _ _ Hb1 Hm).
      rewrite decide_False by (apply Hfresh; exact Hi). reflexivity.
  - intros i b Hb. specialize (B1 i b Hb). rewrite (C2 _ _ B1), (C1 _ _ Hb).
    mem_cases.
  - intros i Hi. rewrite <- (D1 i Hi).
    destruct (decide (List.length (branches st1) <= i)%nat) as [Hge | Hlt].
    + apply D2. exact Hge.
    + destruct (lookup_lt_is_Some_2 (branches st1) i) as [b1 Hb1]; [lia |].
      rewrite (C2 _ _ Hb1).
      rewrite decide_False by (apply Hfresh; exact Hi). lia.
Qed.

Lemma fold_stepped (delta : R) (l : list nat) :
  forall st : App,
    aligned st -> NoDup l ->
    (forall i, i ∈ l -> (i < List.length (branches st))%nat) ->
    stepped delta l st (fold_left (updateBranch delta) l st).
Proof.
  induction l as [| k l IH]; intros st Hal Hnd Hlt; cbn [fold_left].
  - apply stepped_nil. exact Hal.
  - apply NoDup_cons in Hnd as [Hk Hnd].
    assert (H1 : stepped delta [k] st (updateBranch delta st k)).
    { apply stepped_one; [exact Hal |]. apply Hlt. apply elem_of_cons. left. reflexivity. }
    apply (stepped_cons delta k l st (updateBranch delta st k)); try assumption.
    + intros i Hi. apply Hlt. apply elem_of_cons. right. exact Hi.
    + apply IH; [exact (stepped_aligned _ _ _ _ H1) | exact Hnd |].
      intros i Hi. pose proof (proj1 (stepped_size _ _ _ _ H1)).
      assert (i < List.length (branches st))%nat; [| lia].
      apply Hlt. apply elem_of_cons. right. exact Hi.
Qed.

(** *** [update] as a whole *)

Lemma update_framed (delta : R) (st : App) :
  aligned st -> framed delta st (update delta st).
Proof.
  intros Hal. unfold Network.update, Network.updateBranches.
  set (st0 := set_elapsedTime (elapsedTime st + delta) st).
  assert (Hal0 : aligned st0) by exact Hal.
  destruct (fold_stepped delta (seq 0 (List.length (branches st0))) st0 Hal0
              (NoDup_seq _ _)) as [A T S B M N C D].
  { intros i Hi. apply elem_of_seq in Hi. lia. }
  assert (Hin : forall i b, branches st !! i = Some b ->
                  i ∈ seq 0 (List.length (branches st0))).
  { intros i b Hb. apply lookup_lt_Some in Hb. apply elem_of_seq. cbn. lia. }
  split.
  - exact A.
  - exact T.
  - exact S.
  - intros i b Hb. rewrite (B i b Hb), decide_True by (eapply Hin; exact Hb). reflexivity.
  - intros i b m Hb Hm. rewrite (M i b m Hb Hm), decide_True by (eapply Hin; exact Hb).
    reflexivity.
  - exact N.
  - intros i b Hb. rewrite (C i b Hb), decide_True by (eapply Hin; exact Hb). reflexivity.
  - exact D.
Qed.

(** *** What [grow] keeps and what it changes *)

Lemma grow_kept (delta : R) (b : Branch) :
  start (grow delta b) = start b /\ direction (grow delta b) = direction b /\
  targetLength (grow delta b) = targetLength b /\
  generation (grow delta b) = generation b /\ color (grow delta b) = color b /\
  age (grow delta b) = age b + delta.
Proof.
  unfold grow. destruct (isGrowing b); [| repeat split].
  cbv zeta. cbn [length targetLength set_length].
  destruct (Rle_dec _ _); repeat split.
Qed.

Lemma grow_frozen (delta : R) (b : Branch) :
  isGrowing b = false -> grow delta b = set_age (age b + delta) b.
Proof. intros H. unfold grow. rewrite H. reflexivity. Qed.

Lemma grow_lengthOk (delta : R) (b : Branch) : lengthOk b -> lengthOk (grow delta b).
Proof.
  unfold lengthOk, grow. destruct (isGrowing b) eqn:Hg; [| cbn; rewrite Hg; auto].
  intros _. cbv zeta. cbn [length targetLength set_length].
  destruct (Rle_dec _ _); cbn; [reflexivity |]. rewrite Hg. lra.
Qed.

Lemma grow_spawns (delta : R) (b : Branch) :
  spawns delta b = (isGrowing b && negb (isGrowing (grow delta b)))%bool.
Proof.
  unfold spawns, grow. destruct (isGrowing b) eqn:Hg; [| reflexivity].
  cbv zeta. cbn [length targetLength set_length].
  destruct (Rle_dec _ _); cbn; [reflexivity |]. rewrite Hg. reflexivity.
Qed.


Lemma grow_frozen_stays (delta : R) (b : Branch) :
  isGrowing b = false -> isGrowing (grow delta b) = false.
Proof. intros H. rewrite grow_frozen by exact H. exact H. Qed.

Lemma remesh_matches (t delta : R) (b : Branch) (m : Mesh) :
  meshMatches b m -> meshMatches (grow delta b) (remesh t delta b m).
Proof.
  intros [Hc Hg]. destruct (grow_kept delta b) as (Hs & Hd & _ & _ & Hcol & _).
  unfold remesh. cbv zeta. destruct (isGrowing b) eqn:Hgr.
  - split; [cbn; congruence | right; reflexivity].
  - split; [cbn; congruence |]. rewrite grow_frozen by exact Hgr. exact Hg.
Qed.

(** *** The invariant of a running app *)

Lemma update_invariant (delta : R) (st : App) :
  invariant st -> invariant (update delta st).
Proof.
  intros [Hal Hcap Hbr Hout].
  destruct (update_framed delta st Hal) as [A T [S S'] B M N C D].
  split.
  - exact A.
  - destruct S' as [E | ?]; [rewrite E; exact Hcap | assumption].
  - intros i b' Hb'.
    destruct (decide (List.length (branches st) <= i)%nat) as [Hnew | Hold].
    + destruct (N i b' Hnew Hb') as (m & g & Hm & Hc & Hg).
      pose proof (child_target_pos g b' m Hc) as Hlt.
      pose proof (child_meshMatches g b' m Hc) as Hmm.
      destruct Hc as (Hgen & Hgr & _).
      split.
      * lia.
      * unfold lengthOk. rewrite Hgr. exact Hlt.
      * rewrite Hgr, (D i Hnew). apply Hout. exact Hnew.
      * exists m. split; assumption.
    + destruct (lookup_lt_is_Some_2 (branches st) i) as [b Hb]; [lia |].
      destruct (Hbr i b Hb) as [Hgen Hlen Hcalls (m & Hm & Hmm)].
      rewrite (B i b Hb) in Hb'. injection Hb' as <-.
      destruct (grow_kept delta b) as (_ & _ & _ & Hg & _).
      split.
      * rewrite Hg. exact Hgen.
      * apply grow_lengthOk. exact Hlen.
      * rewrite (C i b Hb), Hcalls, grow_spawns.
        destruct (isGrowing b) eqn:Hgr.
        -- destruct (isGrowing (grow delta b)); reflexivity.
        -- rewrite (grow_frozen_stays delta b Hgr). reflexivity.
      * exists (remesh (elapsedTime st + delta) delta b m).
        split; [apply (M i b m Hb Hm) | apply remesh_matches; exact Hmm].
  - intros i Hi. rewrite D by lia. apply Hout. lia.
Qed.

(** *** The constructor *)

Lemma seedBranches_appended (n : nat) :
  forall (i : nat) (num : Z) (p : Vec3.t) (st : App),
    appended 0 st (Network.seedBranches random n i num p st).
Proof.
  induction n as [| n IH]; intros i num p st; cbn [Network.seedBranches].
  - apply appended_refl.
  - cbv zeta. unfold Network.nextRandom.
    eapply appended_trans; [| apply IH].
    eapply appended_trans; [| apply createBranch_appended].
    apply appended_randomCalls.
Qed.

Lemma seedPoint_appended (st : App) (p : Vec3.t) :
  appended 0 st (Network.seedPoint random st p).
Proof.
  unfold Network.seedPoint, Network.nextRandom. cbv zeta.
  eapply appended_trans; [| apply seedBranches_appended].
  apply appended_randomCalls.
Qed.

Lemma seedPoints_appended (pts : list Vec3.t) :
  forall st : App, appended 0 st (fold_left (Network.seedPoint random) pts st).
Proof.
  induction pts as [| p pts IH]; intros st; cbn [fold_left].
  - apply appended_refl.
  - eapply appended_trans; [apply seedPoint_appended | apply IH].
Qed.

Lemma appended_from_empty (st : App) :
  appended 0 (mkApp [] [] 0 0 []) st -> invariant st.
Proof.
  intros (bs & ms & Hbs & Hms & Hch & _ & Hcalls & Hcap).
  cbn in Hbs, Hms, Hcalls.
  assert (Hzero : forall i, callsFor st i = 0%nat).
  { intros i. unfold callsFor. rewrite Hcalls. reflexivity. }
  split.
  - unfold aligned. rewrite Hbs, Hms. symmetry. eapply Forall2_length. exact Hch.
  - destruct Hcap as [-> | H]; [rewrite Hbs; cbn; lia | exact H].
  - intros i b Hb. rewrite Hbs in Hb.
    destruct (Forall2_lookup_l _ _ _ _ _ Hch Hb) as (m & Hm & Hc).
    pose proof (child_target_pos 0 b m Hc) as Hlt.
    pose proof (child_meshMatches 0 b m Hc) as Hmm.
    destruct Hc as (Hgen & Hgr & _).
    split.
    + rewrite Hgen. lia.
    + unfold lengthOk. rewrite Hgr. exact Hlt.
    + rewrite Hgr. apply Hzero.
    + exists m. rewrite Hms. split; assumption.
  - intros i _. apply Hzero.
Qed.

Lemma create_invariant : invariant create.
Proof. apply appended_from_empty. apply seedPoints_appended. Qed.

Lemma reachable_invariant (st : App) : reachable st -> invariant st.
Proof.
  induction 1 as [| delta st _ IH].
  - apply create_invariant.
  - apply update_invariant. exact IH.
Qed.

(** *** A sample run *)

Lemma appended_prefix (g : nat) (st st' : App) (i : nat) (b : Branch) :
  appended g st st' -> branches st !! i = Some b -> branches st' !! i = Some b.
Proof.
  intros (bs & _ & Hbs & _) Hb. rewrite Hbs. apply lookup_app_l_Some. exact Hb.
Qed.

Lemma floor_nonneg (r : R) : 0 <= r -> (0 <= floor r)%Z.
Proof.
  intros Hr. unfold floor. destruct (base_Int_part r) as [_ H].
  assert (IZR (-1) < IZR (Int_part r)) by lra.
  apply lt_IZR in H0. lia.
Qed.

(** The constructor creates at least one branch, whatever is drawn, as
    long as the first number drawn is not negative. *)
Lemma create_first : 0 <= random 0%nat -> exists b, branches create !! 0%nat = Some b.
Proof.
  intros Hr. unfold Network.create, startPoints.
  match goal with
  | |- context [fold_left ?f (?p :: ?pts) ?s] =>
      change (fold_left f (p :: pts) s) with (fold_left f pts (f s p));
      pose proof (seedPoints_appended pts (f s p)) as Hrest;
      assert (Hone : exists b, branches (f s p) !! 0%nat = Some b)
  end.
  - unfold Network.seedPoint, Network.nextRandom. cbv zeta. cbn [randomCalls].
    assert (Hf : (0 <= floor (random 0%nat * 4))%Z) by (apply floor_nonneg; lra).
    destruct (Z.to_nat (4 + floor (random 0%nat * 4))) as [| n] eqn:E; [lia |].
    cbn [Network.seedBranches]. cbv zeta. unfold Network.nextRandom.
    match goal with
    | |- context [Network.seedBranches random n ?i ?num ?p (createBranch ?s ?d ?g ?st0)] =>
        pose proof (seedBranches_appended n i num p (createBranch s d g st0)) as Happ;
        destruct (createBranch_cases s d g st0) as [[Hcap _] | (_ & b & m & _ & _ & _ & Hcb)]
    end.
    + cbn in Hcap. unfold MAX_BRANCHES in Hcap. lia.
    + exists b. eapply appended_prefix; [exact Happ |]. rewrite Hcb. reflexivity.
  - destruct Hone as [b Hb]. exists b. eapply appended_prefix; eassumption.
Qed.


End WithRandom.

Lemma half_first : 0 <= half 0%nat.
Proof. unfold half. lra. Qed.

(** ** The claims on the growth network *)




(** C7. Generations: no branch of a running app has a generation above
    [MAX_GENERATION = 25].  [branchOut] appends branches (each with its mesh)
    only if the parent's generation is below the maximum and the number
    drawn is at most [BRANCH_PROBABILITY = 0.95], and every branch it appends
    has the parent's generation plus one. *)
Theorem generation_bounded (random : nat -> R) (st : App) :
  reachable random st ->
  (forall i b, branches st !! i = Some b -> (generation b <= MAX_GENERATION)%nat) /\
  MAX_GENERATION = 25%nat /\ BRANCH_PROBABILITY = 95 / 100 /\
  forall (branch : Branch) (s : App),
    exists (bs : list Branch) (ms : list Mesh),
      branches (branchOut random branch s) = branches s ++ bs /\
      branchLines (branchOut random branch s) = branchLines s ++ ms /\
      List.length ms = List.length bs /\
      Forall (fun c => generation c = S (generation branch)) bs /\
      (bs <> [] ->
       (generation branch < MAX_GENERATION)%nat /\
       random (randomCalls s) <= BRANCH_PROBABILITY).
Proof.
  intros Hreach. pose proof (reachable_invariant random st Hreach) as Hinv.
  split; [intros i b Hb; apply (ok_generation _ _ _ (inv_branch _ Hinv i b Hb)) |].
  split; [reflexivity |]. split; [reflexivity |].
  intros branch s.
  destruct (branchOut_appended random branch s) as [(bs & ms & Hbs & Hms & Hch & _) Hwhy].
  exists bs, ms. split; [exact Hbs |]. split; [exact Hms |].
  split; [symmetry; eapply Forall2_length; exact Hch |].
  split.
  - clear Hbs Hms. induction Hch as [| c m bs ms Hc _ IH]; constructor; [| exact IH].
    destruct Hc as [Hg _]. exact Hg.
  - intros Hne. apply Hwhy. rewrite Hbs. intros E.
    apply (f_equal List.length) in E. rewrite length_app in E.
    destruct bs; [contradiction | cbn in E; lia].
Qed.

Lemma generation_bounded_witness :
  exists b,
    branches (create half) !! 0%nat = Some b /\ (generation b <= MAX_GENERATION)%nat.
Proof.
  destruct (create_first half half_first) as [b Hb].
  exists b. split; [exact Hb |].
  exact (proj1 (generation_bounded half (create half) (reachable_create half)) 0%nat b Hb).
Defined.

(** C8. Population cap: a running app never has more than
    [MAX_BRANCHES = 3000] branches.  In any state, [createBranch] called at
    the cap returns the state as it is, and called below the cap does not
    exceed it. *)
Theorem population_capped (random : nat -> R) (st : App) :
  reachable random st ->
  (List.length (branches st) <= MAX_BRANCHES)%nat /\ MAX_BRANCHES = 3000%nat /\
  forall (s d : Vec3.t) (g : nat) (st' : App),
    ((MAX_BRANCHES <= List.length (branches st'))%nat -> createBranch s d g st' = st') /\
    ((List.length (branches st') <= MAX_BRANCHES)%nat ->
     (List.length (branches (createBranch s d g st')) <= MAX_BRANCHES)%nat).
Proof.
  intros Hreach. pose proof (reachable_invariant random st Hreach) as Hinv.
  split; [exact (inv_cap _ Hinv) |]. split; [reflexivity |].
  intros s d g st'.
  destruct (createBranch_cases s d g st') as [[Hcap E] | (Hlt & b & m & _ & _ & _ & E)].
  - split; [intros _; exact E | intros H; rewrite E; exact H].
  - split; [intros H; lia |]. intros _. rewrite E. cbn. rewrite length_app. cbn. lia.
Qed.

Lemma population_capped_witness :
  (List.length (branches (create half)) <= MAX_BRANCHES)%nat.
Proof.
  exact (proj1 (population_capped half (create half) (reachable_create half))).
Defined.

Lemma frozen_step (random : nat -> R) (delta : R) (st : App) (i : nat)
    (b : Branch) (m : Mesh) :
  aligned st -> branches st !! i = Some b -> branchLines st !! i = Some m ->
  isGrowing b = false ->
  aligned (update random delta st) /\
  branches (update random delta st) !! i = Some (set_age (age b + delta) b) /\
  branchLines (update random delta st) !! i
  = Some (set_opacity
            (7 / 10 + sin ((elapsedTime st + delta) * 3 + (age b + delta)) * (3 / 10)) m).
Proof.
  intros Hal Hb Hm Hfrozen.
  destruct (update_framed random delta st Hal) as [A _ _ B M _ _ _].
  split; [exact A |].
  rewrite (B i b Hb), (M i b m Hb Hm). unfold remesh. cbv zeta.
  rewrite (grow_frozen delta b Hfrozen), Hfrozen. split; reflexivity.
Qed.

(** C9. Frozen branches: once a branch has stopped growing, any number of
    frames leaves it in the list at its index with the same start, end,
    direction, length, target length, generation and colour, still not
    growing, its age increased by the time elapsed; its mesh keeps its
    geometry and colour.  In one frame the branch changes in its age only
    and the mesh in its opacity only, which becomes
    [0.7 + sin (elapsedTime * 3 + age) * 0.3]. *)
Theorem frozen_branch_unchanged (random : nat -> R) (ds : list R) (st : App)
    (i : nat) (b : Branch) (m : Mesh) :
  aligned st -> branches st !! i = Some b -> branchLines st !! i = Some m ->
  isGrowing b = false ->
  (exists b' m',
     branches (run random ds st) !! i = Some b' /\
     branchLines (run random ds st) !! i = Some m' /\
     start b' = start b /\ end_ b' = end_ b /\ direction b' = direction b /\
     length b' = length b /\ targetLength b' = targetLength b /\
     generation b' = generation b /\ color b' = color b /\
     isGrowing b' = false /\ age b' = age b + totalTime ds /\
     geometry m' = geometry m /\ m_color (material m') = m_color (material m)) /\
  (forall delta,
     branches (update random delta st) !! i = Some (set_age (age b + delta) b) /\
     branchLines (update random delta st) !! i
     = Some (set_opacity
               (7 / 10 + sin ((elapsedTime st + delta) * 3 + (age b + delta)) * (3 / 10))
               m)).
Proof.
  intros Hal Hb Hm Hfrozen. split.
  - revert st b m Hal Hb Hm Hfrozen.
    induction ds as [| d ds IH]; intros st b m Hal Hb Hm Hfrozen.
    + exists b, m. unfold totalTime. cbn [run fold_right].
      repeat split; try assumption; try reflexivity. lra.
    + destruct (frozen_step random d st i b m Hal Hb Hm Hfrozen) as (Hal1 & Hb1 & Hm1).
      destruct (IH _ _ _ Hal1 Hb1 Hm1 Hfrozen)
        as (b' & m' & Hb' & Hm' & E1 & E2 & E3 & E4 & E5 & E6 & E7 & E8 & E9 & G1 & G2).
      exists b', m'. unfold totalTime in *. cbn [run fold_right].
      cbn [age set_age] in E9.
      repeat split; try assumption. lra.
  - intros delta.
    destruct (frozen_step random delta st i b m Hal Hb Hm Hfrozen) as (_ & H1 & H2).
    split; assumption.
Qed.

Lemma frozen_branch_unchanged_witness :
  exists b' m',
    branches (run half [1 / 60; 1 / 60] frozenApp) !! 0%nat = Some b' /\
    branchLines (run half [1 / 60; 1 / 60] frozenApp) !! 0%nat = Some m' /\
    length b' = 6 /\ isGrowing b' = false.
Proof.
  destruct (proj1 (frozen_branch_unchanged half [1 / 60; 1 / 60] frozenApp 0
                     frozenBranch frozenMesh eq_refl eq_refl eq_refl eq_refl))
    as (b' & m' & Hb & Hm & _ & _ & _ & Hl & _ & _ & _ & Hg & _).
  exists b', m'. split; [exact Hb |]. split; [exact Hm |].
  split; [exact Hl | exact Hg].
Defined.

(** C10. Index alignment: a running app has as many meshes as branches, and
    the mesh at each index shows the branch at that index (its colour, and
    its first tube or the tube rebuilt from its current end).  In any state
    [createBranch] changes nothing if the list holds [MAX_BRANCHES] branches
    or more; below the cap it appends exactly one branch, with the start
    and generation given, and exactly one mesh, which shows that branch,
    and changes nothing else.  The mesh a frame rebuilds at the index of a
    growing branch gets the tube of that branch. *)
Theorem meshes_aligned (random : nat -> R) (st : App) :
  reachable random st ->
  List.length (branchLines st) = List.length (branches st) /\
  (forall i b, branches st !! i = Some b ->
     exists m, branchLines st !! i = Some m /\ meshMatches b m) /\
  (forall (s d : Vec3.t) (g : nat) (st' : App),
     ((MAX_BRANCHES <= List.length (branches st'))%nat ->
      createBranch s d g st' = st') /\
     ((List.length (branches st') < MAX_BRANCHES)%nat ->
      exists b m,
        branches (createBranch s d g st') = branches st' ++ [b] /\
        branchLines (createBranch s d g st') = branchLines st' ++ [m] /\
        meshMatches b m /\ start b = s /\ generation b = g /\
        elapsedTime (createBranch s d g st') = elapsedTime st' /\
        randomCalls (createBranch s d g st') = randomCalls st')) /\
  (forall delta i b,
     branches st !! i = Some b -> isGrowing b = true ->
     exists b' m',
       branches (update random delta st) !! i = Some b' /\
       branchLines (update random delta st) !! i = Some m' /\
       geometry m' = grownTube b' /\ m_color (material m') = color b').
Proof.
  intros Hreach. pose proof (reachable_invariant random st Hreach) as Hinv.
  split; [exact (inv_aligned _ Hinv) |].
  split; [intros i b Hb; exact (ok_mesh _ _ _ (inv_branch _ Hinv i b Hb)) |].
  split.
  - intros s d g st'.
    destruct (createBranch_cases s d g st')
      as [[Hcap E] | (Hroom & b & m & Hc & Hs & _ & E)].
    + split; [intros _; exact E | intros H; lia].
    + split; [intros H; lia | intros _].
      exists b, m. rewrite E. cbn.
      split; [reflexivity |]. split; [reflexivity |].
      split; [exact (child_meshMatches g b m Hc) |]. split; [exact Hs |].
      destruct Hc as (Hg & _). split; [exact Hg |]. split; reflexivity.
  - intros delta i b Hb Hg.
    destruct (update_framed random delta st (inv_aligned _ Hinv)) as [_ _ _ B M _ _ _].
    destruct (ok_mesh _ _ _ (inv_branch _ Hinv i b Hb)) as (m & Hm & Hc & _).
    exists (grow delta b), (remesh (elapsedTime st + delta) delta b m).
    split; [exact (B i b Hb) |]. split; [exact (M i b m Hb Hm) |].
    destruct (grow_kept delta b) as (_ & _ & _ & _ & Hcol & _).
    unfold remesh. cbv zeta. rewrite Hg. cbn. split; [reflexivity | congruence].
Qed.

Lemma meshes_aligned_witness :
  exists b m,
    branches (create half) !! 0%nat = Some b /\
    branchLines (create half) !! 0%nat = Some m /\ meshMatches b m.
Proof.
  destruct (create_first half half_first) as [b Hb].
  destruct (proj1 (proj2 (meshes_aligned half (create half) (reachable_create half)))
              0%nat b Hb) as (m & Hm & Hmatch).
  exists b, m. split; [exact Hb |]. split; [exact Hm | exact Hmatch].
Defined.

End NetworkFacts.

(** * Properties of the dodge game *)

Module DodgeFacts.

Import Dodge DodgeSpec.

(** ** The enemy loop *)

Lemma enemyStep_game (delta : R) (i : nat) (st : DodgeApp) :
  sameGame st (enemyStep delta i st).
Proof.
  unfold enemyStep. destruct (enemies st !! i); [| repeat split].
  cbv zeta. cbn [player set_enemies].
  destruct (Rlt_dec _ 1); destruct (Rlt_dec _ 0); repeat split.
Qed.

Lemma sameGame_trans (a b c : DodgeApp) :
  sameGame a b -> sameGame b c -> sameGame a c.
Proof. unfold sameGame. intuition congruence. Qed.

Lemma enemyLoop_game (n : nat) (delta : R) :
  forall st : DodgeApp, sameGame st (enemyLoop n delta st).
Proof.
  induction n as [| i IH]; intros st; cbn [enemyLoop].
  - repeat split.
  - eapply sameGame_trans; [apply enemyStep_game | apply IH].
Qed.

Lemma delete_at_length {A : Type} (l1 l2 : list A) (x : A) (i : nat) :
  List.length l1 = i -> delete i (l1 ++ x :: l2) = l1 ++ l2.
Proof. intros <-. apply delete_middle. Qed.

Lemma insert_at_length {A : Type} (l1 l2 : list A) (x y : A) (i : nat) :
  List.length l1 = i -> <[i := y]> (l1 ++ x :: l2) = l1 ++ y :: l2.
Proof. intros <-. apply insert_app_r_alt_middle || (rewrite insert_app_r_alt by lia; rewrite Nat.sub_diag; reflexivity). Qed.

(** One pass of the body, at an index in range. *)
Lemma enemyStep_spec (delta : R) (i : nat) (st : DodgeApp) (e : Enemy) :
  enemies st !! i = Some e ->
  let e' := fallen delta e in
  let st' := enemyStep delta i st in
  enemies st'
  = take i (enemies st) ++ filter (fun x => ~ landed x) [e'] ++ drop (S i) (enemies st) /\
  score st' = score st + 10 * INR (List.length (filter landed [e'])) /\
  isPlaying st' = (isPlaying st && bool_decide (~ hits (player st) e'))%bool.
Proof.
  intros He e' st'. pose proof (lookup_lt_Some _ _ _ He) as Hi.
  unfold st', enemyStep. rewrite He. cbv zeta. fold e'.
  cbn [player set_enemies enemies].
  assert (Hins : <[i := e']> (enemies st) = take i (enemies st) ++ e' :: drop (S i) (enemies st)).
  { rewrite <- (take_drop_middle _ _ _ He) at 1.
    apply insert_at_length. rewrite length_take. lia. }
  assert (Hdel : delete i (<[i := e']> (enemies st)) = take i (enemies st) ++ drop (S i) (enemies st)).
  { rewrite Hins. apply delete_at_length. rewrite length_take. lia. }
  rewrite !filter_cons, !filter_nil.
  unfold landed, hits.
  destruct (Rlt_dec (distanceTo (position e') (player st)) 1) as [Hhit | Hmiss];
    destruct (Rlt_dec (Vec3.y (position e')) 0) as [Hland | Hkeep];
    cbn [enemies score isPlaying set_enemies set_score set_isPlaying gameOver].
  all: rewrite ?Hdel, ?Hins.
  all: repeat case_decide; try tauto.
  all: rewrite ?bool_decide_true, ?bool_decide_false by tauto.
  all: rewrite ?andb_true_r, ?andb_false_r; cbn [List.length app INR].
  all: split; [reflexivity | split; [lra || reflexivity | reflexivity]].
Qed.

(** The loop from index [n - 1] down to [0]. *)
Lemma enemyLoop_spec (n : nat) (delta : R) :
  forall st : DodgeApp,
    (n <= List.length (enemies st))%nat ->
    let F := fallen delta <$> take n (enemies st) in
    let st' := enemyLoop n delta st in
    enemies st' = filter (fun x => ~ landed x) F ++ drop n (enemies st) /\
    score st' = score st + 10 * INR (List.length (filter landed F)) /\
    isPlaying st'
    = (isPlaying st && bool_decide (Forall (fun x => ~ hits (player st) x) F))%bool.
Proof.
  induction n as [| i IH]; intros st Hn F st'.
  - unfold F, st'. rewrite take_0, drop_0. cbn [enemyLoop].
    rewrite fmap_nil, !filter_nil. cbn [app List.length INR].
    rewrite bool_decide_true, andb_true_r by constructor.
    split; [reflexivity |]. split; [lra | reflexivity].
  - destruct (lookup_lt_is_Some_2 (enemies st) i) as [e He]; [lia |].
    destruct (enemyStep_spec delta i st e He) as (HE & HS & HP).
    cbv zeta in HE, HS, HP.
    destruct (enemyStep_game delta i st) as (Hpl & _).
    set (st1 := enemyStep delta i st) in *.
    assert (Hlen : List.length (take i (enemies st)) = i) by (rewrite length_take; lia).
    destruct (IH st1) as (HE' & HS' & HP').
    { rewrite HE, length_app, Hlen. lia. }
    cbv zeta in HE', HS', HP'.
    assert (Htake : take i (enemies st1) = take i (enemies st)).
    { rewrite HE. rewrite take_app_length' by (symmetry; exact Hlen). reflexivity. }
    assert (Hdrop : drop i (enemies st1)
                    = filter (fun x => ~ landed x) [fallen delta e] ++ drop (S i) (enemies st)).
    { rewrite HE. rewrite drop_app_length' by (symmetry; exact Hlen). reflexivity. }
    assert (HF : F = (fallen delta <$> take i (enemies st)) ++ [fallen delta e]).
    { unfold F. rewrite (take_S_r _ _ _ He), fmap_app. reflexivity. }
    change (enemyLoop (S i) delta st) with (enemyLoop i delta st1) in st'.
    unfold st'. rewrite HE', HS', HP', Htake, Hdrop, HS, HP, Hpl, HF.
    rewrite !filter_app, !length_app, plus_INR, <- !app_assoc.
    split; [reflexivity |]. split; [lra |].
    rewrite <- andb_assoc. f_equal.
    rewrite andb_comm, <- bool_decide_and. apply bool_decide_ext.
    rewrite Forall_app, Forall_singleton. tauto.
Qed.

(** ** The blocks of [update] *)

Lemma spawning_spec (random : nat -> R) (delta : R) (st : DodgeApp) :
  let st' := spawning random delta st in
  timeElapsed st' = timeElapsed st + delta /\ score st' = score st /\
  isPlaying st' = isPlaying st /\ player st' = player st /\ keys st' = keys st /\
  ((spawnDue delta st /\
    enemies st' = enemies st ++ [spawnedEnemy random (randomCalls st) (score st)] /\
    lastSpawnTime st' = timeElapsed st + delta /\
    spawnRate st' = Rmax (1 / 10) (5 / 10 - score st * (5 / 1000)) /\
    randomCalls st' = (randomCalls st + 5)%nat) \/
   (~ spawnDue delta st /\ enemies st' = enemies st /\
    lastSpawnTime st' = lastSpawnTime st /\ spawnRate st' = spawnRate st /\
    randomCalls st' = randomCalls st)).
Proof.
  unfold spawning, spawnDue. cbv zeta.
  cbn [spawnRate timeElapsed lastSpawnTime set_timeElapsed].
  destruct (Rlt_dec _ _) as [Hdue | Hnot].
  - unfold spawnEnemy, nextRandom, spawnedEnemy.
    cbn [timeElapsed score isPlaying player keys enemies lastSpawnTime spawnRate
         randomCalls set_timeElapsed set_randomCalls set_enemies set_lastSpawnTime
         set_spawnRate].
    do 5 (split; [reflexivity |]). left.
    split; [exact Hdue |]. do 3 (split; [reflexivity |]). lia.
  - do 5 (split; [reflexivity |]). right.
    split; [exact Hnot |]. repeat split.
Qed.

Lemma movePlayer_rest (delta : R) (st : DodgeApp) :
  let st' := movePlayer delta st in
  isPlaying st' = isPlaying st /\ score st' = score st /\
  timeElapsed st' = timeElapsed st /\ spawnRate st' = spawnRate st /\
  lastSpawnTime st' = lastSpawnTime st /\ enemies st' = enemies st /\
  keys st' = keys st /\ randomCalls st' = randomCalls st.
Proof.
  unfold movePlayer. cbv zeta. destruct (Rlt_dec _ _); repeat split.
Qed.

(** [update] for a game that is running, block by block. *)
Lemma update_playing (random : nat -> R) (delta : R) (st : DodgeApp) :
  isPlaying st = true ->
  let st0 := spawning random delta (movePlayer delta st) in
  let F := fallen delta <$> enemies st0 in
  let st' := update random delta st in
  sameGame st0 st' /\
  enemies st' = filter (fun x => ~ landed x) F /\
  score st' = score st + 10 * INR (List.length (filter landed F)) /\
  isPlaying st' = bool_decide (Forall (fun x => ~ hits (player st0) x) F).
Proof.
  intros Hplay st0 F st'. unfold st', update. rewrite Hplay. cbn [negb]. cbv zeta.
  fold st0.
  destruct (enemyLoop_spec (List.length (enemies st0)) delta st0 (le_n _))
    as (HE & HS & HP).
  cbv zeta in HE, HS, HP. rewrite firstn_all in HE, HS, HP.
  rewrite drop_all, app_nil_r in HE.
  destruct (spawning_spec random delta (movePlayer delta st)) as (_ & Hs & Hp & _).
  destruct (movePlayer_rest delta st) as (Hp0 & Hs0 & _).
  cbv zeta in Hs, Hp, Hp0, Hs0. fold st0 in Hs, Hp.
  split; [apply enemyLoop_game |]. split; [exact HE |].
  split; [rewrite HS, Hs, Hs0; reflexivity |].
  rewrite HP, Hp, Hp0, Hplay. reflexivity.
Qed.

(** ** The player *)

Lemma normalize_unit (v : Vec3.t) :
  0 < Vec3.length v ->
  let n := Vec3.normalize v in
  Vec3.x n * Vec3.x n + Vec3.y n * Vec3.y n + Vec3.z n * Vec3.z n = 1.
Proof.
  intros Hpos. unfold Vec3.normalize.
  destruct (Req_dec_T (Vec3.length v) 0) as [E | _]; [lra |].
  cbv zeta. cbn [Vec3.x Vec3.y Vec3.z].
  assert (Hs : Vec3.length v * Vec3.length v
               = Vec3.x v * Vec3.x v + Vec3.y v * Vec3.y v + Vec3.z v * Vec3.z v).
  { unfold Vec3.length. apply sqrt_sqrt. apply RainFacts.sq3_nonneg. }
  set (s := Vec3.length v) in *.
  transitivity
    ((Vec3.x v * Vec3.x v + Vec3.y v * Vec3.y v + Vec3.z v * Vec3.z v) / (s * s)).
  - field. lra.
  - rewrite <- Hs. field. lra.
Qed.

Lemma moveVector_flat (st : DodgeApp) : Vec3.y (moveVector st) = 0.
Proof.
  unfold moveVector. cbv zeta.
  destruct (pressed "ArrowUp" st || pressed "KeyW" st)%bool;
    destruct (pressed "ArrowDown" st || pressed "KeyS" st)%bool;
    destruct (pressed "ArrowLeft" st || pressed "KeyA" st)%bool;
    destruct (pressed "ArrowRight" st || pressed "KeyD" st)%bool; reflexivity.
Qed.

Lemma clamp_range (v l : R) : 0 <= l -> - l <= clamp v (- l) l <= l.
Proof.
  intros Hl. unfold clamp, Rmax, Rmin.
  destruct (Rle_dec l v); destruct (Rle_dec _ _); lra.
Qed.

Lemma sq_le (u v : R) : 0 <= u <= v -> u * u <= v * v.
Proof. intros [H0 H1]. apply Rmult_le_compat; lra. Qed.

Lemma clamp_step (x a l : R) :
  - l <= x <= l -> (clamp (x + a) (- l) l - x) * (clamp (x + a) (- l) l - x) <= a * a.
Proof.
  intros Hx. unfold clamp, Rmax, Rmin.
  destruct (Rle_dec l (x + a)); destruct (Rle_dec _ _).
  - apply sq_le. lra.
  - replace ((- l - x) * (- l - x)) with ((x + l) * (x + l)) by ring.
    replace (a * a) with ((- a) * (- a)) by ring. apply sq_le. lra.
  - replace ((x + a - x) * (x + a - x)) with (a * a) by ring. lra.
  - replace ((- l - x) * (- l - x)) with ((x + l) * (x + l)) by ring.
    replace (a * a) with ((- a) * (- a)) by ring. apply sq_le. lra.
Qed.

Lemma movePlayer_spec (delta : R) (st : DodgeApp) :
  0 <= delta -> inField (player st) ->
  let p := player st in
  let p' := player (movePlayer delta st) in
  inField p' /\ Vec3.y p' = Vec3.y p /\
  (Vec3.x p' - Vec3.x p) * (Vec3.x p' - Vec3.x p)
  + (Vec3.z p' - Vec3.z p) * (Vec3.z p' - Vec3.z p)
  <= (PLAYER_SPEED * delta) * (PLAYER_SPEED * delta).
Proof.
  intros Hd [Hx Hz] p p'. unfold p', movePlayer. cbv zeta.
  destruct (Rlt_dec 0 (Vec3.length (moveVector st))) as [Hmove | Hstill].
  - pose proof (normalize_unit _ Hmove) as Hn. cbv zeta in Hn.
    assert (Hy : Vec3.y (Vec3.normalize (moveVector st)) = 0).
    { unfold Vec3.normalize. destruct (Req_dec_T _ 0); cbn [Vec3.y];
        rewrite moveVector_flat; [reflexivity | unfold Rdiv; ring]. }
    rewrite Hy in Hn.
    set (n := Vec3.normalize (moveVector st)) in *.
    set (s := PLAYER_SPEED * delta).
    cbn [player set_player Vec3.x Vec3.y Vec3.z Vec3.add Vec3.multiplyScalar].
    fold p. unfold FIELD_SIZE in *.
    assert (Hl : 0 <= 20 / 2) by lra.
    split; [split; apply clamp_range; exact Hl |].
    split; [rewrite Hy; ring |].
    pose proof (clamp_step (Vec3.x p) (Vec3.x n * s) (20 / 2) Hx) as H1.
    pose proof (clamp_step (Vec3.z p) (Vec3.z n * s) (20 / 2) Hz) as H2.
    assert (Vec3.x n * s * (Vec3.x n * s) + Vec3.z n * s * (Vec3.z n * s) = s * s).
    { transitivity (s * s * (Vec3.x n * Vec3.x n + 0 * 0 + Vec3.z n * Vec3.z n)).
      - ring.
      - rewrite Hn. ring. }
    lra.
  - fold p. split; [split; assumption |]. split; [reflexivity |].
    replace ((Vec3.x p - Vec3.x p) * (Vec3.x p - Vec3.x p)
             + (Vec3.z p - Vec3.z p) * (Vec3.z p - Vec3.z p)) with 0 by ring.
    apply Rle_0_sqr.
Qed.

(** ** A frame as a whole *)

Lemma update_frame (random : nat -> R) (delta : R) (st : DodgeApp) :
  isPlaying st = true ->
  let F := tested random delta st in
  let st' := update random delta st in
  player st' = player (movePlayer delta st) /\
  timeElapsed st' = timeElapsed st + delta /\
  enemies st' = filter (fun x => ~ landed x) F /\
  score st' = score st + 10 * INR (List.length (filter landed F)) /\
  isPlaying st' = bool_decide (Forall (fun x => ~ hits (player st') x) F) /\
  ((spawnDue delta st /\ lastSpawnTime st' = timeElapsed st + delta /\
    spawnRate st' = Rmax (1 / 10) (5 / 10 - score st * (5 / 1000))) \/
   (~ spawnDue delta st /\ lastSpawnTime st' = lastSpawnTime st /\
    spawnRate st' = spawnRate st)).
Proof.
  intros Hplay F st'.
  destruct (update_playing random delta st Hplay) as (Hg & HE & HS & HP).
  cbv zeta in Hg, HE, HS, HP. fold st' in Hg, HE, HS, HP.
  destruct Hg as (Hpl & Hte & Hsr & Hls & _).
  destruct (spawning_spec random delta (movePlayer delta st))
    as (Ht & _ & _ & Hp & _ & Hcase).
  cbv zeta in Ht, Hp, Hcase.
  destruct (movePlayer_rest delta st) as (_ & Hs0 & Ht0 & Hr0 & Hl0 & He0 & _ & Hc0).
  cbv zeta in Hs0, Ht0, Hr0, Hl0, He0, Hc0.
  set (st0 := spawning random delta (movePlayer delta st)) in *.
  assert (HF : fallen delta <$> enemies st0 = F).
  { unfold F, tested, spawnedNow. f_equal.
    unfold spawnDue in Hcase. rewrite Ht0, Hr0, Hl0, He0, Hs0, Hc0 in Hcase.
    destruct Hcase as [(Hdue & -> & _) | (Hnot & -> & _)];
      destruct (Rlt_dec _ _); try contradiction; try reflexivity.
    rewrite app_nil_r. reflexivity. }
  rewrite HF in HE, HS, HP.
  split; [congruence |]. split; [congruence |]. split; [exact HE |].
  split; [exact HS |]. split; [rewrite HP, Hpl; reflexivity |].
  unfold spawnDue in *. rewrite Ht0, Hr0, Hl0, Hs0 in Hcase.
  destruct Hcase as [(Hdue & _ & Hl & Hr & _) | (Hnot & _ & Hl & Hr & _)].
  - left. split; [exact Hdue |]. split; congruence.
  - right. split; [exact Hnot |]. split; congruence.
Qed.

Lemma fallen_ok (delta : R) (e : Enemy) :
  0 <= delta -> enemyOk e -> enemyOk (fallen delta e).
Proof.
  intros Hd (Hf & Hy & Hs & Hrx & Hry). unfold enemyOk, fallen, inField in *.
  cbn [position fallSpeed rotSpeedX rotSpeedY Vec3.x Vec3.y Vec3.z].
  repeat split; try tauto; try lra.
  assert (0 <= fallSpeed e * delta) by (apply Rmult_le_pos; lra). lra.
Qed.

Lemma spawnedEnemy_ok (random : nat -> R) (k : nat) (s : R) :
  (forall j, 0 <= random j < 1) -> 0 <= s -> enemyOk (spawnedEnemy random k s).
Proof.
  intros Hr Hs. unfold enemyOk, spawnedEnemy, inField, FIELD_SIZE.
  cbn [position fallSpeed rotSpeedX rotSpeedY Vec3.x Vec3.y Vec3.z].
  pose proof (Hr k). pose proof (Hr (S k)). pose proof (Hr (S (S k))).
  pose proof (Hr (S (S (S k)))). pose proof (Hr (S (S (S (S k))))).
  repeat split; lra.
Qed.

Lemma update_ok (random : nat -> R) (delta : R) (st : DodgeApp) :
  (forall j, 0 <= random j < 1) -> 0 <= delta ->
  gameOk st -> gameOk (update random delta st).
Proof.
  intros Hr Hd Hok.
  destruct (isPlaying st) eqn:Hplay; [| unfold update; rewrite Hplay; exact Hok].
  destruct Hok as ((k & Hk) & Hrate & Hlast & Hfield & Hy & Hen & Hup).
  destruct (update_frame random delta st Hplay) as (Hp & Ht & HE & HS & _ & Hcase).
  cbv zeta in Hp, Ht, HE, HS, Hcase.
  destruct (movePlayer_spec delta st Hd Hfield) as (Hf' & Hy' & _).
  cbv zeta in Hf', Hy'.
  assert (Hscore : 0 <= score st) by (rewrite Hk; pose proof (pos_INR k); lra).
  assert (HF : Forall enemyOk (tested random delta st)).
  { unfold tested. apply Forall_fmap. apply Forall_app. split.
    - eapply Forall_impl; [exact Hen |]. intros e He. apply fallen_ok; assumption.
    - unfold spawnedNow. destruct (Rlt_dec _ _); constructor; [| constructor].
      apply fallen_ok; [exact Hd |]. apply spawnedEnemy_ok; assumption. }
  set (st' := update random delta st) in *.
  split.
  { exists (k + List.length (filter landed (tested random delta st)))%nat.
    rewrite HS, Hk, plus_INR. ring. }
  split.
  { destruct Hcase as [(_ & _ & ->) | (_ & _ & ->)]; [| exact Hrate].
    split; [apply Rmax_l |]. apply Rmax_lub; lra. }
  split.
  { rewrite Ht. destruct Hcase as [(_ & -> & _) | (_ & -> & _)]; lra. }
  split; [rewrite Hp; exact Hf' |]. split; [rewrite Hp, Hy'; exact Hy |].
  rewrite HE. split.
  - apply Forall_forall. intros e He. apply list_elem_of_filter in He as [_ He].
    revert e He. apply Forall_forall. exact HF.
  - apply Forall_forall. intros e He. apply list_elem_of_filter in He as [He _].
    exact He.
Qed.

Lemma reachable_ok (random : nat -> R) (st : DodgeApp) :
  (forall j, 0 <= random j < 1) -> reachable random st -> gameOk st.
Proof.
  intros Hr. induction 1 as [| d st Hd _ IH | code st _ IH | code st _ IH | st _ IH].
  - unfold gameOk, create, inField, FIELD_SIZE. cbn.
    split; [exists 0%nat; cbn; lra |]. repeat split; try lra; constructor.
  - apply update_ok; [exact Hr | | exact IH].
    unfold Rmin. destruct (Rle_dec _ _); lra.
  - exact IH.
  - exact IH.
  - destruct IH as (_ & Hrate & _). unfold gameOk, restart, inField, FIELD_SIZE. cbn.
    split; [exists 0%nat; cbn; lra |]. repeat split; try lra; constructor.
Qed.

Lemma tenth_nonneg : 0 <= 1 / 10.
Proof. lra. Qed.

Lemma oneEnemy_inField : inField (player oneEnemy).
Proof. unfold inField, FIELD_SIZE. cbn. lra. Qed.

(** ** The properties of the dodge game *)



(** X2. A frame ends a running game exactly when one of the enemies, after
    its fall, is closer than 1 to the player (at the player's position
    after the move of this frame); enemies that are removed in the frame
    count too. *)
Theorem game_over_iff_enemy_hits (random : nat -> R) (delta : R) (st : DodgeApp) :
  isPlaying st = true ->
  let st' := update random delta st in
  isPlaying st' = false <-> Exists (hits (player st')) (tested random delta st).
Proof.
  intros Hplay st'.
  destruct (update_frame random delta st Hplay) as (_ & _ & _ & _ & HP & _).
  cbv zeta in HP. fold st' in HP. rewrite HP, bool_decide_eq_false. split.
  - intros Hn. apply not_Forall_Exists in Hn; [| intros x; apply _].
    eapply Exists_impl; [exact Hn |]. intros e He. cbn in He.
    destruct (decide (hits (player st') e)); tauto.
  - intros Hex Hall. apply Exists_exists in Hex as (e & Hin & Hhit).
    rewrite Forall_forall in Hall. exact (Hall e Hin Hhit).
Qed.

Lemma game_over_iff_enemy_hits_witness :
  isPlaying oneEnemy = true /\
  (isPlaying (update half (1 / 10) oneEnemy) = false <->
   Exists (hits (player (update half (1 / 10) oneEnemy))) (tested half (1 / 10) oneEnemy)).
Proof.
  split; [reflexivity |].
  exact (game_over_iff_enemy_hits half (1 / 10) oneEnemy eq_refl).
Defined.

(** X3. Once the game is over, frames and key events change nothing but the
    keys held: the game stays over, and score, enemies, player and clocks
    stay as they are.  Only [restart] resumes it. *)
Theorem game_over_is_final (random : nat -> R) (evs : list Event) (st : DodgeApp) :
  isPlaying st = false ->
  let st' := play random evs st in
  isPlaying st' = false /\ score st' = score st /\ enemies st' = enemies st /\
  player st' = player st /\ timeElapsed st' = timeElapsed st /\
  spawnRate st' = spawnRate st /\ lastSpawnTime st' = lastSpawnTime st.
Proof.
  revert st. induction evs as [| ev evs IH]; intros st Hover; [repeat split; assumption |].
  unfold play. cbn [fold_left]. fold (play random evs (handle random st ev)).
  assert (Hstep : isPlaying (handle random st ev) = false /\
                  score (handle random st ev) = score st /\
                  enemies (handle random st ev) = enemies st /\
                  player (handle random st ev) = player st /\
                  timeElapsed (handle random st ev) = timeElapsed st /\
                  spawnRate (handle random st ev) = spawnRate st /\
                  lastSpawnTime (handle random st ev) = lastSpawnTime st).
  { destruct ev as [d | code | code]; cbn [handle].
    - unfold animate, update. rewrite Hover. cbn [negb]. repeat split; assumption.
    - repeat split; assumption.
    - repeat split; assumption. }
  destruct Hstep as (H1 & H2 & H3 & H4 & H5 & H6 & H7).
  destruct (IH _ H1) as (G1 & G2 & G3 & G4 & G5 & G6 & G7).
  cbv zeta in G1, G2, G3, G4, G5, G6, G7.
  repeat split; congruence.
Qed.

Lemma game_over_is_final_witness :
  isPlaying lostGame = false /\
  score (play half [Frame (1 / 60); KeyDown "KeyA"; Frame (1 / 60)] lostGame)
  = score lostGame.
Proof.
  split; [reflexivity |].
  exact (proj1 (proj2 (game_over_is_final half
           [Frame (1 / 60); KeyDown "KeyA"; Frame (1 / 60)] lostGame eq_refl))).
Defined.

(** X4. Whatever keys are held, a frame of [delta >= 0] seconds moves a
    player that is in the field by at most [PLAYER_SPEED * delta] (diagonal
    movement is not faster), leaves it in the field and does not change its
    height. *)
Theorem player_speed_and_field (random : nat -> R) (delta : R) (st : DodgeApp) :
  0 <= delta -> inField (player st) ->
  let p := player st in
  let p' := player (update random delta st) in
  inField p' /\ Vec3.y p' = Vec3.y p /\
  (Vec3.x p' - Vec3.x p) * (Vec3.x p' - Vec3.x p)
  + (Vec3.z p' - Vec3.z p) * (Vec3.z p' - Vec3.z p)
  <= (PLAYER_SPEED * delta) * (PLAYER_SPEED * delta).
Proof.
  intros Hd Hf p p'.
  destruct (isPlaying st) eqn:Hplay.
  - destruct (update_frame random delta st Hplay) as (Hp & _).
    unfold p'. rewrite Hp. apply movePlayer_spec; assumption.
  - unfold p', update. rewrite Hplay. cbn [negb]. fold p.
    split; [exact Hf |]. split; [reflexivity |].
    replace ((Vec3.x p - Vec3.x p) * (Vec3.x p - Vec3.x p)
             + (Vec3.z p - Vec3.z p) * (Vec3.z p - Vec3.z p)) with 0 by ring.
    apply Rle_0_sqr.
Qed.

Lemma player_speed_and_field_witness :
  0 <= 1 / 10 /\ inField (player oneEnemy) /\
  inField (player (update half (1 / 10) (keydown "KeyW" oneEnemy))).
Proof.
  split; [exact tenth_nonneg |]. split; [exact oneEnemy_inField |].
  exact (proj1 (player_speed_and_field half (1 / 10) (keydown "KeyW" oneEnemy)
                  tenth_nonneg oneEnemy_inField)).
Defined.

(** X5. In every state of a running game (frames, key events and restarts
    after the constructor) the score is ten times a natural number, the
    spawn interval lies between 0.1 and 0.5 seconds, and the time of the
    last spawn is not in the future. *)
Theorem score_and_pace_invariant (random : nat -> R) (st : DodgeApp) :
  (forall j, 0 <= random j < 1) -> reachable random st ->
  (exists k : nat, score st = 10 * INR k) /\
  (1 / 10 <= spawnRate st <= 5 / 10) /\
  (0 <= lastSpawnTime st <= timeElapsed st).
Proof.
  intros Hr Hreach. destruct (reachable_ok random st Hr Hreach) as (H1 & H2 & H3 & _).
  split; [exact H1 |]. split; [exact H2 | exact H3].
Qed.

Lemma score_and_pace_invariant_witness :
  exists k : nat, score (animate half (1 / 60) (keydown "KeyD" create)) = 10 * INR k.
Proof.
  assert (H : 0 <= 1 / 60) by lra.
  exact (proj1 (score_and_pace_invariant half _ RainFacts.half_range
                  (reachable_animate half _ _ H
                     (reachable_keydown half "KeyD" _ (reachable_create half))))).
Defined.

(** X6. In every state of a running game the player is in the field at
    height 1, and every enemy in the list is over the field, at a height
    between 0 and 20, falls at 5 units per second or faster, and turns about
    each of its two axes at a rate in [[0, 2)]. *)
Theorem positions_invariant (random : nat -> R) (st : DodgeApp) :
  (forall j, 0 <= random j < 1) -> reachable random st ->
  inField (player st) /\ Vec3.y (player st) = 1 /\
  Forall (fun e => inField (position e) /\ 0 <= Vec3.y (position e) <= 20 /\
                   5 <= fallSpeed e /\
                   0 <= rotSpeedX e < 2 /\ 0 <= rotSpeedY e < 2) (enemies st).
Proof.
  intros Hr Hreach.
  destruct (reachable_ok random st Hr Hreach) as (_ & _ & _ & Hf & Hy & Hok & Hup).
  split; [exact Hf |]. split; [exact Hy |].
  apply Forall_forall. intros e He.
  rewrite Forall_forall in Hok, Hup.
  destruct (Hok e He) as (H1 & H2 & H3 & H4 & H5). specialize (Hup e He).
  unfold landed in Hup.
  split; [exact H1 |]. split; [lra |]. split; [exact H3 |].
  split; [exact H4 | exact H5].
Qed.

Lemma positions_invariant_witness :
  inField (player (animate half (1 / 60) (keydown "KeyD" create))).
Proof.
  assert (H : 0 <= 1 / 60) by lra.
  exact (proj1 (positions_invariant half _ RainFacts.half_range
                  (reachable_animate half _ _ H
                     (reachable_keydown half "KeyD" _ (reachable_create half))))).
Defined.

(** X7. The restart button resets score, clocks, enemies and the player, but
    neither the spawn interval nor the keys held: the first enemy of the
    new game comes once the frame time exceeds the interval the lost game
    ended with, and only that spawn sets the interval back to 0.5. *)
Theorem restart_keeps_pace (random : nat -> R) (delta : R) (st : DodgeApp) :
  isPlaying (restart st) = true /\ score (restart st) = 0 /\
  timeElapsed (restart st) = 0 /\ lastSpawnTime (restart st) = 0 /\
  enemies (restart st) = [] /\ player (restart st) = Vec3.mk 0 1 0 /\
  spawnRate (restart st) = spawnRate st /\ keys (restart st) = keys st /\
  (spawnRate st < delta ->
   spawnRate (update random delta (restart st)) = 5 / 10 /\
   lastSpawnTime (update random delta (restart st)) = delta) /\
  (delta <= spawnRate st ->
   spawnRate (update random delta (restart st)) = spawnRate st /\
   enemies (update random delta (restart st)) = []).
Proof.
  do 8 (split; [reflexivity |]).
  destruct (update_frame random delta (restart st) eq_refl)
    as (_ & _ & HE & _ & _ & Hcase).
  cbv zeta in HE, Hcase. unfold spawnDue in Hcase.
  cbn [spawnRate timeElapsed lastSpawnTime score restart set_enemies set_isPlaying
       set_score set_timeElapsed set_lastSpawnTime set_player] in Hcase.
  split.
  - intros Hdue. destruct Hcase as [(_ & Hl & Hr) | (Hnot & _)]; [| lra].
    rewrite Hr, Hl. split; [rewrite Rmax_right; lra | lra].
  - intros Hnot. destruct Hcase as [(Hdue & _) | (_ & _ & Hr)]; [lra |].
    split; [exact Hr |]. rewrite HE. unfold tested, spawnedNow.
    cbn [spawnRate timeElapsed lastSpawnTime enemies restart set_enemies set_isPlaying
         set_score set_timeElapsed set_lastSpawnTime set_player].
    destruct (Rlt_dec _ _) as [Hdue | _]; [lra | reflexivity].
Qed.

End DodgeFacts.

(** * More on the rain field *)

Module RainMoreFacts.

Import Rain RainSpec RainSetup RainMoreSpec.

(** ** The constructor *)

Section Setup.

Variable random : nat -> R.

Lemma resetParticle_initial (i : nat) (st : RainApp) :
  sized st -> (i < PARTICLE_COUNT)%nat ->
  let st' := resetParticle random i true st in
  sized st' /\ sameScene st st' /\
  randomCalls st' = (randomCalls st + 4)%nat /\
  particleAt st' i = seeded random (randomCalls st) /\
  forall j, j <> i -> particleAt st' j = particleAt st j.
Proof.
  intros [Hp Hv] Hi st'. unfold st', resetParticle, nextRandom. cbv zeta.
  split; [split; cbn; rewrite !length_insert; assumption |].
  split; [repeat split |].
  split; [cbn; lia |].
  split.
  - unfold particleAt, seeded. cbn. arr. reflexivity.
  - intros j Hj. unfold particleAt. cbn. arr. reflexivity.
Qed.

Lemma setup_loop (l : list nat) :
  forall st : RainApp,
    sized st -> NoDup l -> (forall i, i ∈ l -> (i < PARTICLE_COUNT)%nat) ->
    let st' := fold_left (fun st i => resetParticle random i true st) l st in
    sized st' /\ sameScene st st' /\
    randomCalls st' = (randomCalls st + 4 * List.length l)%nat /\
    forall i,
      (i ∈ l -> exists k, particleAt st' i = seeded random k) /\
      (i ∉ l -> particleAt st' i = particleAt st i).
Proof.
  induction l as [| a l IH]; intros st Hsz Hnd Hlt; cbn [fold_left].
  - split; [assumption |]. split; [apply RainFacts.sameScene_refl |].
    split; [cbn; lia |]. intros i. split; [intros H; inversion H | reflexivity].
  - apply NoDup_cons in Hnd as [Ha Hnd].
    destruct (resetParticle_initial a st Hsz) as (Hsz1 & Hsc1 & Hc1 & Hself & Hother).
    { apply Hlt. left. }
    cbv zeta in Hsz1, Hsc1, Hc1, Hself, Hother.
    destruct (IH (resetParticle random a true st) Hsz1 Hnd) as (Hsz' & Hsc & Hc & Hpart).
    { intros i Hi. apply Hlt. right. exact Hi. }
    cbv zeta in Hsz', Hsc, Hc, Hpart.
    split; [exact Hsz' |].
    split; [exact (RainFacts.sameScene_trans _ _ _ Hsc1 Hsc) |].
    split; [rewrite Hc, Hc1; cbn [List.length]; lia |].
    intros i. destruct (Hpart i) as [Hin Hout]. split.
    + intros Hi. apply elem_of_cons in Hi as [-> | Hi]; [| exact (Hin Hi)].
      exists (randomCalls st). rewrite (Hout Ha). exact Hself.
    + intros Hi. apply not_elem_of_cons in Hi as [Hne Hi].
      rewrite (Hout Hi). apply Hother. exact Hne.
Qed.

Lemma seeded_inVolume (k : nat) :
  (forall j, 0 <= random j < 1) ->
  inVolume (seeded random k) /\ fallsStraight (seeded random k) /\
  -10 < pvy (seeded random k).
Proof.
  intros Hr. pose proof (Hr k). pose proof (Hr (S k)). pose proof (Hr (S (S k))).
  pose proof (Hr (S (S (S k)))).
  unfold inVolume, fallsStraight, seeded, RAIN_RANGE_X, RAIN_RANGE_Y, RAIN_RANGE_Z.
  cbn [px py pz pvx pvy pvz]. repeat split; lra.
Qed.

Lemma create_particles :
  let st := create random in
  sized st /\ mouseWorldPos st = Vec3.mk 9999 9999 0 /\
  lightningTimer st = random 0%nat * 3 + 1 /\ lightningIntensity st = 0 /\
  boltPositions st = replicate 150 0 /\ boltDrawCount st = 0 /\ boltOpacity st = 0 /\
  randomCalls st = (1 + 4 * PARTICLE_COUNT)%nat /\
  forall i, (i < PARTICLE_COUNT)%nat -> exists k, particleAt st i = seeded random k.
Proof.
  unfold create, setupParticles. cbv zeta.
  match goal with
  | |- context [fold_left _ _ ?s] =>
      destruct (setup_loop (seq 0 PARTICLE_COUNT) s) as (Hsz & Hsc & Hc & Hpart)
  end.
  - split; cbn; apply length_replicate.
  - apply NoDup_seq.
  - intros i Hi. apply elem_of_seq in Hi. lia.
  - cbv zeta in Hsz, Hsc, Hc, Hpart.
    destruct Hsc as (Hm & Ht & Hi & Hb & Hd & Ho).
    split; [exact Hsz |]. split; [exact Hm |]. split; [exact Ht |].
    split; [exact Hi |]. split; [exact Hb |]. split; [exact Hd |].
    split; [exact Ho |]. split; [rewrite Hc, length_seq; reflexivity |].
    intros i Hi'. apply (proj1 (Hpart i)). apply elem_of_seq. lia.
Qed.

End Setup.

(** ** The bolt *)

Section Bolt.

Variable random : nat -> R.

Hypothesis random_unit : forall k, 0 <= random k < 1.

Lemma copyPoints_lookup (pts : list R) :
  forall (k : nat) (arr : list R) (i : nat),
    (k + List.length pts <= List.length arr)%nat ->
    copyPoints k pts arr !! i
    = if decide (k <= i < k + List.length pts)%nat then pts !! (i - k)%nat else arr !! i.
Proof.
  induction pts as [| v rest IH]; intros k arr i Hlen; cbn [copyPoints List.length].
  - rewrite decide_False by lia. reflexivity.
  - cbn [List.length] in Hlen. rewrite IH by (rewrite length_insert; lia).
    destruct (decide (i = k)) as [-> | Hne].
    + rewrite decide_False by lia. rewrite decide_True by lia.
      rewrite list_lookup_insert_eq by lia. rewrite Nat.sub_diag. reflexivity.
    + rewrite list_lookup_insert_ne by congruence.
      destruct (decide (S k <= i < S k + List.length rest)%nat) as [Hin | Hout].
      * rewrite decide_True by lia.
        replace (i - k)%nat with (S (i - S k)) by lia. reflexivity.
      * rewrite decide_False by lia. reflexivity.
Qed.

Lemma copyPoints_length (pts : list R) :
  forall (k : nat) (arr : list R),
    List.length (copyPoints k pts arr) = List.length arr.
Proof.
  induction pts as [| v rest IH]; intros k arr; cbn [copyPoints]; [reflexivity |].
  rewrite IH, length_insert. reflexivity.
Qed.

(** The new x of a segment stays within 5 of the start x. *)
Lemma drift_bounded (startX currentX r : R) :
  0 <= r < 1 -> Rabs (currentX - startX) <= 5 ->
  let x1 := currentX + (r - 5 / 10) * 2 in
  let x2 := if Rlt_dec 5 (Rabs (x1 - startX))
            then x1 + (startX - x1) * (5 / 10) else x1 in
  Rabs (x2 - startX) <= 5.
Proof.
  intros Hr Hc x1 x2. unfold x2.
  destruct (Rlt_dec 5 (Rabs (x1 - startX))) as [Hfar | Hnear]; [| lra].
  unfold x1 in *. revert Hc Hfar. unfold Rabs.
  repeat destruct (Rcase_abs _); intros; lra.
Qed.

Lemma boltSegments_shape (n : nat) :
  forall (startX currentX currentY : R) (pts : list R) (st : RainApp),
    Rabs (currentX - startX) <= 5 ->
    let res := boltSegments random n startX currentX currentY pts st in
    boltOpacity (snd res) = boltOpacity st /\
    boltPositions (snd res) = boltPositions st /\
    boltDrawCount (snd res) = boltDrawCount st /\
    randomCalls (snd res) = (randomCalls st + n)%nat /\
    exists seg,
      fst res = pts ++ seg /\ List.length seg = (3 * n)%nat /\
      forall j, (j < n)%nat ->
        exists x,
          seg !! (3 * j)%nat = Some x /\ Rabs (x - startX) <= 5 /\
          seg !! (3 * j + 1)%nat = Some (currentY - 3 / 2 * INR (S j)) /\
          seg !! (3 * j + 2)%nat = Some 0.
Proof.
  induction n as [| n IH]; intros startX currentX currentY pts st Hc.
  - cbn. repeat split; try lia. exists []. rewrite app_nil_r.
    repeat split. intros j Hj. lia.
  - cbn [boltSegments]. cbv zeta. unfold nextRandom.
    pose proof (drift_bounded startX currentX (random (randomCalls st))
                  (random_unit _) Hc) as Hc'.
    cbv zeta in Hc'.
    match goal with
    | |- context [boltSegments _ n ?a ?b ?c ?d ?e] =>
        destruct (IH a b c d e Hc') as (Ho & Hb & Hd & Hr & seg & Hseg & Hlen & Hpts)
    end.
    cbv zeta in Ho, Hb, Hd, Hr, Hseg. rewrite Ho, Hb, Hd, Hr, Hseg.
    cbn [boltOpacity boltPositions boltDrawCount randomCalls set_randomCalls].
    split; [reflexivity |]. split; [reflexivity |]. split; [reflexivity |].
    split; [lia |].
    eexists (_ :: _ :: _ :: seg). split; [rewrite <- app_assoc; reflexivity |].
    split; [cbn [List.length]; lia |].
    intros [| j] Hj.
    + eexists. cbn [Nat.mul Nat.add lookup list_lookup].
      split; [reflexivity |]. split; [exact Hc' |].
      split; [| reflexivity]. f_equal. cbn [INR]. lra.
    + destruct (Hpts j) as (x & Hx & Hbx & Hy & Hz); [lia |].
      exists x.
      replace (3 * S j)%nat with (S (S (S (3 * j)))) by lia.
      replace (S (S (S (3 * j))) + 1)%nat with (S (S (S (3 * j + 1)))) by lia.
      replace (S (S (S (3 * j))) + 2)%nat with (S (S (S (3 * j + 2)))) by lia.
      change (seg !! (3 * j)%nat = Some x /\ Rabs (x - startX) <= 5 /\
              seg !! (3 * j + 1)%nat = Some (currentY - 3 / 2 * INR (S (S j))) /\
              seg !! (3 * j + 2)%nat = Some 0).
      split; [exact Hx |]. split; [exact Hbx |].
      split; [| exact Hz]. rewrite Hy. f_equal.
      rewrite (S_INR (S j)). lra.
Qed.

Lemma triggerLightning_shape (st : RainApp) :
  (63 <= List.length (boltPositions st))%nat ->
  let st' := triggerLightning random st in
  let startX := (random (randomCalls st) - 5 / 10) * 20 in
  boltOpacity st' = boltOpacity st /\
  List.length (boltPositions st') = List.length (boltPositions st) /\
  randomCalls st' = (randomCalls st + 21)%nat /\
  boltPositions st' !! 0%nat = Some startX /\
  (forall j, (j < 21)%nat ->
     exists x,
       boltPositions st' !! (3 * j)%nat = Some x /\ Rabs (x - startX) <= 5 /\
       boltPositions st' !! (3 * j + 1)%nat = Some (15 - 3 / 2 * INR j) /\
       boltPositions st' !! (3 * j + 2)%nat = Some 0) /\
  (forall i, (63 <= i)%nat -> boltPositions st' !! i = boltPositions st !! i).
Proof.
  intros Hlen st' startX. unfold st', triggerLightning. cbv zeta. unfold nextRandom.
  fold startX.
  assert (H0 : Rabs (startX - startX) <= 5).
  { replace (startX - startX) with 0 by ring. rewrite Rabs_R0. lra. }
  match goal with
  | |- context [boltSegments _ ?n ?a ?b ?c ?d ?e] =>
      pose proof (boltSegments_shape n a b c d e H0) as H;
      destruct (boltSegments random n a b c d e) as [pts st1]
  end.
  cbv zeta in H. cbn [fst snd] in H.
  destruct H as (Ho & Hb & Hd & Hr & seg & Hpts & Hseg & Hshape).
  cbn [boltOpacity boltPositions randomCalls set_boltPositions set_boltDrawCount
       set_randomCalls] in *.
  rewrite Ho, Hb, Hr, copyPoints_length.
  assert (Hp : List.length pts = 63%nat) by (rewrite Hpts; cbn; lia).
  assert (Hlook : forall i, (i < 63)%nat ->
            copyPoints 0 pts (boltPositions st) !! i = pts !! i).
  { intros i Hi. rewrite copyPoints_lookup by lia.
    rewrite decide_True by lia. rewrite Nat.sub_0_r. reflexivity. }
  split; [reflexivity |]. split; [reflexivity |]. split; [lia |].
  split; [rewrite Hlook by lia; rewrite Hpts; reflexivity |].
  split.
  - intros [| j] Hj.
    + exists startX. rewrite !Hlook by lia. rewrite Hpts. cbn.
      split; [reflexivity |]. split; [exact H0 |]. split; [f_equal; lra | reflexivity].
    + destruct (Hshape j) as (x & Hx & Hbx & Hy & Hz); [lia |].
      exists x. rewrite !Hlook by lia. rewrite Hpts.
      replace (3 * S j)%nat with (S (S (S (3 * j)))) by lia.
      replace (S (S (S (3 * j))) + 1)%nat with (S (S (S (3 * j + 1)))) by lia.
      replace (S (S (S (3 * j))) + 2)%nat with (S (S (S (3 * j + 2)))) by lia.
      change (seg !! (3 * j)%nat = Some x /\ Rabs (x - startX) <= 5 /\
              seg !! (3 * j + 1)%nat = Some (15 - 3 / 2 * INR (S j)) /\
              seg !! (3 * j + 2)%nat = Some 0).
      repeat split; assumption.
  - intros i Hi. rewrite copyPoints_lookup by lia.
    rewrite decide_False by lia. reflexivity.
Qed.

(** The lightning block of [update] keeps [lightningOk]. *)
Lemma updateLightning_ok (delta : R) (st : RainApp) :
  0 <= delta -> lightningOk st -> lightningOk (updateLightning random delta st).
Proof.
  intros Hd (Hi & Ho & Hc & Hv & Ht & Hl).
  destruct (Rle_lt_dec (lightningTimer st - delta) 0) as [Hfire | Hidle].
  - destruct (RainFacts.updateLightning_fire random delta st Hfire) as (Ht' & Hi' & Hc').
    cbv zeta in Ht', Hi', Hc'.
    assert (Hrest : boltOpacity (updateLightning random delta st)
                    = lightningIntensity (updateLightning random delta st) /\
                    List.length (boltPositions (updateLightning random delta st)) = 150%nat).
    { clear Ht' Hi' Hc'. unfold updateLightning. cbv zeta.
      cbn [lightningTimer set_lightningTimer].
      destruct (Rle_dec _ 0) as [_ | N]; [| lra].
      unfold nextRandom.
      match goal with
      | |- context [triggerLightning _ ?s] =>
          destruct (RainFacts.triggerLightning_spec random s) as (_ & _ & Hti & _);
          destruct (triggerLightning_shape s) as (_ & Hlen & _);
          [cbn; lia |];
          generalize dependent (triggerLightning random s)
      end.
      cbn. intros st1 Hti Hlen. rewrite Hti.
      destruct (Rlt_dec 0 1) as [_ | N]; [| lra].
      cbn. destruct (Rlt_dec (1 - delta * 3) 0); cbn; split; try reflexivity; lia. }
    destruct Hrest as [Ho' Hl'].
    pose proof (random_unit (randomCalls st)).
    assert (Hrange : 0 <= Rmax 0 (1 - delta * 3) <= 1).
    { split; [apply Rmax_l | apply Rmax_lub; lra]. }
    unfold lightningOk. rewrite Ht', Hi', Hc', Ho', Hi', Hl'.
    split; [exact Hrange |]. split; [reflexivity |].
    split; [right; reflexivity |]. split; [intros _; reflexivity |].
    split; [lra | reflexivity].
  - destruct (RainFacts.updateLightning_idle random delta st) as (Ht' & Hon & Hoff); [lra |].
    cbv zeta in Ht', Hon, Hoff.
    assert (Hrest : (0 < lightningIntensity st ->
                     boltOpacity (updateLightning random delta st)
                     = lightningIntensity (updateLightning random delta st)) /\
                    (lightningIntensity st <= 0 ->
                     boltOpacity (updateLightning random delta st) = boltOpacity st) /\
                    boltPositions (updateLightning random delta st) = boltPositions st).
    { clear Ht' Hon Hoff. unfold updateLightning. cbv zeta.
      cbn [lightningTimer set_lightningTimer].
      destruct (Rle_dec _ 0) as [N | _]; [lra |].
      cbn [lightningIntensity set_lightningTimer].
      destruct (Rlt_dec 0 (lightningIntensity st)) as [Hpos | Hzero].
      - cbn. destruct (Rlt_dec _ 0); cbn; repeat split; intros; lra.
      - cbn. repeat split; intros; lra. }
    destruct Hrest as (Hop & Hoz & Hb).
    unfold lightningOk. rewrite Ht', Hb.
    destruct (Rlt_le_dec 0 (lightningIntensity st)) as [Hpos | Hzero].
    + destruct (Hon Hpos) as [Hi' Hc']. rewrite (Hop Hpos), Hi', Hc'.
      split; [split; [apply Rmax_l | apply Rmax_lub; lra] |].
      split; [reflexivity |]. split; [right; exact (Hv Hpos) |].
      split; [intros _; exact (Hv Hpos) |]. split; [lra | exact Hl].
    + destruct (Hoff Hzero) as [Hi' Hc']. rewrite (Hoz Hzero), Hi', Hc'.
      split; [exact Hi |]. split; [exact Ho |]. split; [left; reflexivity |].
      split; [intros H; lra |]. split; [lra | exact Hl].
Qed.

End Bolt.

(** ** Rain with the pointer away *)

Lemma outcome_floor (random : nat -> R) (delta : R) (m : Vec3.t) (k : nat)
    (p : Particle) :
  - (RAIN_RANGE_Y / 2) <= py (outcome random delta m k p).
Proof.
  unfold outcome. cbv zeta.
  destruct (Rlt_dec (py (advance delta m p)) _) as [H | H].
  - unfold recycled, RAIN_RANGE_Y. cbn [py]. lra.
  - unfold RAIN_RANGE_Y in *. lra.
Qed.

Lemma far_not_reflects (m : Vec3.t) (p : Particle) :
  UMBRELLA_RADIUS <= Rabs (px p - Vec3.x m) -> collide m p = p.
Proof.
  intros Hfar.
  destruct (RainFacts.collide_cases m p) as [[(Hin & _) _] | [_ E]]; [| exact E].
  exfalso. unfold distSq, radiusSq, offset, UMBRELLA_RADIUS in *. cbv zeta in Hin.
  cbn [Vec3.x Vec3.y Vec3.z] in Hin.
  set (a := px p - Vec3.x m) in *.
  pose proof (Rle_0_sqr (py p - Vec3.y m)) as Hy.
  pose proof (Rle_0_sqr (pz p - Vec3.z m)) as Hz. unfold Rsqr in Hy, Hz.
  assert (Ha : 3 * 3 <= a * a).
  { unfold Rabs in Hfar. destruct (Rcase_abs a); nra. }
  lra.
Qed.

Lemma calm_outcome (random : nat -> R) (delta : R) (m : Vec3.t) (k : nat)
    (p : Particle) :
  (forall j, 0 <= random j < 1) -> 0 <= delta ->
  m = Vec3.mk 9999 9999 0 -> inVolume p -> fallsStraight p ->
  inVolume (outcome random delta m k p) /\ fallsStraight (outcome random delta m k p).
Proof.
  intros Hr Hd -> (Hx & Hy & Hz) (Hvx & Hvz & Hvy).
  unfold RAIN_RANGE_X, RAIN_RANGE_Y, RAIN_RANGE_Z in *.
  unfold outcome. cbv zeta.
  assert (E : advance delta (Vec3.mk 9999 9999 0) p
              = integrate delta (gravity delta p)).
  { unfold advance. rewrite far_not_reflects; [reflexivity |].
    unfold UMBRELLA_RADIUS. cbn [gravity px Vec3.x].
    rewrite Rabs_left by lra. lra. }
  rewrite E.
  destruct (Rlt_dec _ _) as [Hlow | Hlow].
  - pose proof (Hr k). pose proof (Hr (S k)). pose proof (Hr (S (S k))).
    unfold inVolume, fallsStraight, recycled, RAIN_RANGE_X, RAIN_RANGE_Y, RAIN_RANGE_Z.
    cbn [px py pz pvx pvy pvz]. repeat split; lra.
  - unfold inVolume, fallsStraight, RAIN_RANGE_X, RAIN_RANGE_Y, RAIN_RANGE_Z in *.
    cbn [integrate gravity px py pz pvx pvy pvz] in *.
    unfold GRAVITY in *. rewrite Hvx, Hvz.
    assert ((pvy p - 5 * delta) * delta <= 0).
    { rewrite <- (Rmult_0_l delta). apply Rmult_le_compat_r; lra. }
    repeat split; lra.
Qed.

Lemma cap_range (clockDelta : R) :
  0 <= clockDelta -> 0 <= Rmin clockDelta (1 / 10) <= 1 / 10.
Proof.
  intros H. split; [apply Rmin_glb; lra | apply Rmin_r].
Qed.

Lemma create_lightningOk (random : nat -> R) :
  (forall k, 0 <= random k < 1) -> lightningOk (create random).
Proof.
  intros Hr.
  destruct (create_particles random) as (_ & _ & Ht & Hi & Hb & Hd & Ho & _).
  cbv zeta in Ht, Hi, Hb, Hd, Ho. pose proof (Hr 0%nat).
  unfold lightningOk. rewrite Ht, Hi, Hb, Hd, Ho, length_replicate.
  split; [lra |]. split; [reflexivity |]. split; [left; reflexivity |].
  split; [intros; lra |]. split; [lra | reflexivity].
Qed.

Lemma update_lightningOk (random : nat -> R) (delta : R) (st : RainApp) :
  (forall k, 0 <= random k < 1) -> 0 <= delta ->
  lightningOk st -> lightningOk (update random delta st).
Proof.
  intros Hr Hd Hok.
  pose proof (updateLightning_ok random Hr delta st Hd Hok) as H.
  destruct (RainFacts.update_lightning random delta st) as (_ & Ht & Hi & Hb & Hc & Ho).
  unfold lightningOk in *. rewrite Ht, Hi, Hb, Hc, Ho. exact H.
Qed.

Lemma constructor_particles_above (random : nat -> R) :
  (forall k, 0 <= random k < 1) ->
  sized (create random) /\
  forall i, (i < PARTICLE_COUNT)%nat ->
    - (RAIN_RANGE_Y / 2) <= py (particleAt (create random) i).
Proof.
  intros Hr.
  destruct (create_particles random) as (Hsz & _ & _ & _ & _ & _ & _ & _ & Hp).
  cbv zeta in Hsz, Hp. split; [exact Hsz |].
  intros i Hi. destruct (Hp i Hi) as [k ->].
  destruct (seeded_inVolume random k Hr) as ((_ & Hy & _) & _). lra.
Qed.

(** ** Sample inputs *)

Lemma aboutToFire_buffer : (63 <= List.length (boltPositions aboutToFire))%nat.
Proof.
  unfold aboutToFire, calmField. cbn [boltPositions set_lightningTimer].
  rewrite length_replicate. lia.
Qed.

Lemma twentieth_nonneg : 0 <= 1 / 20.
Proof. lra. Qed.

Lemma aboutToFire_fires : lightningTimer aboutToFire - Rmin (1 / 20) (1 / 10) <= 0.
Proof.
  unfold aboutToFire. cbn [lightningTimer set_lightningTimer].
  rewrite Rmin_left by lra. lra.
Qed.

Lemma far_drop : UMBRELLA_RADIUS <= Rabs (px dropAbove - Vec3.x (Vec3.mk 5 0 0)).
Proof.
  unfold UMBRELLA_RADIUS, dropAbove. cbn [px Vec3.x].
  rewrite Rabs_left by lra. lra.
Qed.

(** ** What the constructor and the frame loop guarantee *)

(** X8. The constructor: with [Math.random()] in [[0, 1)], the rain app
    starts with both arrays of size [3 * PARTICLE_COUNT], every particle in
    the rain volume (faces included), with no velocity in x and z and a
    downward speed from 5 to 10 (ends included), the first flash between 1
    and 4 seconds away, no flash showing, and the pointer parked at
    [(9999, 9999, 0)]. *)
Theorem constructor_state (random : nat -> R) :
  (forall k, 0 <= random k < 1) ->
  sized (create random) /\
  1 <= lightningTimer (create random) < 4 /\
  lightningIntensity (create random) = 0 /\
  boltDrawCount (create random) = 0 /\
  boltOpacity (create random) = 0 /\
  mouseWorldPos (create random) = Vec3.mk 9999 9999 0 /\
  forall i, (i < PARTICLE_COUNT)%nat ->
    inBox (particleAt (create random) i) /\
    pvx (particleAt (create random) i) = 0 /\
    pvz (particleAt (create random) i) = 0 /\
    -10 <= pvy (particleAt (create random) i) <= -5.
Proof.
  intros Hr.
  destruct (create_particles random) as (Hsz & Hm & Ht & Hi & _ & Hd & Ho & _ & Hp).
  cbv zeta in Hsz, Hm, Ht, Hi, Hd, Ho, Hp. pose proof (Hr 0%nat).
  split; [exact Hsz |]. split; [rewrite Ht; lra |].
  split; [exact Hi |]. split; [exact Hd |]. split; [exact Ho |].
  split; [exact Hm |].
  intros i Hlt. destruct (Hp i Hlt) as [k ->].
  destruct (seeded_inVolume random k Hr) as ((Hx & Hy & Hz) & (Hvx & Hvz & Hvy) & Hs).
  split; [repeat split; lra |]. split; [exact Hvx |]. split; [exact Hvz |]. lra.
Qed.

Lemma constructor_state_witness :
  (forall k, 0 <= half k < 1) /\
  sized (create half) /\ 1 <= lightningTimer (create half) < 4.
Proof.
  split; [exact RainFacts.half_range |].
  pose proof (constructor_state half RainFacts.half_range) as H.
  exact (conj (proj1 H) (proj1 (proj2 H))).
Defined.

(** X9. The bolt [triggerLightning] draws: 21 points written to the start of
    the buffer, the first at [(startX, 15, 0)] with [startX] in
    [[-10, 10)], each next one 1.5 lower, all at [z = 0] and none further
    than 5 from [startX] sideways; the draw range is set to these 21 points,
    and the rest of the buffer is left as it was. *)
Theorem bolt_shape (random : nat -> R) (st : RainApp) :
  (forall k, 0 <= random k < 1) ->
  (63 <= List.length (boltPositions st))%nat ->
  exists startX,
    -10 <= startX < 10 /\
    boltDrawCount (triggerLightning random st) = 21 /\
    (forall j, (j < 21)%nat ->
       exists x,
         boltPositions (triggerLightning random st) !! (3 * j)%nat = Some x /\
         Rabs (x - startX) <= 5 /\
         boltPositions (triggerLightning random st) !! (3 * j + 1)%nat
         = Some (15 - 3 / 2 * INR j) /\
         boltPositions (triggerLightning random st) !! (3 * j + 2)%nat = Some 0) /\
    boltPositions (triggerLightning random st) !! 0%nat = Some startX /\
    List.length (boltPositions (triggerLightning random st))
    = List.length (boltPositions st) /\
    forall i, (63 <= i)%nat ->
      boltPositions (triggerLightning random st) !! i = boltPositions st !! i.
Proof.
  intros Hr Hlen.
  destruct (triggerLightning_shape random Hr st Hlen) as (_ & Hl & _ & H0 & Hpts & Hrest).
  destruct (RainFacts.triggerLightning_spec random st) as (Hc & _).
  cbv zeta in Hc.
  exists ((random (randomCalls st) - 5 / 10) * 20).
  pose proof (Hr (randomCalls st)).
  split; [lra |]. split; [exact Hc |]. split; [exact Hpts |].
  split; [exact H0 |]. split; [exact Hl | exact Hrest].
Qed.

Lemma bolt_shape_witness :
  (forall k, 0 <= half k < 1) /\
  (63 <= List.length (boltPositions aboutToFire))%nat /\
  exists startX,
    -10 <= startX < 10 /\ boltDrawCount (triggerLightning half aboutToFire) = 21.
Proof.
  split; [exact RainFacts.half_range |]. split; [exact aboutToFire_buffer |].
  destruct (bolt_shape half aboutToFire RainFacts.half_range aboutToFire_buffer)
    as (x & Hx & Hc & _).
  exists x. exact (conj Hx Hc).
Defined.

(** X10. In every state of a running rain app (constructor, frames with a
    clock that does not run backwards, pointer events) the arrays keep their
    size, no particle is below the lower face of the rain volume, the flash
    intensity is between 0 and 1 and equal to the opacity of the bolt, the
    bolt's draw range is empty or the 21 points (the 21 points whenever the
    flash shows), the lightning timer is positive and the bolt buffer holds
    50 points. *)
Theorem running_invariant (random : nat -> R) (st : RainApp) :
  (forall k, 0 <= random k < 1) ->
  reachable random st ->
  sized st /\ lightningOk st /\
  forall i, (i < PARTICLE_COUNT)%nat -> - (RAIN_RANGE_Y / 2) <= py (particleAt st i).
Proof.
  intros Hr Hreach.
  induction Hreach as [| c st Hc Hreach IH | p st Hreach IH].
  - destruct (constructor_particles_above random Hr) as [Hsz Hp].
    split; [exact Hsz |]. split; [exact (create_lightningOk random Hr) | exact Hp].
  - destruct IH as (Hsz & Hok & Hfloor). unfold animate.
    destruct (cap_range c Hc) as [Hd _].
    destruct (RainFacts.update_particle random (Rmin c (1 / 10)) st 0%nat Hsz
                RainFacts.PARTICLE_COUNT_pos) as (Hsz' & _).
    split; [exact Hsz' |].
    split; [exact (update_lightningOk random _ st Hr Hd Hok) |].
    intros i Hi.
    destruct (RainFacts.update_particle random (Rmin c (1 / 10)) st i Hsz Hi)
      as (_ & _ & k & ->).
    apply outcome_floor.
  - destruct IH as (Hsz & Hok & Hfloor).
    split; [exact Hsz |]. split; [exact Hok |]. exact Hfloor.
Qed.

Lemma running_invariant_witness :
  (forall k, 0 <= half k < 1) /\
  lightningOk (set_mouseWorldPos (Vec3.mk 1 2 0) (animate half (1 / 20) (create half))).
Proof.
  split; [exact RainFacts.half_range |].
  exact (proj1 (proj2 (running_invariant half _ RainFacts.half_range
           (reachable_pointer half _ _
              (reachable_animate half _ _ twentieth_nonneg (reachable_create half)))))).
Defined.

(** X11. As long as the pointer has not moved from where the constructor
    parks it, the umbrella is out of reach: every particle keeps zero
    horizontal velocity, falls at 5 units per second or faster, and stays
    inside the rain volume. *)
Theorem calm_rain_falls_straight (random : nat -> R) (st : RainApp) :
  (forall k, 0 <= random k < 1) ->
  reachableCalm random st ->
  mouseWorldPos st = Vec3.mk 9999 9999 0 /\
  forall i, (i < PARTICLE_COUNT)%nat ->
    inVolume (particleAt st i) /\ fallsStraight (particleAt st i).
Proof.
  intros Hr Hreach.
  assert (H : sized st /\ mouseWorldPos st = Vec3.mk 9999 9999 0 /\
              forall i, (i < PARTICLE_COUNT)%nat ->
                inVolume (particleAt st i) /\ fallsStraight (particleAt st i)).
  { induction Hreach as [| c st Hc Hreach IH].
    - destruct (create_particles random) as (Hsz & Hm & _ & _ & _ & _ & _ & _ & Hp).
      cbv zeta in Hsz, Hm, Hp.
      split; [exact Hsz |]. split; [exact Hm |].
      intros i Hi. destruct (Hp i Hi) as [k ->].
      destruct (seeded_inVolume random k Hr) as (Hv & Hf & _). exact (conj Hv Hf).
    - destruct IH as (Hsz & Hm & Hp). unfold animate.
      destruct (cap_range c Hc) as [Hd _].
      destruct (RainFacts.update_particle random (Rmin c (1 / 10)) st 0%nat Hsz
                  RainFacts.PARTICLE_COUNT_pos) as (Hsz' & Hm' & _).
      split; [exact Hsz' |]. split; [rewrite Hm'; exact Hm |].
      intros i Hi.
      destruct (RainFacts.update_particle random (Rmin c (1 / 10)) st i Hsz Hi)
        as (_ & _ & k & ->).
      destruct (Hp i Hi) as [Hv Hf].
      exact (calm_outcome random _ _ k _ Hr Hd Hm Hv Hf). }
  exact (proj2 H).
Qed.

Lemma calm_rain_falls_straight_witness :
  (forall k, 0 <= half k < 1) /\
  mouseWorldPos (animate half (1 / 20) (create half)) = Vec3.mk 9999 9999 0.
Proof.
  split; [exact RainFacts.half_range |].
  exact (proj1 (calm_rain_falls_straight half _ RainFacts.half_range
           (calm_animate half _ _ twentieth_nonneg (calm_create half)))).
Defined.

(** X12. Free fall in closed form: a particle without horizontal velocity
    and at least [UMBRELLA_RADIUS] away from the pointer in x is, after [n]
    steps of [delta] seconds (before the out-of-bounds test), at the same x
    and z, with [vy - GRAVITY * n * delta] and
    [y + n * delta * vy - GRAVITY * delta^2 * n * (n + 1) / 2]: gravity is
    applied before the position is moved. *)
Theorem free_fall (delta : R) (m : Vec3.t) (p : Particle) (n : nat) :
  UMBRELLA_RADIUS <= Rabs (px p - Vec3.x m) ->
  pvx p = 0 -> pvz p = 0 ->
  Nat.iter n (advance delta m) p
  = mkParticle (px p)
      (py p + INR n * delta * pvy p
       - GRAVITY * delta * delta * (INR n * (INR n + 1) / 2))
      (pz p) 0 (pvy p - GRAVITY * INR n * delta) 0.
Proof.
  intros Hfar Hvx Hvz. induction n as [| n IH].
  - cbn [Nat.iter INR]. destruct p as [x y z vx vy vz]. cbn in *. subst.
    f_equal; lra.
  - change (Nat.iter (S n) (advance delta m) p)
      with (advance delta m (Nat.iter n (advance delta m) p)).
    rewrite IH. unfold advance.
    rewrite far_not_reflects by exact Hfar.
    rewrite S_INR. unfold integrate, gravity. cbv zeta.
    cbn [px py pz pvx pvy pvz]. f_equal; field.
Qed.

Lemma free_fall_witness :
  UMBRELLA_RADIUS <= Rabs (px dropAbove - Vec3.x (Vec3.mk 5 0 0)) /\
  pvy (Nat.iter 2 (advance (1 / 10) (Vec3.mk 5 0 0)) dropAbove)
  = pvy dropAbove - GRAVITY * INR 2 * (1 / 10).
Proof.
  split; [exact far_drop |].
  exact (f_equal pvy (free_fall (1 / 10) (Vec3.mk 5 0 0) dropAbove 2 far_drop
                        eq_refl eq_refl)).
Defined.

(** X13. [animate] caps the frame time at 0.1 s: however long the frame
    took, a flash that fires in it is still at least 0.7 bright when the
    frame ends (with the 21 points shown and the next one 2 to 7 seconds
    away), a flash that is showing loses at most 0.3, and the timer runs
    down by at most 0.1. *)
Theorem frame_cap (random : nat -> R) (clockDelta : R) (st : RainApp) :
  (forall k, 0 <= random k < 1) -> 0 <= clockDelta ->
  (lightningTimer st - Rmin clockDelta (1 / 10) <= 0 ->
   7 / 10 <= lightningIntensity (animate random clockDelta st) /\
   boltDrawCount (animate random clockDelta st) = 21 /\
   2 <= lightningTimer (animate random clockDelta st) < 7) /\
  (0 < lightningTimer st - Rmin clockDelta (1 / 10) ->
   lightningTimer st - 1 / 10 <= lightningTimer (animate random clockDelta st) /\
   (0 < lightningIntensity st ->
    lightningIntensity st - 3 / 10 <= lightningIntensity (animate random clockDelta st))).
Proof.
  intros Hr Hc. destruct (cap_range clockDelta Hc) as [Hlo Hhi].
  unfold animate. set (d := Rmin clockDelta (1 / 10)) in *. split.
  - intros Hfire.
    destruct (RainFacts.update_fire random d st Hfire) as (Ht & Hi & Hn).
    cbv zeta in Ht, Hi, Hn. rewrite Ht, Hi, Hn. pose proof (Hr (randomCalls st)).
    split; [| split; [reflexivity | lra]].
    eapply Rle_trans; [| apply Rmax_r]. lra.
  - intros Hidle.
    destruct (RainFacts.update_idle random d st Hidle) as (Ht & Hon & _).
    cbv zeta in Ht, Hon. rewrite Ht. split; [lra |].
    intros Hpos. destruct (Hon Hpos) as [-> _].
    eapply Rle_trans; [| apply Rmax_r]. lra.
Qed.

Lemma frame_cap_witness :
  (forall k, 0 <= half k < 1) /\ 0 <= 1 / 20 /\
  lightningTimer aboutToFire - Rmin (1 / 20) (1 / 10) <= 0 /\
  7 / 10 <= lightningIntensity (animate half (1 / 20) aboutToFire).
Proof.
  split; [exact RainFacts.half_range |]. split; [exact twentieth_nonneg |].
  split; [exact aboutToFire_fires |].
  exact (proj1 (proj1 (frame_cap half (1 / 20) aboutToFire RainFacts.half_range
                         twentieth_nonneg) aboutToFire_fires)).
Defined.

End RainMoreFacts.

(** * More on the growth network *)

Module NetworkMoreFacts.

Import Network NetworkSpec NetworkMoreSpec.

(** ** Vectors *)

Lemma length_of_unit (v : Vec3.t) : unitLength v -> Vec3.length v = 1.
Proof.
  unfold unitLength, dot, Vec3.length. intros ->. apply sqrt_1.
Qed.

Lemma normalize_of_unit (v : Vec3.t) :
  unitLength v ->
  Vec3.x (Vec3.normalize v) = Vec3.x v /\
  Vec3.y (Vec3.normalize v) = Vec3.y v /\
  Vec3.z (Vec3.normalize v) = Vec3.z v.
Proof.
  intros H. unfold Vec3.normalize. rewrite (length_of_unit v H).
  destruct (Req_dec_T 1 0) as [E | _]; [lra |].
  cbn [Vec3.x Vec3.y Vec3.z]. repeat split; field.
Qed.

Lemma normalize_twice (v : Vec3.t) :
  unitLength v ->
  let w := Vec3.normalize (Vec3.normalize v) in
  Vec3.x w = Vec3.x v /\ Vec3.y w = Vec3.y v /\ Vec3.z w = Vec3.z v.
Proof.
  intros H. destruct (normalize_of_unit v H) as (Hx & Hy & Hz).
  assert (H1 : unitLength (Vec3.normalize v)).
  { unfold unitLength, dot in *. rewrite Hx, Hy, Hz. exact H. }
  destruct (normalize_of_unit _ H1) as (Hx1 & Hy1 & Hz1).
  cbv zeta. rewrite Hx1, Hy1, Hz1. auto.
Qed.

Lemma rotated_unit (d : Vec3.t) (angle : R) :
  planar d -> unitLength d ->
  unitLength (Vec3.setZ (Vec3.applyAxisAngleZ d angle) 0) /\
  dot (Vec3.setZ (Vec3.applyAxisAngleZ d angle) 0) d = cos angle.
Proof.
  unfold planar, unitLength, dot, Vec3.setZ, Vec3.applyAxisAngleZ.
  destruct d as [dx dy dz]. cbn [Vec3.x Vec3.y Vec3.z]. intros -> H.
  pose proof (sin2_cos2 angle) as Hsc. unfold Rsqr in Hsc.
  set (s := sin angle) in *. set (c := cos angle) in *.
  assert (Hd : dx * dx + dy * dy = 1) by lra.
  split.
  - transitivity ((dx * dx + dy * dy) * (s * s + c * c)); [ring |].
    rewrite Hd, Hsc. ring.
  - transitivity (c * (dx * dx + dy * dy)); [ring |]. rewrite Hd. ring.
Qed.

Lemma circle_unit (angle : R) : unitLength (Vec3.mk (cos angle) (sin angle) 0).
Proof.
  unfold unitLength, dot. cbn [Vec3.x Vec3.y Vec3.z].
  pose proof (sin2_cos2 angle) as Hsc. unfold Rsqr in Hsc. lra.
Qed.

Lemma tip_zero (b : Branch) : length b = 0 -> tip b = start b.
Proof.
  intros H. unfold tip, Vec3.add, Vec3.multiplyScalar. rewrite H.
  destruct (start b) as [sx sy sz]. cbn [Vec3.x Vec3.y Vec3.z]. f_equal; ring.
Qed.

Lemma tip_planar (b : Branch) :
  planar (start b) -> planar (direction b) -> planar (tip b).
Proof.
  unfold planar, tip, Vec3.add, Vec3.multiplyScalar. cbn [Vec3.z].
  intros -> ->. ring.
Qed.

Lemma turn_range (r : R) : 0 <= r < 1 -> - (PI / 2) <= turn r <= PI / 2.
Proof.
  intros H. unfold turn, BRANCH_ANGLE. pose proof PI_RGT_0.
  split; nra.
Qed.

(** ** Branches made from a unit direction *)

Lemma made_shaped (b : Branch) (v : Vec3.t) :
  planar (start b) -> planar v -> unitLength v ->
  direction b = Vec3.normalize (Vec3.normalize v) ->
  length b = 0 -> end_ b = start b ->
  targetLength b = Rmax (BRANCH_LENGTH * (1 - INR (generation b) * (5 / 100))) (5 / 10) ->
  shaped b /\ dot (direction b) v = 1.
Proof.
  intros Hs Hp Hu Hd Hl He Ht.
  destruct (normalize_twice v Hu) as (Hx & Hy & Hz). cbv zeta in Hx, Hy, Hz.
  rewrite <- Hd in Hx, Hy, Hz.
  assert (Hdot : dot (direction b) v = 1).
  { unfold dot. rewrite Hx, Hy, Hz. exact Hu. }
  split; [| exact Hdot].
  split; [exact Hs |]. split; [unfold planar; rewrite He; exact Hs |].
  split; [unfold planar; rewrite Hz; exact Hp |].
  split; [unfold unitLength, dot; rewrite Hx, Hy, Hz; exact Hu |].
  split; [rewrite tip_zero by exact Hl; exact He | exact Ht].
Qed.

Lemma sprout_shaped (random : nat -> R) (parent c : Branch) :
  shaped parent -> sprout random parent c ->
  shaped c /\
  exists k, dot (direction c) (direction parent) = cos (turn (random k)).
Proof.
  intros (Hps & Hpe & Hpd & Hpu & _ & _) (Hs & Hg & _ & Hl & He & _ & Ht & k & Hd).
  destruct (rotated_unit (direction parent) (turn (random k)) Hpd Hpu) as [Hu Hdot].
  set (v := Vec3.setZ (Vec3.applyAxisAngleZ (direction parent) (turn (random k))) 0) in *.
  assert (Hcs : planar (start c)) by (unfold planar; rewrite Hs; exact Hpe).
  assert (Hv : planar v) by reflexivity.
  assert (Hct : targetLength c
                = Rmax (BRANCH_LENGTH * (1 - INR (generation c) * (5 / 100))) (5 / 10))
    by (rewrite Hg; exact Ht).
  destruct (made_shaped c v Hcs Hv Hu Hd Hl He Hct) as [Hsh _].
  split; [exact Hsh |]. exists k.
  destruct (normalize_twice v Hu) as (Hx & Hy & Hz). cbv zeta in Hx, Hy, Hz.
  rewrite <- Hd in Hx, Hy, Hz. rewrite <- Hdot.
  unfold dot. rewrite Hx, Hy, Hz. reflexivity.
Qed.

Lemma seed_shaped (b : Branch) : seed b -> shaped b.
Proof.
  intros (Hg & _ & Hl & _ & Ht & He & Hs & angle & Hd).
  assert (Hps : planar (start b)).
  { unfold startPoints in Hs. unfold planar.
    repeat (apply elem_of_cons in Hs as [-> | Hs]; [reflexivity |]).
    inversion Hs. }
  assert (Hv : planar (Vec3.mk (cos angle) (sin angle) 0)) by reflexivity.
  assert (Hbt : targetLength b
                = Rmax (BRANCH_LENGTH * (1 - INR (generation b) * (5 / 100))) (5 / 10)).
  { rewrite Ht, Hg. unfold BRANCH_LENGTH. cbn [INR]. rewrite Rmax_left; lra. }
  exact (proj1 (made_shaped b _ Hps Hv (circle_unit angle) Hd Hl He Hbt)).
Qed.

Lemma grow_shaped (delta : R) (b : Branch) : shaped b -> shaped (grow delta b).
Proof.
  intros (Hs & He & Hd & Hu & Ht & Hl).
  unfold grow. destruct (isGrowing b).
  - cbv zeta. cbn [length targetLength set_length].
    destruct (Rle_dec _ _).
    + split; [exact Hs |]. split; [| split; [exact Hd | split; [exact Hu |
        split; [reflexivity | exact Hl]]]].
      unfold planar in *. cbn. rewrite Hs, Hd. ring.
    + split; [exact Hs |]. split; [| split; [exact Hd | split; [exact Hu |
        split; [reflexivity | exact Hl]]]].
      unfold planar in *. cbn. rewrite Hs, Hd. ring.
  - split; [exact Hs |]. split; [exact He |]. split; [exact Hd |].
    split; [exact Hu |]. split; [exact Ht | exact Hl].
Qed.

(** ** What [createBranch] appends *)

Lemma createBranch_one (s d : Vec3.t) (g : nat) (st : App) :
  ((MAX_BRANCHES <= List.length (branches st))%nat /\ createBranch s d g st = st) \/
  ((List.length (branches st) < MAX_BRANCHES)%nat /\
   exists b,
     branches (createBranch s d g st) = branches st ++ [b] /\
     randomCalls (createBranch s d g st) = randomCalls st /\
     start b = s /\ direction b = Vec3.normalize d /\ generation b = g /\
     isGrowing b = true /\ length b = 0 /\ end_ b = s /\ age b = 0 /\
     targetLength b = Rmax (BRANCH_LENGTH * (1 - INR g * (5 / 100))) (5 / 10)).
Proof.
  destruct (NetworkFacts.createBranch_cases s d g st)
    as [H | (Hlt & b & m & Hc & Hs & Hd & E)]; [left; exact H | right].
  split; [exact Hlt |]. exists b. rewrite E.
  destruct Hc as (Hg & Hi & Hl & Ht & Ha & He & _).
  split; [reflexivity |]. split; [reflexivity |]. split; [exact Hs |].
  split; [exact Hd |]. split; [exact Hg |]. split; [exact Hi |].
  split; [exact Hl |]. split; [rewrite He; exact Hs |]. split; [exact Ha | exact Ht].
Qed.

Lemma floor_quarter (r : R) : 0 <= r < 1 -> (0 <= floor (r * 4) <= 3)%Z.
Proof.
  intros H. unfold floor.
  destruct (base_Int_part (r * 4)) as [Hlo Hhi].
  split.
  - assert (Hm : (-1 < Int_part (r * 4))%Z) by (apply lt_IZR; lra). lia.
  - assert (Hm : (Int_part (r * 4) < 4)%Z) by (apply lt_IZR; lra). lia.
Qed.

Section WithRandom.

Variable random : nat -> R.

Lemma spawnChildren_sprout (n : nat) (parent : Branch) :
  forall st : App,
    exists bs,
      branches (spawnChildren random n parent st) = branches st ++ bs /\
      Forall (sprout random parent) bs /\
      (List.length bs <= n)%nat /\
      ((List.length (branches st) + n <= MAX_BRANCHES)%nat -> List.length bs = n) /\
      randomCalls (spawnChildren random n parent st) = (randomCalls st + n)%nat.
Proof.
  induction n as [| n IH]; intros st; cbn [spawnChildren].
  - exists []. rewrite app_nil_r. repeat split; auto.
  - cbv zeta. unfold nextRandom.
    match goal with
    | |- context [createBranch ?s ?d ?g ?st1] =>
        destruct (createBranch_one s d g st1)
          as [[Hcap E] | (Hlt & b & Hb & Hr & Hs & Hd & Hg & Hi & Hl & He & Ha & Ht)];
        [rewrite E; destruct (IH st1) as (bs & Hbs & Hall & Hle & Hex & Hrc)
        | destruct (IH (createBranch s d g st1)) as (bs & Hbs & Hall & Hle & Hex & Hrc)]
    end.
    + cbn [branches randomCalls set_randomCalls] in *.
      exists bs. split; [exact Hbs |]. split; [exact Hall |].
      split; [lia |]. split; [intros; lia |]. rewrite Hrc. lia.
    + rewrite Hb in Hbs, Hex. rewrite Hr in Hrc.
      cbn [branches randomCalls set_randomCalls] in *.
      exists (b :: bs).
      split; [rewrite Hbs, <- app_assoc; reflexivity |].
      split.
      * constructor; [| exact Hall].
        split; [exact Hs |]. split; [exact Hg |]. split; [exact Hi |].
        split; [exact Hl |]. split; [rewrite Hs; exact He |]. split; [exact Ha |].
        split; [exact Ht |]. exists (randomCalls st). exact Hd.
      * rewrite length_app in Hex. cbn [List.length] in *.
        split; [lia |]. split; [intros H; rewrite Hex by lia; reflexivity |].
        rewrite Hrc. lia.
Qed.

(** [branchOut]: the branches appended are sprouts of the branch; there are
    2 to 5 of them when the draw allows branching and the cap is far. *)
Lemma branchOut_sprout (parent : Branch) (st : App) :
  exists bs,
    branches (branchOut random parent st) = branches st ++ bs /\
    Forall (sprout random parent) bs /\
    (bs <> [] ->
     (generation parent < MAX_GENERATION)%nat /\
     random (randomCalls st) <= BRANCH_PROBABILITY) /\
    (0 <= random (S (randomCalls st)) < 1 -> (List.length bs <= 5)%nat) /\
    (0 <= random (S (randomCalls st)) < 1 ->
     (generation parent < MAX_GENERATION)%nat ->
     random (randomCalls st) <= BRANCH_PROBABILITY ->
     (List.length (branches st) + 5 <= MAX_BRANCHES)%nat ->
     (2 <= List.length bs)%nat /\
     List.length bs = Z.to_nat (2 + floor (random (S (randomCalls st)) * 4)) /\
     randomCalls (branchOut random parent st)
     = (randomCalls st + 2 + List.length bs)%nat).
Proof.
  unfold branchOut.
  destruct (decide (MAX_GENERATION <= generation parent)%nat) as [Hmax | Hlt].
  - exists []. rewrite app_nil_r. split; [reflexivity |]. split; [constructor |].
    split; [intros H; contradiction |]. split; [intros; cbn; lia |]. intros; lia.
  - unfold nextRandom. cbn [randomCalls set_randomCalls].
    destruct (Rlt_dec BRANCH_PROBABILITY (random (randomCalls st))) as [Hfail | Hpass].
    + exists []. cbn [branches set_randomCalls]. rewrite app_nil_r.
      split; [reflexivity |]. split; [constructor |].
      split; [intros H; contradiction |]. split; [intros; cbn; lia |]. intros; lra.
    + match goal with
      | |- context [spawnChildren random ?n parent ?st1] =>
          destruct (spawnChildren_sprout n parent st1) as (bs & Hbs & Hall & Hle & Hex & Hrc)
      end.
      cbn [branches randomCalls set_randomCalls] in *.
      exists bs. split; [exact Hbs |]. split; [exact Hall |].
      split; [intros _; split; [lia | lra] |].
      split.
      * intros Hr. pose proof (floor_quarter _ Hr). lia.
      * intros Hr _ _ Hroom. pose proof (floor_quarter _ Hr) as Hq.
        assert (Hn : List.length bs = Z.to_nat (2 + floor (random (S (randomCalls st)) * 4))).
        { apply Hex. lia. }
        split; [lia |]. split; [exact Hn |]. rewrite Hrc. lia.
Qed.

(** The branch list after the callback has run for index [k]. *)
Lemma updateBranch_sprout (delta : R) (st : App) (k : nat) (b : Branch) :
  branches st !! k = Some b ->
  exists bs,
    branches (updateBranch random delta st k)
    = <[k := grow delta b]> (branches st) ++ bs /\
    Forall (sprout random b) bs /\
    (bs <> [] -> spawns delta b = true) /\
    (spawns delta b = true ->
     0 <= random (S (randomCalls st)) < 1 ->
     (generation b < MAX_GENERATION)%nat ->
     random (randomCalls st) <= BRANCH_PROBABILITY ->
     (List.length (branches st) + 5 <= MAX_BRANCHES)%nat ->
     (2 <= List.length bs <= 5)%nat).
Proof.
  intros Hb. pose proof (lookup_lt_Some _ _ _ Hb) as Hk.
  unfold updateBranch, spawns, grow. rewrite Hb.
  destruct (isGrowing b) eqn:Hg.
  - cbv zeta. cbn [length targetLength set_length].
    destruct (Rle_dec (targetLength b) (length b + GROWTH_SPEED * delta)) as [Hdone | Hmore].
    + match goal with
      | |- context [branchOut random ?bb ?ss] =>
          destruct (branchOut_sprout bb ss) as (bs & Hbs & Hall & _ & Hfive & Hcount);
          set (st1 := branchOut random bb ss) in *; clearbody st1
      end.
      cbn [branches randomCalls generation set_branchOutCalls set_isGrowing set_length]
        in Hbs, Hfive, Hcount.
      cbv beta iota. rewrite !NetworkFacts.mesh_pass.
      exists bs. cbn. rewrite Hbs.
      split; [apply insert_app_l; exact Hk |].
      split; [exact Hall |]. split; [reflexivity |].
      intros _ Hr Hgen Hp Hroom.
      destruct (Hcount Hr Hgen Hp Hroom) as (H2 & _). specialize (Hfive Hr). lia.
    + cbv beta iota. rewrite !NetworkFacts.mesh_pass.
      exists []. cbn. rewrite app_nil_r.
      split; [reflexivity |]. split; [constructor |].
      split; [intros H; contradiction | intros H; discriminate].
  - cbv beta iota zeta. rewrite !NetworkFacts.mesh_pass.
    exists []. cbn. rewrite app_nil_r.
    split; [reflexivity |]. split; [constructor |].
    split; [intros H; contradiction | intros H; discriminate].
Qed.

(** The pass over the indices of [l]: every branch beyond the old end of the
    list is a sprout of a branch of [l] that completed in this pass. *)
Lemma fold_sprout (delta : R) (l : list nat) :
  forall st : App,
    aligned st -> NoDup l ->
    (forall i, i ∈ l -> (i < List.length (branches st))%nat) ->
    forall j c,
      (List.length (branches st) <= j)%nat ->
      branches (fold_left (updateBranch random delta) l st) !! j = Some c ->
      exists i b, i ∈ l /\ branches st !! i = Some b /\
                  spawns delta b = true /\ sprout random b c.
Proof.
  induction l as [| k l IH]; intros st Hal Hnd Hlt j c Hj Hc; cbn [fold_left] in Hc.
  - apply lookup_lt_Some in Hc. lia.
  - apply NoDup_cons in Hnd as [Hk Hnd].
    assert (Hkl : (k < List.length (branches st))%nat).
    { apply Hlt. apply elem_of_cons. left. reflexivity. }
    destruct (lookup_lt_is_Some_2 _ _ Hkl) as [b Hb].
    destruct (updateBranch_sprout delta st k b Hb) as (bs & Hbs & Hall & Hsp & _).
    pose proof (NetworkFacts.stepped_one random delta st k Hal Hkl) as H1.
    pose proof (stepped_aligned _ _ _ _ H1) as Hal1.
    set (st1 := updateBranch random delta st k) in *.
    assert (Hlen1 : List.length (branches st1)
                    = (List.length (branches st) + List.length bs)%nat).
    { rewrite Hbs, length_app, length_insert. reflexivity. }
    assert (Hlt1 : forall i, i ∈ l -> (i < List.length (branches st1))%nat).
    { intros i Hi. assert (i < List.length (branches st))%nat; [| lia].
      apply Hlt. apply elem_of_cons. right. exact Hi. }
    destruct (decide (j < List.length (branches st1))%nat) as [Hold | Hnew].
    + destruct (lookup_lt_is_Some_2 _ _ Hold) as [b1 Hb1].
      pose proof (stepped_branch _ _ _ _
                    (NetworkFacts.fold_stepped random delta l st1 Hal1 Hnd Hlt1)
                    j b1 Hb1) as Hj'.
      rewrite decide_False in Hj'.
      2:{ intros Hin. assert (j < List.length (branches st))%nat; [| lia].
          apply Hlt. apply elem_of_cons. right. exact Hin. }
      rewrite Hc in Hj'. injection Hj' as <-.
      rewrite Hbs in Hb1. rewrite lookup_app_r in Hb1 by (rewrite length_insert; lia).
      assert (Hin : c ∈ bs) by (eapply list_elem_of_lookup_2; exact Hb1).
      exists k, b. split; [apply elem_of_cons; left; reflexivity |].
      split; [exact Hb |]. split.
      * apply Hsp. intros ->. inversion Hin.
      * exact (proj1 (Forall_forall _ _) Hall c Hin).
    + destruct (IH st1 Hal1 Hnd Hlt1 j c) as (i & b1 & Hi & Hb1 & Hs1 & Hsp1);
        [lia | exact Hc |].
      exists i, b1. split; [apply elem_of_cons; right; exact Hi |].
      split; [| split; assumption].
      rewrite Hbs in Hb1.
      rewrite lookup_app_l in Hb1.
      2:{ rewrite length_insert. apply Hlt. apply elem_of_cons. right. exact Hi. }
      rewrite list_lookup_insert_ne in Hb1 by (intros ->; contradiction).
      exact Hb1.
Qed.

Lemma update_sprout (delta : R) (st : App) :
  aligned st ->
  forall j c,
    (List.length (branches st) <= j)%nat ->
    branches (update random delta st) !! j = Some c ->
    exists i b, branches st !! i = Some b /\ spawns delta b = true /\ sprout random b c.
Proof.
  intros Hal j c Hj Hc. unfold update, updateBranches in Hc.
  set (st0 := set_elapsedTime (elapsedTime st + delta) st) in *.
  assert (Hal0 : aligned st0) by exact Hal.
  destruct (fold_sprout delta (seq 0 (List.length (branches st0))) st0 Hal0
              (NoDup_seq _ _)) with (j := j) (c := c) as (i & b & _ & Hb & Hs & Hsp).
  - intros i Hi. apply elem_of_seq in Hi. lia.
  - exact Hj.
  - exact Hc.
  - exists i, b. auto.
Qed.

Lemma update_shaped (delta : R) (st : App) :
  aligned st -> Forall shaped (branches st) ->
  Forall shaped (branches (update random delta st)).
Proof.
  intros Hal Hsh. apply Forall_lookup. intros j c Hc.
  pose proof (proj1 (Forall_lookup _ _) Hsh) as Hall.
  destruct (decide (j < List.length (branches st))%nat) as [Hold | Hnew].
  - destruct (lookup_lt_is_Some_2 _ _ Hold) as [b Hb].
    pose proof (framed_branch _ _ _ (NetworkFacts.update_framed random delta st Hal)
                  j b Hb) as Hj.
    rewrite Hc in Hj. injection Hj as ->.
    apply grow_shaped. exact (Hall j b Hb).
  - destruct (update_sprout delta st Hal j c) as (i & b & Hb & _ & Hsp);
      [lia | exact Hc |].
    exact (proj1 (sprout_shaped random b c (Hall i b Hb) Hsp)).
Qed.

(** ** The constructor *)

Lemma seedBranches_seed (n : nat) :
  forall (i : nat) (num : Z) (p : Vec3.t) (st : App),
    p ∈ startPoints ->
    exists bs,
      branches (seedBranches random n i num p st) = branches st ++ bs /\
      Forall (fun b => seed b /\ start b = p) bs /\
      (List.length bs <= n)%nat /\
      ((List.length (branches st) + n <= MAX_BRANCHES)%nat -> List.length bs = n) /\
      randomCalls (seedBranches random n i num p st) = (randomCalls st + n)%nat.
Proof.
  induction n as [| n IH]; intros i num p st Hp; cbn [seedBranches].
  - exists []. rewrite app_nil_r. repeat split; auto.
  - cbv zeta. unfold nextRandom.
    match goal with
    | |- context [createBranch ?s ?d ?g ?st1] =>
        destruct (createBranch_one s d g st1)
          as [[Hcap E] | (Hlt & b & Hb & Hr & Hs & Hd & Hg & Hi & Hl & He & Ha & Ht)];
        [rewrite E; destruct (IH (S i) num p st1 Hp) as (bs & Hbs & Hall & Hle & Hex & Hrc)
        | destruct (IH (S i) num p (createBranch s d g st1) Hp)
            as (bs & Hbs & Hall & Hle & Hex & Hrc)]
    end.
    + cbn [branches randomCalls set_randomCalls] in *.
      exists bs. split; [exact Hbs |]. split; [exact Hall |].
      split; [lia |]. split; [intros; lia |]. rewrite Hrc. lia.
    + rewrite Hb in Hbs, Hex. rewrite Hr in Hrc.
      cbn [branches randomCalls set_randomCalls] in *.
      exists (b :: bs).
      split; [rewrite Hbs, <- app_assoc; reflexivity |].
      split.
      * constructor; [| exact Hall]. split; [| exact Hs].
        split; [exact Hg |]. split; [exact Hi |]. split; [exact Hl |].
        split; [exact Ha |].
        split; [rewrite Ht; unfold BRANCH_LENGTH; cbn [INR]; rewrite Rmax_left; lra |].
        split; [rewrite Hs; exact He |]. split; [rewrite Hs; exact Hp |].
        eexists. exact Hd.
      * rewrite length_app in Hex. cbn [List.length] in *.
        split; [lia |]. split; [intros H; rewrite Hex by lia; reflexivity |].
        rewrite Hrc. lia.
Qed.

Lemma seedPoint_seed (st : App) (p : Vec3.t) :
  p ∈ startPoints ->
  exists bs,
    branches (seedPoint random st p) = branches st ++ bs /\
    Forall (fun b => seed b /\ start b = p) bs /\
    (0 <= random (randomCalls st) < 1 ->
     (List.length (branches st) + 7 <= MAX_BRANCHES)%nat ->
     (4 <= List.length bs <= 7)%nat /\
     randomCalls (seedPoint random st p) = (randomCalls st + 1 + List.length bs)%nat).
Proof.
  intros Hp. unfold seedPoint, nextRandom. cbv zeta.
  match goal with
  | |- context [seedBranches random ?n ?i ?num p ?st1] =>
      destruct (seedBranches_seed n i num p st1 Hp) as (bs & Hbs & Hall & Hle & Hex & Hrc)
  end.
  cbn [branches randomCalls set_randomCalls] in *.
  exists bs. split; [exact Hbs |]. split; [exact Hall |].
  intros Hr Hroom. pose proof (floor_quarter _ Hr) as Hq.
  assert (Hn : List.length bs = Z.to_nat (4 + floor (random (randomCalls st) * 4))).
  { apply Hex. lia. }
  split; [lia |]. rewrite Hrc. lia.
Qed.

(** The outer loop of [setupScene]: one group of branches per start point,
    in the order of the points. *)
Lemma seedPoints_seed (pts : list Vec3.t) :
  forall st : App,
    (forall p, p ∈ pts -> p ∈ startPoints) ->
    exists groups,
      branches (fold_left (seedPoint random) pts st) = branches st ++ concat groups /\
      Forall2 (fun p g => Forall (fun b => seed b /\ start b = p) g) pts groups /\
      ((forall k, 0 <= random k < 1) ->
       (List.length (branches st) + 7 * List.length pts <= MAX_BRANCHES)%nat ->
       Forall (fun g => (4 <= List.length g <= 7)%nat) groups /\
       (List.length (concat groups) <= 7 * List.length pts)%nat /\
       randomCalls (fold_left (seedPoint random) pts st)
       = (randomCalls st + List.length pts + List.length (concat groups))%nat).
Proof.
  induction pts as [| p pts IH]; intros st Hsub; cbn [fold_left].
  - exists []. cbn [concat]. rewrite app_nil_r. split; [reflexivity |].
    split; [constructor |]. intros _ _. split; [constructor |]. cbn. lia.
  - destruct (seedPoint_seed st p) as (bs1 & Hb1 & Hall1 & Hc1).
    { apply Hsub. apply elem_of_cons. left. reflexivity. }
    destruct (IH (seedPoint random st p)) as (gs & Hb2 & Hall2 & Hc2).
    { intros q Hq. apply Hsub. apply elem_of_cons. right. exact Hq. }
    exists (bs1 :: gs). cbn [concat].
    split; [rewrite Hb2, Hb1, app_assoc; reflexivity |].
    split; [constructor; assumption |].
    intros Hr Hroom. cbn [List.length] in Hroom.
    destruct (Hc1 (Hr _)) as [Hn1 Hr1]; [lia |].
    destruct (Hc2 Hr) as (Hn2 & Hle2 & Hr2).
    { rewrite Hb1, length_app. lia. }
    split; [constructor; assumption |].
    rewrite length_app. cbn [List.length]. split; [lia |]. rewrite Hr2, Hr1. lia.
Qed.

Lemma groups_at_least (gs : list (list Branch)) :
  Forall (fun g => (4 <= List.length g <= 7)%nat) gs ->
  (4 * List.length gs <= List.length (concat gs) <= 7 * List.length gs)%nat.
Proof.
  induction 1 as [| g gs Hg _ IH]; cbn [concat List.length]; [lia |].
  rewrite length_app. lia.
Qed.

Lemma create_seeds :
  exists groups,
    branches (create random) = concat groups /\
    Forall2 (fun p g => Forall (fun b => seed b /\ start b = p) g) startPoints groups /\
    ((forall k, 0 <= random k < 1) ->
     Forall (fun g => (4 <= List.length g <= 7)%nat) groups /\
     randomCalls (create random) = (9 + List.length (branches (create random)))%nat).
Proof.
  unfold create.
  destruct (seedPoints_seed startPoints (mkApp [] [] 0 0 [])) as (gs & Hb & Hall & Hc).
  { auto. }
  cbn [branches app] in Hb. exists gs. rewrite Hb.
  split; [reflexivity |]. split; [exact Hall |].
  intros Hr. destruct (Hc Hr) as (Hn & _ & Hrc).
  { unfold MAX_BRANCHES, startPoints. cbn. lia. }
  assert (Hlen : List.length startPoints = 9%nat) by reflexivity.
  rewrite Hlen in Hrc. cbn [randomCalls] in Hrc.
  split; [exact Hn |]. rewrite Hrc. lia.
Qed.

Lemma create_all_seeds : Forall seed (branches (create random)).
Proof.
  destruct create_seeds as (gs & -> & Hall & _).
  apply Forall_concat.
  induction Hall as [| p g ps gs Hg _ IH]; constructor; [| exact IH].
  eapply Forall_impl; [exact Hg |]. intros b [Hb _]. exact Hb.
Qed.

Lemma reachable_shaped (st : App) :
  reachable random st -> Forall shaped (branches st).
Proof.
  intros Hreach. induction Hreach as [| delta st Hreach IH].
  - eapply Forall_impl; [exact create_all_seeds |]. exact seed_shaped.
  - apply update_shaped; [| exact IH].
    exact (inv_aligned _ (NetworkFacts.reachable_invariant random st Hreach)).
Qed.

(** ** Growth over several frames *)

Lemma grow_still (d : R) (b : Branch) :
  isGrowing (grow d b) = true ->
  isGrowing b = true /\
  length (grow d b) = length b + GROWTH_SPEED * d /\
  length (grow d b) < targetLength b.
Proof.
  unfold grow. destruct (isGrowing b) eqn:Hg.
  - cbv zeta. cbn [length targetLength set_length].
    destruct (Rle_dec (targetLength b) (length b + GROWTH_SPEED * d)) as [Hdone | Hmore].
    + cbn. discriminate.
    + cbn. intros _. split; [reflexivity |]. split; [reflexivity | lra].
  - cbn. rewrite Hg. discriminate.
Qed.

Lemma run_growing (ds : list R) :
  forall (st : App) (i : nat) (b b' : Branch),
    aligned st -> branches st !! i = Some b ->
    branches (run random ds st) !! i = Some b' ->
    isGrowing b' = true ->
    isGrowing b = true /\
    length b' = length b + GROWTH_SPEED * totalTime ds /\
    age b' = age b + totalTime ds /\
    targetLength b' = targetLength b /\ start b' = start b /\
    direction b' = direction b /\ generation b' = generation b /\
    (ds <> [] -> length b' < targetLength b).
Proof.
  induction ds as [| d ds IH]; intros st i b b' Hal Hb Hb' Hg'.
  - cbn [run] in Hb'. rewrite Hb in Hb'. injection Hb' as <-.
    unfold totalTime. cbn [fold_right].
    split; [exact Hg' |]. split; [ring |]. split; [ring |].
    repeat split; try reflexivity. intros H. contradiction.
  - pose proof (NetworkFacts.update_framed random d st Hal) as Hf.
    change (run random (d :: ds) st) with (run random ds (update random d st)) in Hb'.
    destruct (IH (update random d st) i (grow d b) b' (framed_aligned _ _ _ Hf)
                (framed_branch _ _ _ Hf i b Hb) Hb' Hg')
      as (Hg1 & Hl & Ha & Ht & Hs & Hd & Hgen & Hlt).
    destruct (grow_still d b Hg1) as (Hg & Hl1 & Hlt1).
    destruct (NetworkFacts.grow_kept d b) as (Hs1 & Hd1 & Ht1 & Hgen1 & _ & Ha1).
    change (totalTime (d :: ds)) with (d + totalTime ds).
    split; [exact Hg |]. split; [rewrite Hl, Hl1; ring |].
    split; [rewrite Ha, Ha1; ring |]. split; [congruence |].
    split; [congruence |]. split; [congruence |]. split; [congruence |].
    intros _. destruct ds as [| d' ds].
    + cbn [run] in Hb'. rewrite (framed_branch _ _ _ Hf i b Hb) in Hb'.
      injection Hb' as <-. exact Hlt1.
    + rewrite <- Ht1. apply Hlt. discriminate.
Qed.

(** ** The mesh of a branch after a frame *)

Lemma radius_sign (g : nat) :
  0 < TUBE_RADIUS * (1 - INR g * (6 / 100)) <-> (g <= 16)%nat.
Proof.
  unfold TUBE_RADIUS. split.
  - intros H. destruct (le_lt_dec g 16) as [Hle | Hgt]; [exact Hle | exfalso].
    assert (H17 : INR 17 <= INR g) by (apply le_INR; lia).
    replace (INR 17) with 17 in H17 by (cbn; lra). nra.
  - intros H. assert (H16 : INR g <= INR 16) by (apply le_INR; exact H).
    replace (INR 16) with 16 in H16 by (cbn; lra). nra.
Qed.

Lemma pulse_range (t : R) : 4 / 10 <= 7 / 10 + sin t * (3 / 10) <= 1.
Proof. pose proof (SIN_bound t). lra. Qed.

Lemma spawning_end (delta : R) (b : Branch) :
  spawns delta b = true ->
  end_ (grow delta b)
  = Vec3.add (start b) (Vec3.multiplyScalar (direction b) (targetLength b)) /\
  length (grow delta b) = targetLength b /\ isGrowing (grow delta b) = false.
Proof.
  unfold spawns, grow. destruct (isGrowing b); [| discriminate].
  cbv zeta. cbn [length targetLength set_length].
  destruct (Rle_dec _ _); [| discriminate]. intros _. repeat split.
Qed.

End WithRandom.

(** ** Sample inputs *)

Lemma youngApp_aligned : aligned youngApp.
Proof. reflexivity. Qed.

Lemma youngApp_shaped : Forall shaped (branches youngApp).
Proof.
  apply Forall_singleton. unfold shaped, planar, unitLength, dot, tip, youngBranch.
  cbn. repeat split; try lra.
  - unfold Vec3.add, Vec3.multiplyScalar. cbn. f_equal; lra.
  - unfold BRANCH_LENGTH. rewrite Rmax_left; lra.
Qed.

Lemma youngApp_room : (List.length (branches youngApp) + 5 <= MAX_BRANCHES)%nat.
Proof. unfold MAX_BRANCHES. cbn. lia. Qed.

Lemma youngBranch_spawns : spawns (1 / 2) youngBranch = true.
Proof.
  unfold spawns, youngBranch, GROWTH_SPEED. cbn.
  destruct (Rle_dec _ _) as [_ | N]; [reflexivity | lra].
Qed.

Lemma young_update :
  update half (1 / 2) youngApp
  = updateBranch half (1 / 2) (set_elapsedTime (elapsedTime youngApp + 1 / 2) youngApp) 0.
Proof. reflexivity. Qed.

Lemma young_child :
  exists c, branches (update half (1 / 2) youngApp) !! 1%nat = Some c.
Proof.
  rewrite young_update.
  destruct (updateBranch_sprout half (1 / 2)
              (set_elapsedTime (elapsedTime youngApp + 1 / 2) youngApp) 0 youngBranch
              eq_refl) as (bs & Hbs & _ & _ & Hcount).
  rewrite Hbs. apply lookup_lt_is_Some_2. rewrite length_app, length_insert.
  destruct Hcount as [H2 _].
  - exact youngBranch_spawns.
  - apply RainFacts.half_range.
  - unfold MAX_GENERATION. cbn. lia.
  - unfold half, BRANCH_PROBABILITY. lra.
  - exact youngApp_room.
  - cbn [branches set_elapsedTime youngApp List.length]. lia.
Qed.

Lemma young_run :
  branches (run half [1 / 8; 1 / 16] youngApp) !! 0%nat
  = Some (grow (1 / 16) (grow (1 / 8) youngBranch)).
Proof.
  pose proof (NetworkFacts.update_framed half (1 / 8) youngApp youngApp_aligned) as Hf.
  pose proof (NetworkFacts.update_framed half (1 / 16) _ (framed_aligned _ _ _ Hf)) as Hf'.
  change (run half [1 / 8; 1 / 16] youngApp)
    with (update half (1 / 16) (update half (1 / 8) youngApp)).
  apply (framed_branch _ _ _ Hf'). apply (framed_branch _ _ _ Hf). reflexivity.
Qed.

Lemma young_still_growing :
  isGrowing (grow (1 / 16) (grow (1 / 8) youngBranch)) = true.
Proof.
  assert (H1 : grow (1 / 8) youngBranch
               = set_age (1 / 4 + 1 / 8)
                   (set_end (Vec3.add (Vec3.mk 0 0 0)
                               (Vec3.multiplyScalar (Vec3.mk 1 0 0)
                                  (3 + GROWTH_SPEED * (1 / 8))))
                      (set_length (3 + GROWTH_SPEED * (1 / 8)) youngBranch))).
  { unfold grow, youngBranch. cbn [isGrowing]. cbv zeta.
    cbn [length targetLength set_length].
    destruct (Rle_dec _ _) as [H | _]; [unfold GROWTH_SPEED in H; lra | reflexivity]. }
  rewrite H1. unfold grow. cbn [isGrowing set_age set_end set_length youngBranch].
  cbv zeta. cbn [length targetLength set_length set_age set_end youngBranch].
  destruct (Rle_dec _ _) as [H | _]; [unfold GROWTH_SPEED in H; lra | reflexivity].
Qed.

(** ** The shape of the network *)

(** X14. The network is flat and its branches are straight: in every state
    of a running app each branch starts and ends in the plane [z = 0], its
    direction is a unit vector of that plane, its end is
    [start + direction * length], and its target length is
    [max(BRANCH_LENGTH * (1 - 0.05 * generation), 0.5)], between 0.5 and
    [BRANCH_LENGTH]. *)
Theorem network_is_flat (random : nat -> R) (st : App) (i : nat) (b : Branch) :
  reachable random st -> branches st !! i = Some b ->
  shaped b /\ 5 / 10 <= targetLength b <= BRANCH_LENGTH.
Proof.
  intros Hreach Hb.
  pose proof (proj1 (Forall_lookup _ _) (reachable_shaped random st Hreach) i b Hb) as Hsh.
  split; [exact Hsh |].
  destruct Hsh as (_ & _ & _ & _ & _ & ->). split; [apply Rmax_r |].
  pose proof (pos_INR (generation b)). unfold BRANCH_LENGTH.
  apply Rmax_lub; lra.
Qed.

Lemma network_is_flat_witness :
  exists b, branches (create half) !! 0%nat = Some b /\ shaped b.
Proof.
  destruct (NetworkFacts.create_first half NetworkFacts.half_first) as [b Hb].
  exists b. split; [exact Hb |].
  exact (proj1 (network_is_flat half (create half) 0 b (reachable_create half) Hb)).
Defined.

(** X15. Where children start: every branch a frame appends is a child of a
    branch that reached its target length in that frame.  It starts where
    the tip of its parent was before the frame, not at the parent's final
    end ([start + direction * targetLength], which is set after [branchOut]
    returns); it is one generation younger, lies in the plane, and points
    at most 90 degrees away from its parent. *)
Theorem children_start_at_previous_tip (random : nat -> R) (delta : R) (st : App)
    (j : nat) (c : Branch) :
  (forall k, 0 <= random k < 1) ->
  aligned st -> Forall shaped (branches st) ->
  (List.length (branches st) <= j)%nat ->
  branches (update random delta st) !! j = Some c ->
  exists i b,
    branches st !! i = Some b /\ spawns delta b = true /\
    branches (update random delta st) !! i = Some (grow delta b) /\
    start c = tip b /\
    end_ (grow delta b)
    = Vec3.add (start b) (Vec3.multiplyScalar (direction b) (targetLength b)) /\
    generation c = S (generation b) /\ length c = 0 /\ shaped c /\
    0 <= dot (direction c) (direction b).
Proof.
  intros Hr Hal Hsh Hj Hc.
  destruct (update_sprout random delta st Hal j c Hj Hc) as (i & b & Hb & Hsp & Hsprout).
  pose proof (proj1 (Forall_lookup _ _) Hsh i b Hb) as Hshb.
  destruct (sprout_shaped random b c Hshb Hsprout) as (Hshc & k & Hdot).
  exists i, b. split; [exact Hb |]. split; [exact Hsp |].
  split; [exact (framed_branch _ _ _ (NetworkFacts.update_framed random delta st Hal)
                   i b Hb) |].
  destruct Hshb as (_ & _ & _ & _ & Htip & _).
  destruct Hsprout as (Hs & Hg & _ & Hl & _).
  split; [rewrite Hs; exact Htip |].
  split; [exact (proj1 (spawning_end delta b Hsp)) |].
  split; [exact Hg |]. split; [exact Hl |]. split; [exact Hshc |].
  rewrite Hdot. destruct (turn_range (random k) (Hr k)) as [Hlo Hhi].
  apply cos_ge_0; assumption.
Qed.

Lemma children_start_at_previous_tip_witness :
  (forall k, 0 <= half k < 1) /\ aligned youngApp /\ Forall shaped (branches youngApp) /\
  exists c,
    branches (update half (1 / 2) youngApp) !! 1%nat = Some c /\
    start c = tip youngBranch /\ generation c = 1%nat.
Proof.
  split; [exact RainFacts.half_range |]. split; [exact youngApp_aligned |].
  split; [exact youngApp_shaped |].
  destruct young_child as [c Hc]. exists c. split; [exact Hc |].
  destruct (children_start_at_previous_tip half (1 / 2) youngApp 1 c RainFacts.half_range
              youngApp_aligned youngApp_shaped (le_n 1) Hc)
    as (i & b & Hb & _ & _ & Hs & _ & Hg & _).
  destruct i as [| i]; [| discriminate].
  injection Hb as <-. exact (conj Hs Hg).
Defined.

(** X16. How many children: [branchOut] appends nothing when the branch is
    of generation 25 or the first number drawn is above
    [BRANCH_PROBABILITY]; otherwise, the cap being at least 5 away, it
    appends 2 to 5 branches, all children of the branch, and draws two
    numbers and one more per child. *)
Theorem branch_out_count (random : nat -> R) (parent : Branch) (st : App) :
  (forall k, 0 <= random k < 1) ->
  (List.length (branches st) + 5 <= MAX_BRANCHES)%nat ->
  ((MAX_GENERATION <= generation parent)%nat \/
   BRANCH_PROBABILITY < random (randomCalls st) ->
   branches (branchOut random parent st) = branches st) /\
  ((generation parent < MAX_GENERATION)%nat ->
   random (randomCalls st) <= BRANCH_PROBABILITY ->
   (2 <= added st (branchOut random parent st) <= 5)%nat /\
   added st (branchOut random parent st)
   = Z.to_nat (2 + floor (random (S (randomCalls st)) * 4)) /\
   randomCalls (branchOut random parent st)
   = (randomCalls st + 2 + added st (branchOut random parent st))%nat /\
   forall j c,
     (List.length (branches st) <= j)%nat ->
     branches (branchOut random parent st) !! j = Some c ->
     sprout random parent c).
Proof.
  intros Hr Hroom.
  destruct (branchOut_sprout random parent st) as (bs & Hbs & Hall & Hwhy & Hfive & Hcount).
  split.
  - intros Hno. destruct bs as [| c bs]; [rewrite Hbs, app_nil_r; reflexivity |].
    destruct Hwhy as [Hg Hp]; [discriminate |].
    destruct Hno as [Hno | Hno]; [lia | lra].
  - intros Hg Hp.
    destruct (Hcount (Hr _) Hg Hp Hroom) as (H2 & Hn & Hrc).
    specialize (Hfive (Hr _)).
    assert (Hadd : added st (branchOut random parent st) = List.length bs).
    { unfold added. rewrite Hbs, length_app. lia. }
    rewrite Hadd. split; [lia |]. split; [exact Hn |]. split; [exact Hrc |].
    intros j c Hj Hc. rewrite Hbs in Hc. rewrite lookup_app_r in Hc by exact Hj.
    apply (proj1 (Forall_forall _ _) Hall).
    eapply list_elem_of_lookup_2. exact Hc.
Qed.

Lemma branch_out_count_witness :
  (forall k, 0 <= half k < 1) /\
  (List.length (branches youngApp) + 5 <= MAX_BRANCHES)%nat /\
  ((MAX_GENERATION <= generation youngBranch)%nat \/
   BRANCH_PROBABILITY < half (randomCalls youngApp) ->
   branches (branchOut half youngBranch youngApp) = branches youngApp).
Proof.
  split; [exact RainFacts.half_range |]. split; [exact youngApp_room |].
  exact (proj1 (branch_out_count half youngBranch youngApp RainFacts.half_range youngApp_room)).
Defined.

(** X17. While a branch grows its length is linear in the time passed: if
    the branch at an index is still growing after some frames, it has been
    growing all the time, its length is the length it had plus
    [GROWTH_SPEED] times the total time of the frames and its age the age it
    had plus that time; it is below the target length, and start, direction,
    target length and generation are what they were. *)
Theorem growing_length_is_linear (random : nat -> R) (ds : list R) (st : App)
    (i : nat) (b b' : Branch) :
  aligned st -> branches st !! i = Some b ->
  branches (run random ds st) !! i = Some b' ->
  isGrowing b' = true ->
  isGrowing b = true /\
  length b' = length b + GROWTH_SPEED * totalTime ds /\
  age b' = age b + totalTime ds /\
  targetLength b' = targetLength b /\ start b' = start b /\
  direction b' = direction b /\ generation b' = generation b /\
  (ds <> [] -> length b' < targetLength b).
Proof.
  intros Hal Hb Hb' Hg. exact (run_growing random ds st i b b' Hal Hb Hb' Hg).
Qed.

Lemma growing_length_is_linear_witness :
  aligned youngApp /\
  branches (run half [1 / 8; 1 / 16] youngApp) !! 0%nat
  = Some (grow (1 / 16) (grow (1 / 8) youngBranch)) /\
  isGrowing (grow (1 / 16) (grow (1 / 8) youngBranch)) = true /\
  length (grow (1 / 16) (grow (1 / 8) youngBranch))
  = length youngBranch + GROWTH_SPEED * totalTime [1 / 8; 1 / 16].
Proof.
  split; [exact youngApp_aligned |]. split; [exact young_run |].
  split; [exact young_still_growing |].
  exact (proj1 (proj2 (growing_length_is_linear half [1 / 8; 1 / 16] youngApp 0
                         youngBranch _ youngApp_aligned eq_refl young_run
                         young_still_growing))).
Defined.

(** X18. What [setupScene] builds: with [Math.random()] in [[0, 1)], the
    branch list is nine groups one after the other, one per start point in
    the order of [startPoints], each of 4 to 7 branches that start at that
    point, are of generation 0, growing, of length 0 and target length
    [BRANCH_LENGTH], with a unit direction in the plane; so there are 36 to
    63 branches, and one number is drawn per start point and one per
    branch. *)
Theorem constructor_seeds (random : nat -> R) :
  (forall k, 0 <= random k < 1) ->
  exists groups : list (list Branch),
    branches (create random) = concat groups /\
    Forall2 (fun p g =>
               (4 <= List.length g <= 7)%nat /\
               Forall (fun b => start b = p /\ seed b /\ shaped b) g)
      startPoints groups /\
    (36 <= List.length (branches (create random)) <= 63)%nat /\
    randomCalls (create random) = (9 + List.length (branches (create random)))%nat.
Proof.
  intros Hr. destruct (create_seeds random) as (gs & Hb & Hall & Hc).
  destruct (Hc Hr) as [Hn Hrc]. exists gs. split; [exact Hb |].
  pose proof (Forall2_length _ _ _ Hall) as Hlen.
  assert (H9 : List.length startPoints = 9%nat) by reflexivity.
  split.
  - clear Hb Hrc Hlen H9 Hc. revert Hn.
    induction Hall as [| p g ps gs' Hg _ IH]; intros Hn; [constructor |].
    apply Forall_cons in Hn as [Hn1 Hn]. constructor; [| exact (IH Hn)].
    split; [exact Hn1 |]. eapply Forall_impl; [exact Hg |].
    intros b [Hb Hs]. split; [exact Hs |]. split; [exact Hb |].
    apply seed_shaped. exact Hb.
  - split; [| exact Hrc]. rewrite Hb.
    pose proof (groups_at_least gs Hn). lia.
Qed.

Lemma constructor_seeds_witness :
  (forall k, 0 <= half k < 1) /\
  exists groups : list (list Branch),
    branches (create half) = concat groups /\ List.length groups = 9%nat /\
    Forall (fun g => (4 <= List.length g <= 7)%nat) groups.
Proof.
  split; [exact RainFacts.half_range |].
  destruct (constructor_seeds half RainFacts.half_range) as (gs & Hb & Hall & _).
  exists gs. split; [exact Hb |].
  split; [symmetry; exact (Forall2_length _ _ _ Hall) |].
  clear Hb. induction Hall as [| p g ps gs' Hg _ IH]; constructor; [| exact IH].
  exact (proj1 Hg).
Defined.

(** X19. The mesh of a branch after a frame: its opacity is
    [0.7 + 0.3 * sin(...)], between 0.4 and 1; if the branch was growing its
    tube was rebuilt from the branch as the frame left it, with at least 2
    segments and the radius [TUBE_RADIUS * (1 - 0.06 * generation)], which
    is positive exactly for generations up to 16; otherwise the tube is the
    one it had. *)
Theorem mesh_after_frame (random : nat -> R) (delta : R) (st : App) (i : nat)
    (b : Branch) :
  aligned st -> branches st !! i = Some b ->
  exists m m',
    branchLines st !! i = Some m /\
    branchLines (update random delta st) !! i = Some m' /\
    4 / 10 <= opacity (material m') <= 1 /\
    m_color (material m') = m_color (material m) /\
    (isGrowing b = true ->
     geometry m' = grownTube (grow delta b) /\
     (2 <= tubularSegments (geometry m'))%Z /\
     (0 < radius (geometry m') <-> (generation b <= 16)%nat)) /\
    (isGrowing b = false -> geometry m' = geometry m).
Proof.
  intros Hal Hb.
  assert (Hi : (i < List.length (branchLines st))%nat).
  { rewrite Hal. exact (lookup_lt_Some _ _ _ Hb). }
  destruct (lookup_lt_is_Some_2 _ _ Hi) as [m Hm].
  exists m, (remesh (elapsedTime st + delta) delta b m).
  split; [exact Hm |].
  split; [exact (framed_mesh _ _ _ (NetworkFacts.update_framed random delta st Hal)
                   i b m Hb Hm) |].
  unfold remesh. cbv zeta. cbn [material opacity set_opacity m_color geometry].
  split; [apply pulse_range |].
  destruct (isGrowing b).
  - split; [reflexivity |]. split; [| intros H; discriminate]. intros _.
    cbn [geometry set_geometry]. split; [reflexivity |].
    split; [apply Z.le_max_l |].
    cbn [radius grownTube].
    destruct (NetworkFacts.grow_kept delta b) as (_ & _ & _ & -> & _).
    apply radius_sign.
  - split; [reflexivity |]. split; [intros H; discriminate | reflexivity].
Qed.

Lemma mesh_after_frame_witness :
  aligned youngApp /\
  exists m', branchLines (update half (1 / 2) youngApp) !! 0%nat = Some m' /\
             4 / 10 <= opacity (material m') <= 1.
Proof.
  split; [exact youngApp_aligned |].
  destruct (mesh_after_frame half (1 / 2) youngApp 0 youngBranch youngApp_aligned eq_refl)
    as (m & m' & _ & Hm' & Ho & _).
  exists m'. exact (conj Hm' Ho).
Defined.

End NetworkMoreFacts.
